(** * Connections between library objects: a model of
      [nion/swift/model/Connection.py] and of the entity layer it rests on.

    Objects live in a heap indexed by their identifier (the uuid); a
    persistent object is the finite map of its declared properties.
    Python exceptions are the [Raise] results of an error monad; the
    synchronous, depth-first event dispatch of the source is a recursive
    function with explicit fuel. *)

From Stdlib Require Import ZArith Lia.
From stdpp Require Import gmap strings list fin_maps.

(** ** Values, faults and the error monad *)

Inductive value : Type :=
  | VNone
  | VBool (b : bool)
  | VInt (z : Z)
  | VStr (s : string).

#[global] Instance value_eq_dec : EqDecision value.
Proof. solve_decision. Defined.

Inductive fault : Type :=
  | AssertionError
  | AttributeError
  | TypeError
  | ValueError
  | SchemaError
  | OutOfFuel.

Inductive result (A : Type) : Type :=
  | Ok (a : A)
  | Raise (f : fault).
Arguments Ok {A} a.
Arguments Raise {A} f.

#[global] Instance result_ret : MRet result := λ A a, Ok a.
#[global] Instance result_bind : MBind result := λ A B k m,
  match m with
  | Ok a => k a
  | Raise f => Raise f
  end.

Definition is_ok {A} (r : result A) : bool :=
  match r with Ok _ => true | Raise _ => false end.

(** The [assert] statement. *)
Definition assert (b : bool) : result unit :=
  if b then Ok tt else Raise AssertionError.

(** Python truthiness of an optional string: [None] and the empty string
    are both false. *)
Definition truthy (s : option string) : bool :=
  match s with
  | Some s => negb (String.eqb s "")
  | None => false
  end.

(** ** Item references *)

(** Modelled from the spec: the item reference of Persistence.py, which is
    not part of the sources. It wraps a specifier and exposes the item
    that the specifier currently resolves to, if any. *)
Record ItemReference : Type := {
  item_specifier : option nat;
  item : option nat
}.

Definition set_item (i : option nat) (r : ItemReference) : ItemReference :=
  {| item_specifier := item_specifier r; item := i |}.

(** Modelled from the spec: resolution of an item reference (section 4.4).
    A reference resolves when the context registers the identifier its
    specifier names, and becomes unresolved when its item is
    unregistered; the callback fires once per transition and not at all
    when the resolution does not change. *)
Definition resolves (u : nat) (r : ItemReference) : bool :=
  bool_decide (item r = None) && bool_decide (item_specifier r = Some u).

Definition unresolves (u : nat) (r : ItemReference) : bool :=
  bool_decide (item r = Some u).

(** ** PropertyConnection *)

Module PropertyConnection.

(** [Binding.PropertyBinding(source, property_name)] of nion.utils: it
    listens to the property-changed event of [b_source] for as long as
    it is open and forwards the value of [b_property] to its
    [target_setter]. *)
Record PropertyBinding : Type := {
  b_source : nat;
  b_property : string
}.

(** The fields of a PropertyConnection. A binding or listener that is
    [Some] is open; closing it and storing [None] happen together in the
    source. *)
Record connection : Type := {
  _closed : bool;
  source_property : option string;
  target_property : option string;
  binding : option PropertyBinding;
  target_property_changed_listener : option nat;
  source_reference : ItemReference;
  target_reference : ItemReference;
  suppress : bool
}.

Definition _source (c : connection) : option nat := item (source_reference c).
Definition _target (c : connection) : option nat := item (target_reference c).

(** The world: the heap of persistent objects, the set of identifiers
    registered with the context, the connection under study, and a log
    of every property assignment that was performed (oldest first). *)
Record world : Type := {
  heap : gmap nat (gmap string value);
  registered : gset nat;
  conn : connection;
  set_log : list (nat * string * value)
}.

Definition with_conn (f : connection → connection) (w : world) : world :=
  {| heap := heap w; registered := registered w; conn := f (conn w);
     set_log := set_log w |}.

Definition with_registered (f : gset nat → gset nat) (w : world) : world :=
  {| heap := heap w; registered := f (registered w); conn := conn w;
     set_log := set_log w |}.

Definition set_closed (b : bool) (c : connection) : connection :=
  {| _closed := b; source_property := source_property c;
     target_property := target_property c; binding := binding c;
     target_property_changed_listener := target_property_changed_listener c;
     source_reference := source_reference c;
     target_reference := target_reference c; suppress := suppress c |}.

Definition set_source_property (p : option string) (c : connection) : connection :=
  {| _closed := _closed c; source_property := p;
     target_property := target_property c; binding := binding c;
     target_property_changed_listener := target_property_changed_listener c;
     source_reference := source_reference c;
     target_reference := target_reference c; suppress := suppress c |}.

Definition set_target_property (p : option string) (c : connection) : connection :=
  {| _closed := _closed c; source_property := source_property c;
     target_property := p; binding := binding c;
     target_property_changed_listener := target_property_changed_listener c;
     source_reference := source_reference c;
     target_reference := target_reference c; suppress := suppress c |}.

Definition set_binding (b : option PropertyBinding) (c : connection) : connection :=
  {| _closed := _closed c; source_property := source_property c;
     target_property := target_property c; binding := b;
     target_property_changed_listener := target_property_changed_listener c;
     source_reference := source_reference c;
     target_reference := target_reference c; suppress := suppress c |}.

Definition set_listener (l : option nat) (c : connection) : connection :=
  {| _closed := _closed c; source_property := source_property c;
     target_property := target_property c; binding := binding c;
     target_property_changed_listener := l;
     source_reference := source_reference c;
     target_reference := target_reference c; suppress := suppress c |}.

Definition set_source_reference (r : ItemReference) (c : connection) : connection :=
  {| _closed := _closed c; source_property := source_property c;
     target_property := target_property c; binding := binding c;
     target_property_changed_listener := target_property_changed_listener c;
     source_reference := r;
     target_reference := target_reference c; suppress := suppress c |}.

Definition set_target_reference (r : ItemReference) (c : connection) : connection :=
  {| _closed := _closed c; source_property := source_property c;
     target_property := target_property c; binding := binding c;
     target_property_changed_listener := target_property_changed_listener c;
     source_reference := source_reference c;
     target_reference := r; suppress := suppress c |}.

Definition set_suppress (b : bool) (c : connection) : connection :=
  {| _closed := _closed c; source_property := source_property c;
     target_property := target_property c; binding := binding c;
     target_property_changed_listener := target_property_changed_listener c;
     source_reference := source_reference c;
     target_reference := target_reference c; suppress := b |}.

(** *** Property access on persistent objects *)

(** Modelled from the spec: property access of a persistent object
    (Persistence.py is not part of the sources). A property is readable
    and writable when it is declared on the object; anything else is a
    fault. *)
Definition getattr (w : world) (o : nat) (name : string) : result value :=
  match heap w !! o with
  | Some ps =>
      match ps !! name with
      | Some v => Ok v
      | None => Raise AttributeError
      end
  | None => Raise AttributeError
  end.

(** The store of a declared property, before the change event fires. *)
Definition store (w : world) (o : nat) (name : string) (v : value) : result world :=
  match heap w !! o with
  | Some ps =>
      match ps !! name with
      | Some _ =>
          Ok {| heap := <[o := <[name := v]> ps]> (heap w);
                registered := registered w; conn := conn w;
                set_log := set_log w ++ [(o, name, v)] |}
      | None => Raise AttributeError
      end
  | None => Raise AttributeError
  end.

Section Dispatch.

(** The assignment that the two propagation methods perform; it is
    [setattr] itself one level of dispatch deeper. *)
Variable setattr_rec : world → nat → string → value → result world.

(** [PropertyConnection.__set_target_from_source]. *)
Definition set_target_from_source_with (w : world) (v : value) : result world :=
  assert (negb (_closed (conn w))) ;;
  if suppress (conn w) then Ok w
  else
    let w1 := with_conn (set_suppress true) w in
    match _target (conn w1) with
    | None => Raise AttributeError
    | Some t =>
        match target_property (conn w1) with
        | None => Raise TypeError
        | Some tp =>
            w2 ← setattr_rec w1 t tp v;
            Ok (with_conn (set_suppress false) w2)
        end
    end.

(** [PropertyConnection.__set_source_from_target]; the inner call is
    [Binding.update_source], which assigns the bound property. *)
Definition set_source_from_target_with (w : world) (v : value) : result world :=
  assert (negb (_closed (conn w))) ;;
  if suppress (conn w) then Ok w
  else
    let w1 := with_conn (set_suppress true) w in
    w2 ← match binding (conn w1) with
         | Some b => setattr_rec w1 (b_source b) (b_property b) v
         | None => Ok w1
         end;
    Ok (with_conn (set_suppress false) w2).

(** The listener that [configure_target] installs on the target:
    [property_changed(target, property_name)]. *)
Definition target_property_changed (w : world) (target : nat) (name : string)
  : result world :=
  if decide (Some name = target_property (conn w)) then
    v ← getattr w target name;
    set_source_from_target_with w v
  else Ok w.

(** The listener of the PropertyBinding on its source. *)
Definition binding_property_changed (w : world) (b : PropertyBinding)
    (name : string) : result world :=
  if decide (name = b_property b) then
    v ← getattr w (b_source b) (b_property b);
    set_target_from_source_with w v
  else Ok w.

End Dispatch.

(** [setattr(o, name, v)] on a persistent object: store the value, then
    fire the property-changed event of [o]. The listeners are those open
    when the event fires, oldest first: the target listener is always
    installed before the binding is created. *)
Fixpoint setattr (fuel : nat) (w : world) (o : nat) (name : string) (v : value)
  : result world :=
  match fuel with
  | O => Raise OutOfFuel
  | S fuel' =>
      w1 ← store w o name v;
      let listener := target_property_changed_listener (conn w1) in
      let bound := binding (conn w1) in
      w2 ← (if decide (listener = Some o)
            then target_property_changed (setattr fuel') w1 o name
            else Ok w1);
      match bound with
      | Some b =>
          if decide (b_source b = o)
          then binding_property_changed (setattr fuel') w2 b name
          else Ok w2
      | None => Ok w2
      end
  end.

Definition set_target_from_source (fuel : nat) : world → value → result world :=
  set_target_from_source_with (setattr fuel).

Definition set_source_from_target (fuel : nat) : world → value → result world :=
  set_source_from_target_with (setattr fuel).

(** *** Configuring and releasing the binding *)

(** [configure_binding], a closure of [__init__]. *)
Definition configure_binding (fuel : nat) (w : world) : result world :=
  match _source (conn w), _target (conn w) with
  | Some s, Some _ =>
      assert (bool_decide (binding (conn w) = None)) ;;
      match source_property (conn w) with
      | None => Raise TypeError
      | Some sp =>
          let w1 := with_conn (set_binding (Some {| b_source := s; b_property := sp |})) w in
          v ← getattr w1 s sp;
          set_target_from_source fuel w1 v
      end
  | _, _ => Ok w
  end.

(** [release_binding], a closure of [__init__]. *)
Definition release_binding (w : world) : world :=
  with_conn (λ c, set_listener None (set_binding None c)) w.

(** [configure_target], a closure of [__init__]. *)
Definition configure_target (fuel : nat) (w : world) : result world :=
  assert (bool_decide (target_property_changed_listener (conn w) = None)) ;;
  let w1 := match _target (conn w) with
            | Some t => with_conn (set_listener (Some t)) w
            | None => w
            end in
  configure_binding fuel w1.

(** The fields as [PropertyConnection.__init__] leaves them before it
    looks at the target: no binding, no listener, the flag clear, the
    two references holding the objects that were passed. *)
Definition new_connection (source : option nat) (source_property : option string)
    (target : option nat) (target_property : option string) : connection :=
  {| _closed := false;
     source_property := if truthy source_property then source_property else None;
     target_property := if truthy target_property then target_property else None;
     binding := None;
     target_property_changed_listener := None;
     source_reference := {| item_specifier := source; item := source |};
     target_reference := {| item_specifier := target; item := target |};
     suppress := false |}.

(** [PropertyConnection.__init__]. *)
Definition init (fuel : nat) (h : gmap nat (gmap string value)) (reg : gset nat)
    (source : option nat) (source_property : option string)
    (target : option nat) (target_property : option string) : result world :=
  let c := new_connection source source_property target target_property in
  let w := {| heap := h; registered := reg; conn := c; set_log := [] |} in
  match _target c with
  | Some _ => configure_target fuel w
  | None => Ok w
  end.

(** [PropertyConnection.close]: the binding and the target listener are
    closed, then [super().close()] runs.

    Modelled from the spec: the base-class close of Persistence.py (not
    part of the sources) marks the object closed; from then on its item
    references deliver no callback. *)
Definition close (w : world) : world :=
  with_conn (λ c, set_closed true (set_listener None (set_binding None c))) w.

(** *** Registration events *)

(** The context registers [u]: the source reference is notified first
    ([on_item_registered] is [configure_binding]), then the target
    reference ([on_item_registered] is [configure_target]). *)
Definition register (fuel : nat) (u : nat) (w : world) : result world :=
  let w0 := with_registered (λ g, {[u]} ∪ g) w in
  if _closed (conn w0) then Ok w0
  else
    w1 ← (if resolves u (source_reference (conn w0))
          then configure_binding fuel
                 (with_conn (λ c, set_source_reference
                                    (set_item (Some u) (source_reference c)) c) w0)
          else Ok w0);
    if resolves u (target_reference (conn w1))
    then configure_target fuel
           (with_conn (λ c, set_target_reference
                              (set_item (Some u) (target_reference c)) c) w1)
    else Ok w1.

(** The context unregisters [u]: [on_item_unregistered] is
    [release_binding] on both references. *)
Definition unregister (u : nat) (w : world) : world :=
  let w0 := with_registered (λ g, g ∖ {[u]}) w in
  if _closed (conn w0) then w0
  else
    let w1 := if unresolves u (source_reference (conn w0))
              then release_binding
                     (with_conn (λ c, set_source_reference
                                        (set_item None (source_reference c)) c) w0)
              else w0 in
    if unresolves u (target_reference (conn w1))
    then release_binding
           (with_conn (λ c, set_target_reference
                              (set_item None (target_reference c)) c) w1)
    else w1.

(** What a specifier resolves to in the current context. *)
Definition resolve (w : world) (s : option nat) : option nat :=
  match s with
  | Some u => if decide (u ∈ registered w) then Some u else None
  | None => None
  end.

(** [__source_specifier_changed]: the reference takes the new specifier
    and re-evaluates its resolution. *)
Definition source_specifier_changed (fuel : nat) (s : option nat) (w : world)
  : result world :=
  assert (negb (_closed (conn w))) ;;
  let old := _source (conn w) in
  let new := resolve w s in
  let w0 := with_conn (set_source_reference {| item_specifier := s; item := old |}) w in
  if decide (old = new) then Ok w0
  else
    let w1 := match old with
              | Some _ => release_binding
                            (with_conn (set_source_reference {| item_specifier := s; item := None |}) w0)
              | None => w0
              end in
    match new with
    | Some _ => configure_binding fuel
                  (with_conn (set_source_reference {| item_specifier := s; item := new |}) w1)
    | None => Ok w1
    end.

(** [__target_specifier_changed]. *)
Definition target_specifier_changed (fuel : nat) (s : option nat) (w : world)
  : result world :=
  assert (negb (_closed (conn w))) ;;
  let old := _target (conn w) in
  let new := resolve w s in
  let w0 := with_conn (set_target_reference {| item_specifier := s; item := old |}) w in
  if decide (old = new) then Ok w0
  else
    let w1 := match old with
              | Some _ => release_binding
                            (with_conn (set_target_reference {| item_specifier := s; item := None |}) w0)
              | None => w0
              end in
    match new with
    | Some _ => configure_target fuel
                  (with_conn (set_target_reference {| item_specifier := s; item := new |}) w1)
    | None => Ok w1
    end.

(** What can happen to a connection after its construction. *)
Inductive event : Type :=
  | Register (u : nat)
  | Unregister (u : nat)
  | SetSourceSpecifier (s : option nat)
  | SetTargetSpecifier (s : option nat)
  | SetSourceProperty (p : option string)
  | SetTargetProperty (p : option string)
  | SetAttr (o : nat) (name : string) (v : value)
  | Close.

Definition step (fuel : nat) (e : event) (w : world) : result world :=
  match e with
  | Register u => register fuel u w
  | Unregister u => Ok (unregister u w)
  | SetSourceSpecifier s => source_specifier_changed fuel s w
  | SetTargetSpecifier s => target_specifier_changed fuel s w
  | SetSourceProperty p =>
      assert (negb (_closed (conn w))) ;; Ok (with_conn (set_source_property p) w)
  | SetTargetProperty p =>
      assert (negb (_closed (conn w))) ;; Ok (with_conn (set_target_property p) w)
  | SetAttr o name v => setattr fuel w o name v
  | Close => Ok (close w)
  end.

Fixpoint run (fuel : nat) (es : list event) (w : world) : result world :=
  match es with
  | [] => Ok w
  | e :: es' => w' ← step fuel e w; run fuel es' w'
  end.

(** [declared w o p]: object [o] exists and declares property [p]. *)
Definition declared (w : world) (o : nat) (p : string) : Prop :=
  ∃ ps v, heap w !! o = Some ps ∧ ps !! p = Some v.

(** [frame w w']: the connection and the registry are the same in both
    worlds and no property declaration was lost. *)
Definition frame (w w' : world) : Prop :=
  conn w' = conn w ∧ registered w' = registered w ∧
  ∀ o p, declared w o p → declared w' o p.

(** [propagation_ready w]: what the two propagation methods need in
    order not to fault: an open connection and declared endpoints. *)
Definition propagation_ready (w : world) : Prop :=
  _closed (conn w) = false ∧
  ∀ b, binding (conn w) = Some b →
    declared w (b_source b) (b_property b) ∧
    ∃ t tp, _target (conn w) = Some t ∧ target_property (conn w) = Some tp ∧
            declared w t tp.

(** *** The invariant of the binding *)

(** What holds of a connection outside of a propagation, except possibly
    that the binding is yet to be configured. *)
Record pre_inv (c : connection) : Prop := {
  inv_suppress : suppress c = false;
  inv_binding : ∀ b, binding c = Some b →
    _source c = Some (b_source b) ∧ is_Some (_target c);
  inv_listener : ∀ t, target_property_changed_listener c = Some t →
    _target c = Some t;
  inv_closed : _closed c = true →
    binding c = None ∧ target_property_changed_listener c = None
}.

(** The invariant: moreover an open connection whose endpoints both
    resolve has its binding. *)
Record inv (c : connection) : Prop := {
  inv_pre : pre_inv c;
  inv_established : _closed c = false →
    is_Some (_source c) → is_Some (_target c) → is_Some (binding c)
}.

(** *** Example worlds *)

(** Two objects, [0] declaring property [a] and [1] declaring [b]. *)
Definition example_heap : gmap nat (gmap string value) :=
  {[ 0 := {[ "a" := VInt 1 ]}; 1 := {[ "b" := VInt 2 ]} ]}.

(** The world after [PropertyConnection(0, "a", 1, "b")]: the binding is
    configured and the value of [a] has been copied to [b]. *)
Definition bound_world : world :=
  {| heap := {[ 0 := {[ "a" := VInt 1 ]}; 1 := {[ "b" := VInt 1 ]} ]};
     registered := ∅;
     conn := {| _closed := false;
                source_property := Some "a";
                target_property := Some "b";
                binding := Some {| b_source := 0; b_property := "a" |};
                target_property_changed_listener := Some 1;
                source_reference := {| item_specifier := Some 0; item := Some 0 |};
                target_reference := {| item_specifier := Some 1; item := Some 1 |};
                suppress := false |};
     set_log := [(1, "b", VInt 1)] |}.

(** The world after [PropertyConnection(0, "a", None, "b")] followed by
    the assignment of the target specifier [1], which the context does
    not know yet. *)
Definition dormant_world : world :=
  {| heap := example_heap;
     registered := ∅;
     conn := {| _closed := false;
                source_property := Some "a";
                target_property := Some "b";
                binding := None;
                target_property_changed_listener := None;
                source_reference := {| item_specifier := Some 0; item := Some 0 |};
                target_reference := {| item_specifier := Some 1; item := None |};
                suppress := false |};
     set_log := [] |}.

End PropertyConnection.

(** ** IntervalListConnection *)

Module IntervalListConnection.

(** A graphic of a display item. Only interval graphics carry an
    interval: a pair of numbers, which the connection copies and
    compares and never computes with. *)
Inductive graphic : Type :=
  | IntervalGraphic (interval : Z * Z)
  | OtherGraphic.

(** One entry of [interval_descriptors]: the dictionary with the keys
    [interval] and [color]. *)
Record interval_descriptor : Type := {
  d_interval : Z * Z;
  d_color : string
}.

#[global] Instance interval_descriptor_eq_dec : EqDecision interval_descriptor.
Proof. solve_decision. Defined.

(** The event a listener of the connection is attached to. *)
Inductive listener : Type :=
  | ItemInserted (display_item : nat)
  | ItemRemoved (display_item : nat)
  | PropertyChanged (region : nat).

#[global] Instance listener_eq_dec : EqDecision listener.
Proof. solve_decision. Defined.

(** The fields of an IntervalListConnection; listeners are held by
    their handle. *)
Record connection : Type := {
  _closed : bool;
  item_inserted_event_listener : option nat;
  item_removed_event_listener : option nat;
  interval_mutated_listeners : list nat;
  source_reference : ItemReference;
  target_reference : ItemReference
}.

Definition _source (c : connection) : option nat := item (source_reference c).
Definition _target (c : connection) : option nat := item (target_reference c).

(** The world: the graphics of every display item, the graphic objects,
    the [interval_descriptors] property of every line profile, the log of
    the assignments made to that property (each one emits a change
    notification), and the listeners that are open, oldest first. *)
Record world : Type := {
  graphics : gmap nat (list nat);
  graphic_objects : gmap nat graphic;
  interval_descriptors : gmap nat (list interval_descriptor);
  assigned : list (nat * list interval_descriptor);
  listeners : list (nat * listener);
  next_handle : nat;
  conn : connection
}.

Definition with_conn (f : connection → connection) (w : world) : world :=
  {| graphics := graphics w; graphic_objects := graphic_objects w;
     interval_descriptors := interval_descriptors w; assigned := assigned w;
     listeners := listeners w; next_handle := next_handle w;
     conn := f (conn w) |}.

Definition set_closed (b : bool) (c : connection) : connection :=
  {| _closed := b;
     item_inserted_event_listener := item_inserted_event_listener c;
     item_removed_event_listener := item_removed_event_listener c;
     interval_mutated_listeners := interval_mutated_listeners c;
     source_reference := source_reference c;
     target_reference := target_reference c |}.

Definition set_item_listeners (i r : option nat) (c : connection) : connection :=
  {| _closed := _closed c;
     item_inserted_event_listener := i;
     item_removed_event_listener := r;
     interval_mutated_listeners := interval_mutated_listeners c;
     source_reference := source_reference c;
     target_reference := target_reference c |}.

Definition set_interval_mutated_listeners (l : list nat) (c : connection) : connection :=
  {| _closed := _closed c;
     item_inserted_event_listener := item_inserted_event_listener c;
     item_removed_event_listener := item_removed_event_listener c;
     interval_mutated_listeners := l;
     source_reference := source_reference c;
     target_reference := target_reference c |}.

Definition set_source_reference (r : ItemReference) (c : connection) : connection :=
  {| _closed := _closed c;
     item_inserted_event_listener := item_inserted_event_listener c;
     item_removed_event_listener := item_removed_event_listener c;
     interval_mutated_listeners := interval_mutated_listeners c;
     source_reference := r;
     target_reference := target_reference c |}.

Definition set_target_reference (r : ItemReference) (c : connection) : connection :=
  {| _closed := _closed c;
     item_inserted_event_listener := item_inserted_event_listener c;
     item_removed_event_listener := item_removed_event_listener c;
     interval_mutated_listeners := interval_mutated_listeners c;
     source_reference := source_reference c;
     target_reference := r |}.

(** *** Listeners *)

(** [event.listen(callback)]: a new open listener; its handle is
    returned. *)
Definition listen (l : listener) (w : world) : nat * world :=
  (next_handle w,
   {| graphics := graphics w; graphic_objects := graphic_objects w;
      interval_descriptors := interval_descriptors w; assigned := assigned w;
      listeners := listeners w ++ [(next_handle w, l)];
      next_handle := S (next_handle w); conn := conn w |}).

(** [listener.close()]. *)
Definition close_listener (h : nat) (w : world) : world :=
  {| graphics := graphics w; graphic_objects := graphic_objects w;
     interval_descriptors := interval_descriptors w; assigned := assigned w;
     listeners := filter (λ hl, hl.1 ≠ h) (listeners w);
     next_handle := next_handle w; conn := conn w |}.

Definition is_open (h : nat) (w : world) : bool :=
  bool_decide (h ∈ (listeners w).*1).

(** *** The closures of [__init__] *)

(** [detach]. *)
Definition detach (w : world) : world :=
  with_conn (set_interval_mutated_listeners [])
    (foldl (λ w' h, close_listener h w') w (interval_mutated_listeners (conn w))).

(** The loop of [reattach] over the graphics of the source: every
    interval graphic contributes a descriptor and gets a listener. *)
Fixpoint attach_regions (regions : list nat) (ds : list interval_descriptor)
    (w : world) : result (list interval_descriptor * world) :=
  match regions with
  | [] => Ok (ds, w)
  | region :: regions' =>
      match graphic_objects w !! region with
      | None => Raise AttributeError
      | Some (IntervalGraphic iv) =>
          let '(h, w1) := listen (PropertyChanged region) w in
          let w2 := with_conn (λ c, set_interval_mutated_listeners
                                      (interval_mutated_listeners c ++ [h]) c) w1 in
          attach_regions regions' (ds ++ [{| d_interval := iv; d_color := "#F00" |}]) w2
      | Some OtherGraphic => attach_regions regions' ds w
      end
  end.

(** The assignment [self._target.interval_descriptors = ...]. *)
Definition assign (t : nat) (ds : list interval_descriptor) (w : world) : world :=
  {| graphics := graphics w; graphic_objects := graphic_objects w;
     interval_descriptors := <[t := ds]> (interval_descriptors w);
     assigned := assigned w ++ [(t, ds)];
     listeners := listeners w; next_handle := next_handle w; conn := conn w |}.

(** [reattach]. *)
Definition reattach (w : world) : result world :=
  let w1 := detach w in
  '(ds, w2) ← match _source (conn w1) with
              | Some d =>
                  match graphics w1 !! d with
                  | Some regions => attach_regions regions [] w1
                  | None => Raise AttributeError
                  end
              | None => Ok ([], w1)
              end;
  match _target (conn w2) with
  | Some t =>
      match interval_descriptors w2 !! t with
      | Some current =>
          if decide (current ≠ ds) then Ok (assign t ds w2) else Ok w2
      | None => Raise AttributeError
      end
  | None => Ok w2
  end.

(** [item_inserted(key, value, before_index)]; the value and the index
    are not looked at. *)
Definition item_inserted (key : string) (w : world) : result world :=
  if bool_decide (key = "graphics") && bool_decide (is_Some (_target (conn w)))
  then reattach w else Ok w.

(** [item_removed(key, value, index)]. *)
Definition item_removed (key : string) (w : world) : result world :=
  if bool_decide (key = "graphics") && bool_decide (is_Some (_target (conn w)))
  then reattach w else Ok w.

(** [source_registered]. *)
Definition source_registered (w : world) : result world :=
  let w1 := match _source (conn w) with
            | Some d =>
                let '(hi, wi) := listen (ItemInserted d) w in
                let '(hr, wr) := listen (ItemRemoved d) wi in
                with_conn (set_item_listeners (Some hi) (Some hr)) wr
            | None => w
            end in
  reattach w1.

(** [target_registered]. *)
Definition target_registered (w : world) : result world := reattach w.

(** [unregistered]: the two listeners on the source are closed; the
    listeners on the interval graphics are not touched. *)
Definition unregistered (w : world) : world :=
  let w1 := match item_inserted_event_listener (conn w) with
            | Some h => close_listener h w
            | None => w
            end in
  let w2 := match item_removed_event_listener (conn w1) with
            | Some h => close_listener h w1
            | None => w1
            end in
  with_conn (set_item_listeners None None) w2.

(** The fields as [IntervalListConnection.__init__] first sets them. *)
Definition new_connection (display_item line_profile : option nat) : connection :=
  {| _closed := false;
     item_inserted_event_listener := None;
     item_removed_event_listener := None;
     interval_mutated_listeners := [];
     source_reference := {| item_specifier := display_item; item := display_item |};
     target_reference := {| item_specifier := line_profile; item := line_profile |} |}.

(** [IntervalListConnection.__init__], in a world without listeners. *)
Definition init (gs : gmap nat (list nat)) (objs : gmap nat graphic)
    (descs : gmap nat (list interval_descriptor))
    (display_item line_profile : option nat) : result world :=
  let w := {| graphics := gs; graphic_objects := objs;
              interval_descriptors := descs; assigned := [];
              listeners := []; next_handle := 0;
              conn := new_connection display_item line_profile |} in
  w1 ← match display_item with
       | Some _ => source_registered w
       | None => Ok w
       end;
  match line_profile with
  | Some _ => target_registered w1
  | None => Ok w1
  end.

(** IntervalListConnection defines no [close] of its own: a call runs
    the base-class method alone.

    Modelled from the spec: the base-class close of Persistence.py (not
    part of the sources) marks the object closed; from then on its item
    references deliver no callback. *)
Definition close (w : world) : world := with_conn (set_closed true) w.

(** *** Events *)

(** An event fires: the listeners attached to it at that moment are
    called in turn, oldest first; one that was closed in the meantime is
    passed over. *)
Fixpoint fire (handles : list nat) (callback : world → result world)
    (w : world) : result world :=
  match handles with
  | [] => Ok w
  | h :: handles' =>
      w1 ← (if is_open h w then callback w else Ok w);
      fire handles' callback w1
  end.

Definition attached (l : listener) (w : world) : list nat :=
  (filter (λ hl, hl.2 = l) (listeners w)).*1.

Definition with_graphics (f : gmap nat (list nat) → gmap nat (list nat)) (w : world) : world :=
  {| graphics := f (graphics w); graphic_objects := graphic_objects w;
     interval_descriptors := interval_descriptors w; assigned := assigned w;
     listeners := listeners w; next_handle := next_handle w; conn := conn w |}.

Definition with_graphic_objects (f : gmap nat graphic → gmap nat graphic) (w : world) : world :=
  {| graphics := graphics w; graphic_objects := f (graphic_objects w);
     interval_descriptors := interval_descriptors w; assigned := assigned w;
     listeners := listeners w; next_handle := next_handle w; conn := conn w |}.

(** Python [list.insert(index, x)]: an index past the end appends. *)
Definition list_insert_at {A} (i : nat) (x : A) (l : list A) : list A :=
  take i l ++ x :: drop i l.

(** Python [list.remove(x)]: the first occurrence goes. *)
Fixpoint list_remove_first (x : nat) (l : list nat) : list nat :=
  match l with
  | [] => []
  | y :: l' => if decide (y = x) then l' else y :: list_remove_first x l'
  end.

(** Modelled from the spec: a display item gains a graphic; the
    item-inserted event fires once, after the graphic is in place
    (DisplayItem.py is not part of the sources). *)
Definition insert_graphic (d index region : nat) (w : world) : result world :=
  match graphics w !! d with
  | Some regions =>
      let w1 := with_graphics <[d := list_insert_at index region regions]> w in
      fire (attached (ItemInserted d) w1) (item_inserted "graphics") w1
  | None => Raise AttributeError
  end.

(** Modelled from the spec: a display item loses a graphic; the
    item-removed event fires once, after the removal. *)
Definition remove_graphic (d region : nat) (w : world) : result world :=
  match graphics w !! d with
  | Some regions =>
      if decide (region ∈ regions) then
        let w1 := with_graphics <[d := list_remove_first region regions]> w in
        fire (attached (ItemRemoved d) w1) (item_removed "graphics") w1
      else Raise ValueError
  | None => Raise AttributeError
  end.

(** Modelled from the spec: the interval of an interval graphic is set;
    its property-changed event fires once. The listener installed by
    [reattach] is [lambda k: reattach()]. *)
Definition set_interval (region : nat) (iv : Z * Z) (w : world) : result world :=
  match graphic_objects w !! region with
  | Some (IntervalGraphic _) =>
      let w1 := with_graphic_objects <[region := IntervalGraphic iv]> w in
      fire (attached (PropertyChanged region) w1) reattach w1
  | _ => Raise AttributeError
  end.

(** The context registers [u]. *)
Definition register (u : nat) (w : world) : result world :=
  if _closed (conn w) then Ok w
  else
    w1 ← (if resolves u (source_reference (conn w))
          then source_registered
                 (with_conn (λ c, set_source_reference
                                    (set_item (Some u) (source_reference c)) c) w)
          else Ok w);
    if resolves u (target_reference (conn w1))
    then target_registered
           (with_conn (λ c, set_target_reference
                              (set_item (Some u) (target_reference c)) c) w1)
    else Ok w1.

(** The context unregisters [u]. *)
Definition unregister (u : nat) (w : world) : world :=
  if _closed (conn w) then w
  else
    let w1 := if unresolves u (source_reference (conn w))
              then unregistered
                     (with_conn (λ c, set_source_reference
                                        (set_item None (source_reference c)) c) w)
              else w in
    if unresolves u (target_reference (conn w1))
    then unregistered
           (with_conn (λ c, set_target_reference
                              (set_item None (target_reference c)) c) w1)
    else w1.

(** *** The projection that [reattach] computes *)

Definition descriptor_of (objs : gmap nat graphic) (region : nat)
  : option interval_descriptor :=
  match objs !! region with
  | Some (IntervalGraphic iv) => Some {| d_interval := iv; d_color := "#F00" |}
  | _ => None
  end.

(** One descriptor per interval graphic of the source, in display
    order. *)
Definition projected (w : world) : list interval_descriptor :=
  match _source (conn w) with
  | Some d =>
      match graphics w !! d with
      | Some regions => omap (descriptor_of (graphic_objects w)) regions
      | None => []
      end
  | None => []
  end.

(** Every graphic of the source exists. *)
Definition source_graphics_exist (w : world) : Prop :=
  ∀ d, _source (conn w) = Some d →
    ∃ regions, graphics w !! d = Some regions ∧
               ∀ r, r ∈ regions → is_Some (graphic_objects w !! r).

(** [same_data w w']: between the two worlds only listeners came and
    went. *)
Definition same_data (w w' : world) : Prop :=
  graphics w' = graphics w ∧ graphic_objects w' = graphic_objects w ∧
  interval_descriptors w' = interval_descriptors w ∧ assigned w' = assigned w ∧
  source_reference (conn w') = source_reference (conn w) ∧
  target_reference (conn w') = target_reference (conn w) ∧
  _closed (conn w') = _closed (conn w).

(** [assigned_change w w']: between the two worlds one assignment was
    made to the descriptors of a line profile, and the value assigned
    differs from the one it replaced. *)
Definition assigned_change (w w' : world) : Prop :=
  ∃ t current ds,
    interval_descriptors w !! t = Some current ∧ current ≠ ds ∧
    interval_descriptors w' = <[t := ds]> (interval_descriptors w) ∧
    assigned w' = assigned w ++ [(t, ds)].

(** [unassigned w w']: no assignment was made. *)
Definition unassigned (w w' : world) : Prop :=
  interval_descriptors w' = interval_descriptors w ∧ assigned w' = assigned w.

(** One recomputation at most assigns once, and then a different
    value. *)
Definition recomputation (w w' : world) : Prop :=
  unassigned w w' ∨ assigned_change w w'.

(** What can happen to the source display and to the connection. *)
Inductive event : Type :=
  | InsertGraphic (d index region : nat)
  | RemoveGraphic (d region : nat)
  | SetInterval (region : nat) (iv : Z * Z)
  | Register (u : nat)
  | Unregister (u : nat)
  | Close.

Definition step (e : event) (w : world) : result world :=
  match e with
  | InsertGraphic d index region => insert_graphic d index region w
  | RemoveGraphic d region => remove_graphic d region w
  | SetInterval region iv => set_interval region iv w
  | Register u => register u w
  | Unregister u => Ok (unregister u w)
  | Close => Ok (close w)
  end.

(** *** Example world *)

(** Display item [0] with the interval graphic [10] and another graphic
    [11]; line profile [1] with no descriptors yet. *)
Definition example_graphics : gmap nat (list nat) := {[ 0 := [10; 11] ]}.
Definition example_objects : gmap nat graphic :=
  {[ 10 := IntervalGraphic (1, 2)%Z; 11 := OtherGraphic; 12 := IntervalGraphic (5, 6)%Z ]}.
Definition example_descriptors : gmap nat (list interval_descriptor) := {[ 1 := [] ]}.

(** The world after [IntervalListConnection(0, 1)] in the example: the
    descriptor of graphic [10] was assigned once; the listener on the
    graphic is the one of the second [reattach]. *)
Definition attached_world : world :=
  {| graphics := example_graphics;
     graphic_objects := example_objects;
     interval_descriptors := {[ 1 := [ {| d_interval := (1, 2)%Z; d_color := "#F00" |} ] ]};
     assigned := [ (1, [ {| d_interval := (1, 2)%Z; d_color := "#F00" |} ]) ];
     listeners := [ (0, ItemInserted 0); (1, ItemRemoved 0); (3, PropertyChanged 10) ];
     next_handle := 4;
     conn := {| _closed := false;
                item_inserted_event_listener := Some 0;
                item_removed_event_listener := Some 1;
                interval_mutated_listeners := [3];
                source_reference := {| item_specifier := Some 0; item := Some 0 |};
                target_reference := {| item_specifier := Some 1; item := Some 1 |} |} |}.

End IntervalListConnection.

(** ** The listeners an IntervalListConnection holds *)

Module IntervalListeners.
Import IntervalListConnection.

(** The open listeners on graphics, oldest first: the handle and the
    graphic listened to. *)
Definition tracked (w : world) : list (nat * nat) :=
  omap (λ hl, match hl.2 with
              | PropertyChanged region => Some (hl.1, region)
              | _ => None
              end) (listeners w).

(** The interval graphics of the source, in display order. *)
Definition interval_regions (w : world) : list nat :=
  match _source (conn w) with
  | Some d =>
      match graphics w !! d with
      | Some regions =>
          filter (λ r, is_Some (descriptor_of (graphic_objects w) r)) regions
      | None => []
      end
  | None => []
  end.

(** Every open listener on a graphic is one the connection holds in
    [__interval_mutated_listeners]. *)
Definition held (w : world) : Prop :=
  Forall (λ hr, hr.1 ∈ interval_mutated_listeners (conn w)) (tracked w).

Fixpoint run (es : list event) (w : world) : result world :=
  match es with
  | [] => Ok w
  | e :: es' => w' ← step e w; run es' w'
  end.

(** The events of a display: a graphic comes, goes, or has its interval
    changed. *)
Definition graphics_event (e : event) : bool :=
  match e with
  | InsertGraphic _ _ _ | RemoveGraphic _ _ | SetInterval _ _ => true
  | _ => false
  end.

(** The target holds the projection of the source. *)
Definition mirrored (w : world) : Prop :=
  ∀ t, _target (conn w) = Some t →
       interval_descriptors w !! t = Some (projected w).

(** Every interval graphic of the source has an open listener. *)
Definition covered (w : world) : Prop :=
  ∀ r, r ∈ interval_regions w → ∃ h, (h, PropertyChanged r) ∈ listeners w.

(** The connection between display [d] and line profile [t] listens to
    the insertions and removals of [d], with listeners that [detach]
    does not close; handles are handed out in increasing order. *)
Definition anchored (d t : nat) (w : world) : Prop :=
  _source (conn w) = Some d ∧ _target (conn w) = Some t ∧
  (∃ h, (h, ItemInserted d) ∈ listeners w ∧
        h ∉ interval_mutated_listeners (conn w)) ∧
  (∃ h, (h, ItemRemoved d) ∈ listeners w ∧
        h ∉ interval_mutated_listeners (conn w)) ∧
  ∀ x, x ∈ listeners w → x.1 < next_handle w.

End IntervalListeners.

(** ** Connection: identity, clone and the factory *)

Module Connection.

(** A persistent object as far as its identity and its fields go: the
    current [uuid], how many times the attribute has been assigned, the
    persistent properties, the items of its array fields, each known by
    its handle, and whether the object was closed. *)
Record persistent_object : Type := {
  uuid : nat;
  uuid_assigned : nat;
  properties : gmap string value;
  arrays : gmap string (list nat);
  closed : bool
}.

(** Modelled from the spec: creation of a persistent object assigns its
    uuid (section 3: "assigned at creation"); Persistence.py is not part
    of the sources. The identifier is drawn by the caller. *)
Definition create (fresh : nat) (ps : gmap string value) : persistent_object :=
  {| uuid := fresh; uuid_assigned := 1; properties := ps;
     arrays := ∅; closed := false |}.

(** The assignment [o.uuid = u]. *)
Definition set_uuid (u : nat) (o : persistent_object) : persistent_object :=
  {| uuid := u; uuid_assigned := S (uuid_assigned o);
     properties := properties o; arrays := arrays o; closed := closed o |}.

(** Modelled from the spec: [set_field(name, value)] of section 4.3, the
    assignment of a persistent property. *)
Definition set_property (name : string) (v : value) (o : persistent_object)
  : persistent_object :=
  {| uuid := uuid o; uuid_assigned := uuid_assigned o;
     properties := <[name := v]> (properties o);
     arrays := arrays o; closed := closed o |}.

(** Modelled from the spec: [insert_item(key, index, value)] of section
    4.3; the index is clamped as [list.insert] does. *)
Definition insert_item (key : string) (index item : nat) (o : persistent_object)
  : persistent_object :=
  {| uuid := uuid o; uuid_assigned := uuid_assigned o;
     properties := properties o;
     arrays := <[key := IntervalListConnection.list_insert_at index item
                          (default [] (arrays o !! key))]> (arrays o);
     closed := closed o |}.

(** Modelled from the spec: [remove_item(key, value)] of section 4.3;
    an item that is not there cannot be removed. *)
Definition remove_item (key : string) (item : nat) (o : persistent_object)
  : result persistent_object :=
  let l := default [] (arrays o !! key) in
  if decide (item ∈ l)
  then Ok {| uuid := uuid o; uuid_assigned := uuid_assigned o;
             properties := properties o;
             arrays := <[key := IntervalListConnection.list_remove_first item l]>
                         (arrays o);
             closed := closed o |}
  else Raise ValueError.

(** Modelled from the spec: [close()] of section 4.3 takes the object to
    its terminal state. *)
Definition close (o : persistent_object) : persistent_object :=
  {| uuid := uuid o; uuid_assigned := uuid_assigned o;
     properties := properties o; arrays := arrays o; closed := true |}.

(** Modelled from the spec: the serialized record of section 5 as far as
    identity goes, the key [uuid], which a record may lack, and the
    scalar fields. *)
Record record : Type := {
  record_uuid : option nat;
  record_properties : gmap string value
}.

(** Modelled from the spec: [write_to_dict()] of section 4.3. *)
Definition write_to_dict (o : persistent_object) : record :=
  {| record_uuid := Some (uuid o); record_properties := properties o |}.

(** Modelled from the spec: [read_from_dict(d)] / [build(context, d)] of
    section 4.3 reconstructs an instance, whose uuid is the one of the
    record (section 8); the uuid of the instance is assigned at its
    creation (section 3). A record without uuid is a read failure
    (section 7). *)
Definition build (d : record) : result persistent_object :=
  match record_uuid d with
  | Some u => Ok (create u (record_properties d))
  | None => Raise ValueError
  end.

(** [copy.deepcopy(self)]. Persistence.py is not part of the sources and
    the spec has no words on copying, so the uuid of the copy is left
    open: it is the parameter [copy_uuid], which may or may not be the
    uuid of [o]. Modelled from the spec is only that the copy is a
    persistent object, whose uuid was therefore assigned when it was
    created (section 3). The fields are those of [o]. *)
Definition deepcopy (copy_uuid : nat) (o : persistent_object) : persistent_object :=
  {| uuid := copy_uuid; uuid_assigned := 1; properties := properties o;
     arrays := arrays o; closed := closed o |}.

(** [Connection.clone]. *)
Definition clone (copy_uuid : nat) (self : persistent_object) : persistent_object :=
  let connection := deepcopy copy_uuid self in
  set_uuid (uuid self) connection.


(** The operations of the public interface of section 4.3, and
    [Connection.clone]. The live objects are a list, an object is known
    by its position [h] in it: two live objects may carry the same
    uuid. *)
Inductive operation : Type :=
  | SetField (h : nat) (name : string) (v : value)
  | InsertItem (h : nat) (key : string) (index item : nat)
  | RemoveItem (h : nat) (key : string) (item : nat)
  | WriteToDict (h : nat)
  | Build (d : record)
  | Close (h : nat)
  | Clone (h : nat) (copy_uuid : nat).

Definition object (h : nat) (s : list persistent_object) : result persistent_object :=
  match s !! h with
  | Some o => Ok o
  | None => Raise AttributeError
  end.

(** Modelled from the spec: a field of a closed object is not mutated,
    the attempt is an assertion-style fault (sections 4.3 and 7).
    [write_to_dict] answers with a record and changes no object; [build]
    and [clone] add the object they return to the live ones. *)
Definition apply (op : operation) (s : list persistent_object)
  : result (list persistent_object) :=
  match op with
  | SetField h name v =>
      o ← object h s;
      assert (negb (closed o)) ;;
      Ok (<[h := set_property name v o]> s)
  | InsertItem h key index item =>
      o ← object h s;
      assert (negb (closed o)) ;;
      Ok (<[h := insert_item key index item o]> s)
  | RemoveItem h key item =>
      o ← object h s;
      assert (negb (closed o)) ;;
      o' ← remove_item key item o;
      Ok (<[h := o']> s)
  | WriteToDict h =>
      o ← object h s;
      let _ := write_to_dict o in
      Ok s
  | Build d =>
      o ← build d;
      Ok (s ++ [o])
  | Close h =>
      o ← object h s;
      Ok (<[h := close o]> s)
  | Clone h copy_uuid =>
      o ← object h s;
      Ok (s ++ [clone copy_uuid o])
  end.

Fixpoint run (ops : list operation) (s : list persistent_object)
  : result (list persistent_object) :=
  match ops with
  | [] => Ok s
  | op :: ops' => s' ← apply op s; run ops' s'
  end.






(** What the factory builds: an object of one of the two classes. *)
Inductive connection_object : Type :=
  | PropertyConnectionObject (c : PropertyConnection.connection)
  | IntervalListConnectionObject (c : IntervalListConnection.connection).

(** The dictionary [build_map] of [connection_factory]: the classes are
    called without arguments. *)
Definition build_map : gmap string (unit → connection_object) :=
  {[ "property-connection" :=
       (λ _, PropertyConnectionObject
               (PropertyConnection.new_connection None None None None));
     "interval-list-connection" :=
       (λ _, IntervalListConnectionObject
               (IntervalListConnection.new_connection None None)) ]}.

(** [connection_factory]. *)
Definition connection_factory (lookup_id : string → string) : option connection_object :=
  let type := lookup_id "type" in
  match build_map !! type with
  | Some build => Some (build tt)
  | None => None
  end.

End Connection.

(** ** Schema: entities, containers and events *)

(** Schema.py is not part of the sources; its test, Schema_test.py, is.
    The definitions of this module are modelled from the spec and from
    the calls the test makes. An entity is known by its uuid. *)
Module Schema.

(** What a field holds an item as: owned, or referred to. *)
Inductive item_kind : Type :=
  | component
  | reference.

#[global] Instance item_kind_eq_dec : EqDecision item_kind.
Proof. solve_decision. Defined.

(** Modelled from the spec: the kinds of field, [Schema.prop],
    [Schema.reference], [Schema.component] and [Schema.array] of either
    (section 3, FieldSpec). *)
Inductive field_type : Type :=
  | prop
  | item (k : item_kind)
  | array (element : item_kind).

(** The value of a field: a scalar, an item or nothing, or a list of
    items. Items are held by their uuid. *)
Inductive field_value : Type :=
  | scalar (v : value)
  | single (k : item_kind) (i : option nat)
  | items (k : item_kind) (l : list nat).

Definition initial_value (t : field_type) : field_value :=
  match t with
  | prop => scalar VNone
  | item k => single k None
  | array k => items k []
  end.

(** Modelled from the spec: a persistent object (section 3): the type
    name, the field values and the container, empty for an object no
    component field holds. *)
Record entity : Type := {
  entity_type : string;
  field_values : gmap string field_value;
  _container : option nat
}.

(** Modelled from the spec: the events of section 6. *)
Inductive event : Type :=
  | property_changed (o : nat) (name : string)
  | item_inserted (o : nat) (key : string) (value index : nat)
  | item_removed (o : nat) (key : string) (value index : nat).

(** Modelled from the spec: the entity context, with the events fired so
    far, oldest first. *)
Record context : Type := {
  entities : gmap nat entity;
  next_uuid : nat;
  events : list event
}.

(** [Schema.SimpleEntityContext()]. *)
Definition SimpleEntityContext : context :=
  {| entities := ∅; next_uuid := 0; events := [] |}.

Definition set_container (c : option nat) (e : entity) : entity :=
  {| entity_type := entity_type e; field_values := field_values e;
     _container := c |}.

Definition set_field (name : string) (fv : field_value) (e : entity) : entity :=
  {| entity_type := entity_type e;
     field_values := <[name := fv]> (field_values e);
     _container := _container e |}.

Definition update (o : nat) (f : entity → entity) (ctx : context) : context :=
  {| entities := alter f o (entities ctx); next_uuid := next_uuid ctx;
     events := events ctx |}.

Definition fire (ev : event) (ctx : context) : context :=
  {| entities := entities ctx; next_uuid := next_uuid ctx;
     events := events ctx ++ [ev] |}.

(** Modelled from the spec: [EntityType.create(context)] allocates an
    instance with a fresh uuid, every field at its initial value and no
    container (section 4.2). The uuid of the new entity is the
    [next_uuid] of the context it is created in. *)
Definition create (type_name : string) (fields : gmap string field_type)
    (ctx : context) : context :=
  {| entities := <[next_uuid ctx :=
                     {| entity_type := type_name;
                        field_values := initial_value <$> fields;
                        _container := None |}]> (entities ctx);
     next_uuid := S (next_uuid ctx);
     events := events ctx |}.

Definition field_of (ctx : context) (o : nat) (name : string) : result field_value :=
  match entities ctx !! o with
  | Some e =>
      match field_values e !! name with
      | Some fv => Ok fv
      | None => Raise SchemaError
      end
  | None => Raise AttributeError
  end.

(** An item that is given a container must be an entity of the
    context. Nothing is asked of the container it has: section 4.3
    describes no such check, and section 7 no fault for it. *)
Definition check_entity (ctx : context) (i : nat) : result unit :=
  match entities ctx !! i with
  | Some _ => Ok tt
  | None => Raise AttributeError
  end.

(** What [_set_field_value] is given. *)
Inductive argument : Type :=
  | scalar_arg (v : value)
  | item_arg (i : option nat).

(** Modelled from the spec: [_set_field_value(name, value)]
    (section 4.3): the value is stored and [property_changed(name)]
    fires. A component field releases the child it held and becomes the
    container of the new one; a reference field touches no container. *)
Definition _set_field_value (o : nat) (name : string) (a : argument)
    (ctx : context) : result context :=
  fv ← field_of ctx o name;
  match fv, a with
  | scalar _, scalar_arg v =>
      Ok (fire (property_changed o name) (update o (set_field name (scalar v)) ctx))
  | single reference _, item_arg i =>
      Ok (fire (property_changed o name)
               (update o (set_field name (single reference i)) ctx))
  | single component old, item_arg new =>
      match new with Some n => check_entity ctx n | None => Ok tt end ;;
      let ctx1 := match old with
                  | Some c => update c (set_container None) ctx
                  | None => ctx
                  end in
      let ctx2 := update o (set_field name (single component new)) ctx1 in
      let ctx3 := match new with
                  | Some n => update n (set_container (Some o)) ctx2
                  | None => ctx2
                  end in
      Ok (fire (property_changed o name) ctx3)
  | _, _ => Raise TypeError
  end.

(** Python [list.insert(index, x)]. *)
Definition list_insert_at {A} (i : nat) (x : A) (l : list A) : list A :=
  take i l ++ x :: drop i l.

(** Python [list.index(x)], when [x] occurs. *)
Fixpoint list_index (x : nat) (l : list nat) : option nat :=
  match l with
  | [] => None
  | y :: l' => if decide (y = x) then Some 0 else S <$> list_index x l'
  end.

(** Python [list.remove(x)]. *)
Fixpoint list_remove_first (x : nat) (l : list nat) : list nat :=
  match l with
  | [] => []
  | y :: l' => if decide (y = x) then l' else y :: list_remove_first x l'
  end.

(** Modelled from the spec: [_insert_item(key, index, value)]
    (section 4.3): the item is placed at the index, a component array
    becomes its container, and [item_inserted(key, value, index)] fires
    once, after the insertion. *)
Definition _insert_item (o : nat) (key : string) (index value : nat)
    (ctx : context) : result context :=
  fv ← field_of ctx o key;
  match fv with
  | items component l =>
      check_entity ctx value ;;
      let ctx1 := update o (set_field key (items component (list_insert_at index value l))) ctx in
      let ctx2 := update value (set_container (Some o)) ctx1 in
      Ok (fire (item_inserted o key value index) ctx2)
  | items reference l =>
      match entities ctx !! value with
      | Some _ =>
          let ctx1 := update o (set_field key (items reference (list_insert_at index value l))) ctx in
          Ok (fire (item_inserted o key value index) ctx1)
      | None => Raise AttributeError
      end
  | _ => Raise TypeError
  end.

(** Modelled from the spec: [_append_item(key, value)] inserts at the
    end. *)
Definition _append_item (o : nat) (key : string) (value : nat)
    (ctx : context) : result context :=
  fv ← field_of ctx o key;
  match fv with
  | items _ l => _insert_item o key (length l) value ctx
  | _ => Raise TypeError
  end.

(** Modelled from the spec: [_remove_item(key, value)] (section 4.3):
    the item leaves the array, a component loses its container, and
    [item_removed(key, value, index)] fires once, after the removal. *)
Definition _remove_item (o : nat) (key : string) (value : nat)
    (ctx : context) : result context :=
  fv ← field_of ctx o key;
  match fv with
  | items k l =>
      match list_index value l with
      | Some index =>
          let ctx1 := update o (set_field key (items k (list_remove_first value l))) ctx in
          let ctx2 := match k with
                      | component => update value (set_container None) ctx1
                      | reference => ctx1
                      end in
          Ok (fire (item_removed o key value index) ctx2)
      | None => Raise ValueError
      end
  | _ => Raise TypeError
  end.




(** The operations of the public interface. *)
Inductive operation : Type :=
  | Create (type_name : string) (fields : gmap string field_type)
  | SetFieldValue (o : nat) (name : string) (a : argument)
  | InsertItem (o : nat) (key : string) (index value : nat)
  | AppendItem (o : nat) (key : string) (value : nat)
  | RemoveItem (o : nat) (key : string) (value : nat).

Definition apply (op : operation) (ctx : context) : result context :=
  match op with
  | Create type_name fields => Ok (create type_name fields ctx)
  | SetFieldValue o name a => _set_field_value o name a ctx
  | InsertItem o key index value => _insert_item o key index value ctx
  | AppendItem o key value => _append_item o key value ctx
  | RemoveItem o key value => _remove_item o key value ctx
  end.

Fixpoint run (ops : list operation) (ctx : context) : result context :=
  match ops with
  | [] => Ok ctx
  | op :: ops' => ctx' ← apply op ctx; run ops' ctx'
  end.

(** *** Moves by removal *)




(** The counters of the test: how many item-inserted and item-removed
    events entity [o] has fired. *)
Definition is_inserted (o : nat) (ev : event) : bool :=
  match ev with item_inserted o' _ _ _ => bool_decide (o' = o) | _ => false end.

Definition is_removed (o : nat) (ev : event) : bool :=
  match ev with item_removed o' _ _ _ => bool_decide (o' = o) | _ => false end.

Definition inserted_count (ctx : context) (o : nat) : nat :=
  length (filter (λ ev, is_inserted o ev = true) (events ctx)).

Definition removed_count (ctx : context) (o : nat) : nat :=
  length (filter (λ ev, is_removed o ev = true) (events ctx)).

(** The value of field [name] of entity [p], when both exist. *)
Definition field_lookup (ctx : context) (p : nat) (name : string) : option field_value :=
  entities ctx !! p ≫= λ e, field_values e !! name.

(** [holds ctx p name c]: the component field [name] of [p] holds [c],
    as its value or as an element of its array. *)
Definition holds (ctx : context) (p : nat) (name : string) (c : nat) : Prop :=
  match field_lookup ctx p name with
  | Some (single component (Some c')) => c' = c
  | Some (items component l) => c ∈ l
  | _ => False
  end.




(** *** The entity types of the test *)

Definition ItemModel : gmap string field_type := {[ "flag" := prop ]}.

Definition ContainerModel : gmap string field_type :=
  {[ "c_items" := array component; "r_items" := array reference;
     "c_item" := item component; "r_item" := item reference ]}.

(** [test_inserting_and_removing_array_components_and_references_trigger_events]:
    the container is entity [0], the items are entities [1] to [4]. *)
Definition events_test_1 : list operation :=
  [ Create "c" ContainerModel;
    Create "item" ItemModel; AppendItem 0 "c_items" 1;
    Create "item" ItemModel; AppendItem 0 "c_items" 2 ].

Definition events_test_2 : list operation := [ RemoveItem 0 "c_items" 1 ].

Definition events_test_3 : list operation :=
  [ Create "item" ItemModel; AppendItem 0 "r_items" 3;
    Create "item" ItemModel; AppendItem 0 "r_items" 4 ].

Definition events_test_4 : list operation := [ RemoveItem 0 "r_items" 3 ].



End Schema.

(** ** Schema: records of entities *)

(** The serialized form sees the tree of components only, so entities
    are trees here: a component field holds its child, a reference holds
    the uuid of its target. The definitions are modelled from the spec,
    as Schema.py is not part of the sources. *)
Module SchemaRecords.
Import Schema.

#[local] Set Warnings "-register-all".

(** Modelled from the spec: an entity with its uuid, its modification
    time and the values of its declared fields, in the order of the
    declaration (section 3). A reference keeps the uuid it names and
    whether it is resolved at the moment. *)
Inductive entity : Type :=
  | Entity (type : string) (uuid modified : nat) (fields : list (string * field))
with field : Type :=
  | scalar_field (v : value)
  | reference_field (target : option nat) (resolved : bool)
  | component_field (e : option entity)
  | component_array (es : list entity)
  | reference_array (targets : list (nat * bool)).

(** Modelled from the spec: the record shape of section 6. The uuid and
    the time stand for their canonical strings. *)
Inductive json : Type :=
  | JNone
  | JLit (v : value)
  | JStr (s : string)
  | JUuid (u : nat)
  | JTime (t : nat)
  | JList (l : list json)
  | JDict (kvs : list (string * json)).

Definition type_of (e : entity) : string := match e with Entity t _ _ _ => t end.
Definition uuid (e : entity) : nat := match e with Entity _ u _ _ => u end.
Definition modified (e : entity) : nat := match e with Entity _ _ m _ => m end.
Definition fields (e : entity) : list (string * field) := match e with Entity _ _ _ fs => fs end.

(** Modelled from the spec: [write_to_dict()] (section 4.3): the type,
    the uuid, the time, every scalar as a literal, every component
    written recursively, every reference as its specifier alone. *)
Fixpoint write_to_dict (e : entity) : json :=
  match e with
  | Entity type uuid modified fields =>
      JDict (("type", JStr type) :: ("uuid", JUuid uuid) :: ("modified", JTime modified)
             :: map (λ nf, (nf.1, write_field nf.2)) fields)
  end
with write_field (f : field) : json :=
  match f with
  | scalar_field v => JLit v
  | reference_field (Some u) _ => JUuid u
  | reference_field None _ => JNone
  | component_field (Some e) => write_to_dict e
  | component_field None => JNone
  | component_array es => JList (map write_to_dict es)
  | reference_array ts => JList (map (λ t, JUuid t.1) ts)
  end.

(** The same entity with every reference unresolved: what a reader can
    know of it. *)
Fixpoint unresolved (e : entity) : entity :=
  match e with
  | Entity type uuid modified fields =>
      Entity type uuid modified (map (λ nf, (nf.1, unresolved_field nf.2)) fields)
  end
with unresolved_field (f : field) : field :=
  match f with
  | scalar_field v => scalar_field v
  | reference_field t _ => reference_field t false
  | component_field (Some e) => component_field (Some (unresolved e))
  | component_field None => component_field None
  | component_array es => component_array (map unresolved es)
  | reference_array ts => reference_array (map (λ t, (t.1, false)) ts)
  end.

(** How deep components are nested. *)
Fixpoint depth (e : entity) : nat :=
  match e with
  | Entity _ _ _ fields => S (foldr (λ nf d, max (field_depth nf.2) d) 0 fields)
  end
with field_depth (f : field) : nat :=
  match f with
  | component_field (Some e) => depth e
  | component_array es => foldr (λ e d, max (depth e) d) 0 es
  | _ => 0
  end.

(** Python [dict.get(k)] on a record. *)
Fixpoint lookup_key (k : string) (kvs : list (string * json)) : option json :=
  match kvs with
  | [] => None
  | (k', v) :: kvs' => if decide (k' = k) then Some v else lookup_key k kvs'
  end.

Definition read_specifier (j : json) : option (nat * bool) :=
  match j with JUuid u => Some (u, false) | _ => None end.

(** Modelled from the spec: the hydration of one field from what the
    record has under its name; [rec] reads a nested record. *)
Definition read_field (rec : json → option entity) (ft : field_type)
    (j : option json) : option field :=
  match ft, j with
  | prop, Some (JLit v) => Some (scalar_field v)
  | prop, None => Some (scalar_field VNone)
  | item reference, Some (JUuid u) => Some (reference_field (Some u) false)
  | item reference, (Some JNone | None) => Some (reference_field None false)
  | item component, (Some JNone | None) => Some (component_field None)
  | item component, Some (JDict kvs) =>
      e ← rec (JDict kvs); Some (component_field (Some e))
  | array component, Some (JList l) => es ← mapM rec l; Some (component_array es)
  | array component, None => Some (component_array [])
  | array reference, Some (JList l) =>
      ts ← mapM read_specifier l; Some (reference_array ts)
  | array reference, None => Some (reference_array [])
  | _, _ => None
  end.

(** Modelled from the spec: [read_from_dict(d)] / [build(context, d)]
    (section 4.3): the type named by the record decides which fields are
    read; scalars and components are hydrated recursively, references
    are stored as unresolved specifiers; a record without its type, uuid
    or time is a read failure (section 7). The fuel bounds the nesting
    of components. *)
Fixpoint read_from_dict (schema : gmap string (list (string * field_type)))
    (fuel : nat) (d : json) : option entity :=
  match fuel with
  | O => None
  | S fuel' =>
      match d with
      | JDict kvs =>
          match lookup_key "type" kvs, lookup_key "uuid" kvs, lookup_key "modified" kvs with
          | Some (JStr t), Some (JUuid u), Some (JTime m) =>
              fts ← schema !! t;
              fs ← mapM (λ nt : string * field_type,
                           f ← read_field (read_from_dict schema fuel') nt.2
                                 (lookup_key nt.1 kvs);
                           Some (nt.1, f)) fts;
              Some (Entity t u m fs)
          | _, _, _ => None
          end
      | _ => None
      end
  end.

(** An entity conforms to the schema when its type is declared and its
    fields are those of the declaration, each of the declared kind. *)
Inductive conforms (schema : gmap string (list (string * field_type))) : entity → Prop :=
  | conforms_entity t u m fs fts :
      schema !! t = Some fts →
      Forall2 (λ nf nt, nf.1 = nt.1 ∧ field_conforms schema nt.2 nf.2) fs fts →
      conforms schema (Entity t u m fs)
with field_conforms (schema : gmap string (list (string * field_type)))
  : field_type → field → Prop :=
  | conforms_scalar v : field_conforms schema prop (scalar_field v)
  | conforms_reference t r : field_conforms schema (item reference) (reference_field t r)
  | conforms_no_component : field_conforms schema (item component) (component_field None)
  | conforms_component e :
      conforms schema e → field_conforms schema (item component) (component_field (Some e))
  | conforms_component_array es :
      Forall (conforms schema) es → field_conforms schema (array component) (component_array es)
  | conforms_reference_array ts :
      field_conforms schema (array reference) (reference_array ts).

(** The keys every record has. *)
Definition reserved (k : string) : Prop := k = "type" ∨ k = "uuid" ∨ k = "modified".

(** A schema declares no field twice and none under a reserved key. *)
Definition schema_ok (schema : gmap string (list (string * field_type))) : Prop :=
  ∀ t fts, schema !! t = Some fts →
    NoDup fts.*1 ∧ ∀ k, k ∈ fts.*1 → ¬ reserved k.
(** *** Example *)

(** The two entity types of the test. *)
Definition example_schema : gmap string (list (string * field_type)) :=
  {[ "item" := [ ("flag", prop) ];
     "c" := [ ("c_items", array component); ("r_items", array reference);
              ("c_item", item component); ("r_item", item reference) ] ]}.

(** A container with one item in its component array, one in its
    component field, and two resolved references to entity [3]. *)
Definition example_entity : entity :=
  Entity "c" 0 5
    [ ("c_items", component_array [ Entity "item" 1 1 [ ("flag", scalar_field (VBool true)) ] ]);
      ("r_items", reference_array [ (3, true) ]);
      ("c_item", component_field (Some (Entity "item" 2 2 [ ("flag", scalar_field VNone) ])));
      ("r_item", reference_field (Some 3) true) ].

End SchemaRecords.

(** ** Facts about the error monad *)

Lemma bind_Ok {A B} (m : result A) (k : A → result B) (b : B) :
  m ≫= k = Ok b → ∃ a, m = Ok a ∧ k a = Ok b.
Proof. destruct m as [a|f]; simpl; [eauto | discriminate]. Qed.

Lemma bind_ret {A B} (a : A) (k : A → result B) : Ok a ≫= k = k a.
Proof. reflexivity. Qed.

Lemma assert_Ok (b : bool) : assert b = Ok tt ↔ b = true.
Proof. destruct b; simpl; split; congruence. Qed.

Lemma assert_bind_Ok {B} (c : bool) (k : result B) (b : B) :
  (assert c ;; k) = Ok b → c = true ∧ k = Ok b.
Proof. destruct c; simpl; [auto | discriminate]. Qed.

(** ** Facts about PropertyConnection *)

Module PropertyConnectionFacts.
Import PropertyConnection.

Lemma suppress_restore (c : connection) :
  suppress c = false → set_suppress false (set_suppress true c) = c.
Proof. destruct c; simpl; intros ->; reflexivity. Qed.

Lemma store_spec (w w1 : world) (o : nat) (n : string) (v : value) :
  store w o n v = Ok w1 →
  conn w1 = conn w ∧ registered w1 = registered w ∧
  set_log w1 = set_log w ++ [(o, n, v)] ∧
  getattr w1 o n = Ok v ∧
  (∀ o' p, (o', p) ≠ (o, n) → getattr w1 o' p = getattr w o' p) ∧
  (∀ o' p, declared w o' p → declared w1 o' p).
Proof.
  unfold store. destruct (heap w !! o) as [ps|] eqn:Ho; [|discriminate].
  destruct (ps !! n) as [v0|] eqn:Hn; [|discriminate].
  intros [= <-]; simpl. repeat split.
  - unfold getattr; simpl. rewrite lookup_insert_eq, lookup_insert_eq. done.
  - intros o' p Hne. unfold getattr; simpl.
    destruct (decide (o' = o)) as [->|Hoo].
    + rewrite lookup_insert_eq, Ho.
      rewrite lookup_insert_ne by congruence. done.
    + rewrite lookup_insert_ne by congruence. done.
  - intros o' p (ps' & v' & Hps & Hv). unfold declared; simpl.
    destruct (decide (o' = o)) as [->|Hoo].
    + rewrite lookup_insert_eq. rewrite Ho in Hps. injection Hps as <-.
      destruct (decide (p = n)) as [->|Hpn].
      * exists (<[n:=v]> ps), v. by rewrite lookup_insert_eq.
      * exists (<[n:=v]> ps), v'. by rewrite lookup_insert_ne.
    + exists ps', v'. by rewrite lookup_insert_ne.
Qed.

Lemma store_total (w : world) (o : nat) (n : string) (v : value) :
  declared w o n → ∃ w1, store w o n v = Ok w1.
Proof.
  intros (ps & v0 & Ho & Hn). unfold store. rewrite Ho, Hn. eauto.
Qed.

Lemma getattr_declared (w : world) (o : nat) (n : string) :
  declared w o n → ∃ v, getattr w o n = Ok v.
Proof.
  intros (ps & v0 & Ho & Hn). unfold getattr. rewrite Ho, Hn. eauto.
Qed.

Lemma frame_refl (w : world) : frame w w.
Proof. by unfold frame. Qed.

Lemma frame_trans (w1 w2 w3 : world) : frame w1 w2 → frame w2 w3 → frame w1 w3.
Proof.
  intros (Hc & Hr & Hd) (Hc' & Hr' & Hd'). unfold frame.
  split; [congruence|]. split; [congruence|]. auto.
Qed.

Lemma store_frame (w w1 : world) o n v : store w o n v = Ok w1 → frame w w1.
Proof.
  intros H. apply store_spec in H as (Hc & Hr & _ & _ & _ & Hd).
  by unfold frame.
Qed.

Lemma frame_suppressed (w w2 : world) :
  suppress (conn w) = false →
  frame (with_conn (set_suppress true) w) w2 →
  frame w (with_conn (set_suppress false) w2).
Proof.
  intros Hs (Hc & Hr & Hd). unfold frame; simpl in *.
  rewrite Hc. split; [by apply suppress_restore|]. split; [done|].
  intros o p Hop. apply (Hd o p) in Hop. exact Hop.
Qed.

Section Frame.

Variable rec : world → nat → string → value → result world.
Hypothesis rec_frame : ∀ w o n v w', rec w o n v = Ok w' → frame w w'.

Lemma set_target_from_source_with_frame w v w' :
  set_target_from_source_with rec w v = Ok w' → frame w w'.
Proof.
  unfold set_target_from_source_with. intros H.
  apply assert_bind_Ok in H as [_ H].
  destruct (suppress (conn w)) eqn:Hs; [injection H as <-; apply frame_refl|].
  simpl in H. destruct (_target _); [|discriminate].
  destruct (target_property _); [|discriminate].
  apply bind_Ok in H as (w2 & H2 & H). injection H as <-.
  apply rec_frame in H2. by apply frame_suppressed.
Qed.

Lemma set_source_from_target_with_frame w v w' :
  set_source_from_target_with rec w v = Ok w' → frame w w'.
Proof.
  unfold set_source_from_target_with. intros H.
  apply assert_bind_Ok in H as [_ H].
  destruct (suppress (conn w)) eqn:Hs; [injection H as <-; apply frame_refl|].
  apply bind_Ok in H as (w2 & H2 & H). injection H as <-.
  apply frame_suppressed; [done|].
  simpl in H2. destruct (binding (conn w)).
  - by apply rec_frame in H2.
  - injection H2 as <-. apply frame_refl.
Qed.

Lemma target_property_changed_frame w t n w' :
  target_property_changed rec w t n = Ok w' → frame w w'.
Proof.
  unfold target_property_changed.
  case_decide; [|intros [= <-]; apply frame_refl].
  intros Hr. apply bind_Ok in Hr as (v & _ & Hr).
  by apply set_source_from_target_with_frame in Hr.
Qed.

Lemma binding_property_changed_frame w b n w' :
  binding_property_changed rec w b n = Ok w' → frame w w'.
Proof.
  unfold binding_property_changed.
  case_decide; [|intros [= <-]; apply frame_refl].
  intros Hr. apply bind_Ok in Hr as (v & _ & Hr).
  by apply set_target_from_source_with_frame in Hr.
Qed.

End Frame.

(** An assignment, with all the propagation it triggers, leaves the
    fields of the connection as they were. *)
Lemma setattr_frame (fuel : nat) :
  ∀ w o n v w', setattr fuel w o n v = Ok w' → frame w w'.
Proof.
  induction fuel as [|fuel IH]; intros w o n v w' H; [discriminate|].
  simpl in H. apply bind_Ok in H as (w1 & H1 & H).
  apply store_frame in H1.
  apply bind_Ok in H as (w2 & H2 & H).
  assert (frame w1 w2) as Hf2.
  { case_decide; [|injection H2 as <-; apply frame_refl].
    by apply (target_property_changed_frame _ IH) in H2. }
  assert (frame w2 w') as Hf3.
  { destruct (binding (conn w1)); [|injection H as <-; apply frame_refl].
    case_decide; [|injection H as <-; apply frame_refl].
    by apply (binding_property_changed_frame _ IH) in H. }
  eauto using frame_trans.
Qed.

Lemma setattr_conn (fuel : nat) w o n v w' :
  setattr fuel w o n v = Ok w' → conn w' = conn w.
Proof. intros H. by apply setattr_frame in H as (? & _). Qed.

Lemma setattr_S (fuel : nat) (w : world) (o : nat) (n : string) (v : value) :
  setattr (S fuel) w o n v =
    w1 ← store w o n v;
    w2 ← (if decide (target_property_changed_listener (conn w1) = Some o)
          then target_property_changed (setattr fuel) w1 o n
          else Ok w1);
    match binding (conn w1) with
    | Some b =>
        if decide (b_source b = o)
        then binding_property_changed (setattr fuel) w2 b n
        else Ok w2
    | None => Ok w2
    end.
Proof. reflexivity. Qed.

(** While the flag is set the whole dispatch of an assignment is the
    store alone: both listeners return at once. *)
Lemma setattr_suppressed (fuel : nat) (w : world) (o : nat) (n : string) (v : value) :
  suppress (conn w) = true → _closed (conn w) = false →
  setattr (S fuel) w o n v = store w o n v.
Proof.
  intros Hs Hc. simpl. destruct (store w o n v) as [w1|f] eqn:Hst; [|done].
  simpl. apply store_spec in Hst as (Hc1 & _ & _ & Hget & _).
  assert (∀ x, set_source_from_target_with (setattr fuel) w1 x = Ok w1) as Hst'.
  { intros x. unfold set_source_from_target_with. by rewrite Hc1, Hc, Hs. }
  assert (∀ x, set_target_from_source_with (setattr fuel) w1 x = Ok w1) as Hts'.
  { intros x. unfold set_target_from_source_with. by rewrite Hc1, Hc, Hs. }
  assert ((if decide (target_property_changed_listener (conn w1) = Some o)
           then target_property_changed (setattr fuel) w1 o n else Ok w1) = Ok w1) as ->.
  { case_decide; [|done]. unfold target_property_changed.
    case_decide; [|done]. rewrite Hget. simpl. apply Hst'. }
  simpl. destruct (binding (conn w1)) as [b|]; [|done].
  case_decide as Hb; [|done]. unfold binding_property_changed.
  case_decide as Hp; [|done]. rewrite Hb, <- Hp, Hget. simpl. apply Hts'.
Qed.

(** Source to target: one store on the source, one forwarded store on
    the target under the flag, and the flag is cleared again. *)
Lemma propagate_forward (fuel : nat) (w : world) (b : PropertyBinding)
    (t : nat) (tp : string) (v : value) :
  _closed (conn w) = false → suppress (conn w) = false →
  binding (conn w) = Some b →
  _target (conn w) = Some t → target_property (conn w) = Some tp →
  (∀ l, target_property_changed_listener (conn w) = Some l → l = t) →
  declared w (b_source b) (b_property b) → declared w t tp →
  (b_source b, b_property b) ≠ (t, tp) →
  ∃ w1 w2,
    store w (b_source b) (b_property b) v = Ok w1 ∧
    store (with_conn (set_suppress true) w1) t tp v = Ok w2 ∧
    setattr (S (S fuel)) w (b_source b) (b_property b) v
      = Ok (with_conn (set_suppress false) w2).
Proof.
  intros Hc Hs Hb Ht Htp Hl Hds Hdt Hne.
  destruct (store_total w _ _ v Hds) as [w1 H1].
  pose proof (store_spec _ _ _ _ _ H1) as (Hc1 & _ & _ & Hg1 & _ & Hd1).
  assert (declared (with_conn (set_suppress true) w1) t tp) as Hdt1
    by (apply Hd1 in Hdt; exact Hdt).
  destruct (store_total _ _ _ v Hdt1) as [w2 H2].
  exists w1, w2. split; [done|]. split; [done|].
  rewrite setattr_S, H1, bind_ret, Hc1, Hb.
  assert ((if decide (target_property_changed_listener (conn w) = Some (b_source b))
           then target_property_changed (setattr (S fuel)) w1 (b_source b) (b_property b)
           else Ok w1) = Ok w1) as ->.
  { case_decide as Hl'; [|done]. apply Hl in Hl'.
    unfold target_property_changed. rewrite Hc1, Htp.
    case_decide as Hp; [|done]. injection Hp as Hp. congruence. }
  rewrite bind_ret, decide_True by done.
  unfold binding_property_changed. rewrite decide_True by done.
  rewrite Hg1, bind_ret. unfold set_target_from_source_with.
  rewrite Hc1, Hc, Hs. cbn [negb assert]. rewrite bind_ret.
  replace (_target (conn (with_conn (set_suppress true) w1))) with (Some t)
    by (cbn; rewrite Hc1; done).
  replace (target_property (conn (with_conn (set_suppress true) w1))) with (Some tp)
    by (cbn; rewrite Hc1; done).
  rewrite setattr_suppressed by (cbn; rewrite ?Hc1; done).
  rewrite H2. done.
Qed.

(** Target to source: the mirror image, through the target listener
    and [Binding.update_source]. *)
Lemma propagate_backward (fuel : nat) (w : world) (b : PropertyBinding)
    (t : nat) (tp : string) (v : value) :
  _closed (conn w) = false → suppress (conn w) = false →
  binding (conn w) = Some b →
  target_property_changed_listener (conn w) = Some t →
  target_property (conn w) = Some tp →
  declared w (b_source b) (b_property b) → declared w t tp →
  (b_source b, b_property b) ≠ (t, tp) →
  ∃ w1 w2,
    store w t tp v = Ok w1 ∧
    store (with_conn (set_suppress true) w1) (b_source b) (b_property b) v = Ok w2 ∧
    setattr (S (S fuel)) w t tp v = Ok (with_conn (set_suppress false) w2).
Proof.
  intros Hc Hs Hb Hl Htp Hds Hdt Hne.
  destruct (store_total w _ _ v Hdt) as [w1 H1].
  pose proof (store_spec _ _ _ _ _ H1) as (Hc1 & _ & _ & Hg1 & _ & Hd1).
  assert (declared (with_conn (set_suppress true) w1) (b_source b) (b_property b))
    as Hds1 by (apply Hd1 in Hds; exact Hds).
  destruct (store_total _ _ _ v Hds1) as [w2 H2].
  pose proof (store_spec _ _ _ _ _ H2) as (Hc2 & _).
  exists w1, w2. split; [done|]. split; [done|].
  rewrite setattr_S, H1, bind_ret, Hc1, Hb, Hl, decide_True by done.
  unfold target_property_changed. rewrite Hc1, Htp, decide_True by done.
  rewrite Hg1, bind_ret. unfold set_source_from_target_with.
  rewrite Hc1, Hc, Hs. cbn [negb assert]. rewrite bind_ret.
  replace (binding (conn (with_conn (set_suppress true) w1))) with (Some b)
    by (cbn; rewrite Hc1; done).
  rewrite setattr_suppressed by (cbn; rewrite ?Hc1; done).
  rewrite H2, !bind_ret.
  case_decide as Hst; [|done].
  unfold binding_property_changed. rewrite decide_False; [done|].
  intros ->. apply Hne. by rewrite Hst.
Qed.

(** With neither a binding nor a target listener an assignment is the
    store alone. *)
Lemma setattr_dormant (fuel : nat) (w : world) (o : nat) (n : string) (v : value) :
  binding (conn w) = None → target_property_changed_listener (conn w) = None →
  setattr (S fuel) w o n v = store w o n v.
Proof.
  intros Hb Hl. rewrite setattr_S.
  destruct (store w o n v) as [w1|f] eqn:H1; [|done].
  pose proof (store_spec _ _ _ _ _ H1) as (Hc1 & _).
  rewrite bind_ret, Hc1, Hb, Hl. rewrite decide_False by done. done.
Qed.

Lemma propagation_ready_frame (w w' : world) :
  frame w w' → propagation_ready w → propagation_ready w'.
Proof.
  intros (Hc & _ & Hd) (Hcl & Hb). unfold propagation_ready. rewrite Hc.
  split; [done|]. intros b Hbb. destruct (Hb b Hbb) as (Hds & t & tp & Ht & Htp & Hdt).
  split; [by apply Hd|]. exists t, tp. auto.
Qed.

Lemma set_target_from_source_total (fuel : nat) (w : world) (v : value) :
  propagation_ready w → is_Some (binding (conn w)) →
  ∃ w', set_target_from_source (S fuel) w v = Ok w'.
Proof.
  intros (Hc & Hr) [b Hb]. destruct (Hr b Hb) as (_ & t & tp & Ht & Htp & Hdt).
  unfold set_target_from_source, set_target_from_source_with.
  rewrite Hc. cbn [negb assert]. rewrite bind_ret.
  destruct (suppress (conn w)) eqn:Hs; [eauto|].
  replace (_target (conn (with_conn (set_suppress true) w))) with (Some t) by done.
  replace (target_property (conn (with_conn (set_suppress true) w))) with (Some tp) by done.
  rewrite setattr_suppressed by done.
  destruct (store_total (with_conn (set_suppress true) w) t tp v) as [w2 H2]; [exact Hdt|].
  rewrite H2, bind_ret. eauto.
Qed.

Lemma set_source_from_target_total (fuel : nat) (w : world) (v : value) :
  propagation_ready w →
  ∃ w', set_source_from_target (S fuel) w v = Ok w'.
Proof.
  intros (Hc & Hr).
  unfold set_source_from_target, set_source_from_target_with.
  rewrite Hc. cbn [negb assert]. rewrite bind_ret.
  destruct (suppress (conn w)) eqn:Hs; [eauto|].
  destruct (binding (conn w)) as [b|] eqn:Hb.
  - replace (binding (conn (with_conn (set_suppress true) w))) with (Some b) by done.
    destruct (Hr b eq_refl) as (Hds & _).
    rewrite setattr_suppressed by done.
    destruct (store_total (with_conn (set_suppress true) w) (b_source b) (b_property b) v)
      as [w2 H2]; [exact Hds|].
    rewrite H2, bind_ret. eauto.
  - replace (binding (conn (with_conn (set_suppress true) w))) with (@None PropertyBinding) by done.
    rewrite bind_ret. eauto.
Qed.

(** Every assignment to a declared property returns, whatever the
    endpoints are: two levels of dispatch are always enough. *)
Lemma setattr_total (fuel : nat) (w : world) (o : nat) (n : string) (v : value) :
  propagation_ready w → declared w o n →
  ∃ w', setattr (S (S fuel)) w o n v = Ok w'.
Proof.
  intros Hr Hd. rewrite setattr_S.
  destruct (store_total w o n v Hd) as [w1 H1]. rewrite H1, bind_ret.
  pose proof (store_spec _ _ _ _ _ H1) as (_ & _ & _ & Hg1 & _).
  pose proof (propagation_ready_frame _ _ (store_frame _ _ _ _ _ H1) Hr) as Hr1.
  assert (∃ w2, (if decide (target_property_changed_listener (conn w1) = Some o)
                 then target_property_changed (setattr (S fuel)) w1 o n
                 else Ok w1) = Ok w2 ∧ frame w1 w2) as (w2 & -> & Hf2).
  { case_decide; [|eauto using frame_refl].
    unfold target_property_changed. case_decide; [|eauto using frame_refl].
    rewrite Hg1, bind_ret.
    destruct (set_source_from_target_total fuel w1 v Hr1) as [w2 H2].
    exists w2. split; [exact H2|].
    by apply (set_source_from_target_with_frame _ (setattr_frame (S fuel))) in H2. }
  rewrite bind_ret.
  pose proof (propagation_ready_frame _ _ Hf2 Hr1) as Hr2.
  destruct (binding (conn w1)) as [b|] eqn:Hb; [|eauto].
  case_decide; [|eauto]. unfold binding_property_changed.
  case_decide; [|eauto].
  destruct Hf2 as (Hc2 & _). rewrite <- Hc2 in Hb.
  destruct Hr2 as (Hcl2 & Hbb). destruct (Hbb b Hb) as (Hds & _).
  destruct (getattr_declared _ _ _ Hds) as [x Hx]. rewrite Hx, bind_ret.
  apply set_target_from_source_total; [by split|eauto].
Qed.

Lemma configure_binding_spec (fuel : nat) (w w' : world) :
  suppress (conn w) = false →
  configure_binding fuel w = Ok w' →
  (∃ s sp, _source (conn w) = Some s ∧ is_Some (_target (conn w)) ∧
           source_property (conn w) = Some sp ∧ binding (conn w) = None ∧
           _closed (conn w) = false ∧
           conn w' = set_binding (Some {| b_source := s; b_property := sp |}) (conn w))
  ∨ ((_source (conn w) = None ∨ _target (conn w) = None) ∧ w' = w).
Proof.
  intros Hs. unfold configure_binding.
  destruct (_source (conn w)) as [s|] eqn:Hsrc; [|intros [= <-]; auto].
  destruct (_target (conn w)) as [t|] eqn:Ht; [|intros [= <-]; auto].
  intros H. apply assert_bind_Ok in H as [Hb H].
  apply bool_decide_eq_true in Hb.
  destruct (source_property (conn w)) as [sp|] eqn:Hsp; [|discriminate].
  apply bind_Ok in H as (x & _ & H).
  left. exists s, sp. repeat split; eauto.
  - unfold set_target_from_source, set_target_from_source_with in H.
    apply assert_bind_Ok in H as [Hc _]. simpl in Hc.
    by destruct (_closed (conn w)).
  - by apply set_target_from_source_with_frame in H as (Hc & _);
      [|apply setattr_frame].
Qed.

Lemma configure_binding_inv (fuel : nat) (w w' : world) :
  pre_inv (conn w) → configure_binding fuel w = Ok w' → inv (conn w').
Proof.
  intros [Hs Hb Hl Hc] H.
  destruct (configure_binding_spec _ _ _ Hs H)
    as [(s & sp & Hsrc & Ht & Hsp & Hbn & Hcl & Hw')|[Hn ->]].
  - rewrite Hw'. split; [split|]; simpl; try done.
    + intros b [= <-]. done.
    + congruence.
  - split; [done|]. intros _ [? ?] [? ?]. destruct Hn; congruence.
Qed.

Lemma configure_target_inv (fuel : nat) (w w' : world) :
  pre_inv (conn w) → _closed (conn w) = false →
  configure_target fuel w = Ok w' → inv (conn w').
Proof.
  intros [Hs Hb Hl Hc] Hcl H. unfold configure_target in H.
  apply assert_bind_Ok in H as [Hln H]. apply bool_decide_eq_true in Hln.
  apply configure_binding_inv in H; [done|].
  destruct (_target (conn w)) as [t|] eqn:Ht; [|split; rewrite ?Ht; done].
  split; unfold _source, _target in *; simpl; rewrite ?Ht.
  - done.
  - intros b Hbb. destruct (Hb b Hbb). eauto.
  - intros t' [= <-]. done.
  - congruence.
Qed.

Lemma release_binding_pre_inv (w : world) :
  suppress (conn w) = false → pre_inv (conn (release_binding w)).
Proof. intros Hs. split; simpl; done. Qed.

Lemma init_inv fuel h reg src sp tgt tp w :
  init fuel h reg src sp tgt tp = Ok w → inv (conn w).
Proof.
  unfold init, new_connection. cbn [conn _target target_reference item].
  destruct tgt as [t|].
  - intros H. apply configure_target_inv in H; [done| |done].
    split; simpl; done.
  - intros [= <-]. split; [split|]; simpl; try done.
    intros _ _ [? ?]. done.
Qed.

Lemma configure_binding_closed (fuel : nat) (w w' : world) :
  suppress (conn w) = false → configure_binding fuel w = Ok w' →
  _closed (conn w') = _closed (conn w).
Proof.
  intros Hs H.
  destruct (configure_binding_spec _ _ _ Hs H)
    as [(s & sp & _ & _ & _ & _ & _ & Hw')|[_ ->]]; [|done].
  by rewrite Hw'.
Qed.

Lemma register_inv (fuel u : nat) (w w' : world) :
  inv (conn w) → register fuel u w = Ok w' → inv (conn w').
Proof.
  intros Hinv. pose proof Hinv as [[Hs Hb Hl Hc] He].
  unfold register. cbn [conn with_registered].
  destruct (_closed (conn w)) eqn:Hcl; [by intros [= <-]|].
  intros H. apply bind_Ok in H as (w1 & H1 & H).
  assert (inv (conn w1) ∧ _closed (conn w1) = false) as [[[Hs1 Hb1 Hl1 Hc1] He1] Hcl1].
  { revert H1. destruct (resolves u (source_reference (conn w))) eqn:Hr; intros H1.
    - apply andb_true_iff in Hr as [Hn _]. apply bool_decide_eq_true in Hn.
      split.
      + apply configure_binding_inv in H1; [done|].
        split; unfold _source, _target in *; simpl; try done; try congruence.
        intros b Hbb. destruct (Hb b Hbb) as [? _]. congruence.
      + apply configure_binding_closed in H1; [|done]. by rewrite H1.
    - injection H1 as <-. done. }
  revert H. destruct (resolves u (target_reference (conn w1))) eqn:Hr; intros H.
  - apply andb_true_iff in Hr as [Hn _]. apply bool_decide_eq_true in Hn.
    apply configure_target_inv in H; [done| |done].
    split; unfold _source, _target in *; simpl; try done; try congruence.
    + intros b Hbb. destruct (Hb1 b Hbb) as [_ [? ?]]. congruence.
    + intros t Ht. apply Hl1 in Ht. congruence.
  - injection H as <-. done.
Qed.

Lemma unregister_inv (u : nat) (w : world) :
  inv (conn w) → inv (conn (unregister u w)).
Proof.
  intros Hinv. pose proof Hinv as [[Hs Hb Hl Hc] He].
  unfold unregister. cbn [conn with_registered].
  destruct (_closed (conn w)) eqn:Hcl; [exact Hinv|].
  destruct (unresolves u (source_reference (conn w))) eqn:Hus; simpl;
    destruct (unresolves u (target_reference (conn w))) eqn:Hut; try exact Hinv;
    (split; [split|]); unfold _source, _target in *; simpl in *;
    try done; try (by intros _ [? ?]); try (by intros _ _ [? ?]).
Qed.

Lemma source_specifier_changed_inv (fuel : nat) (sp : option nat) (w w' : world) :
  inv (conn w) → source_specifier_changed fuel sp w = Ok w' → inv (conn w').
Proof.
  intros Hinv. pose proof Hinv as [[Hs Hb Hl Hc] He].
  unfold source_specifier_changed. intros H.
  apply assert_bind_Ok in H as [Hcl H]. apply negb_true_iff in Hcl.
  revert H. case_decide as Hon.
  - intros [= <-]. unfold _source, _target in *.
    split; [split|]; simpl; done.
  - destruct (resolve w sp) as [new|] eqn:Hnew;
      destruct (_source (conn w)) as [old|] eqn:Hold; try done; intros H.
    + apply configure_binding_inv in H; [done|].
      split; unfold _source, _target in *; simpl; done.
    + apply configure_binding_inv in H; [done|].
      split; unfold _source, _target in *; simpl; try done.
      intros b Hbb. destruct (Hb b Hbb) as [? _]. congruence.
    + injection H as <-. unfold _source, _target in *.
      split; [split|]; simpl; try done. by intros _ [? ?].
Qed.

Lemma target_specifier_changed_inv (fuel : nat) (sp : option nat) (w w' : world) :
  inv (conn w) → target_specifier_changed fuel sp w = Ok w' → inv (conn w').
Proof.
  intros Hinv. pose proof Hinv as [[Hs Hb Hl Hc] He].
  unfold target_specifier_changed. intros H.
  apply assert_bind_Ok in H as [Hcl H]. apply negb_true_iff in Hcl.
  revert H. case_decide as Hon.
  - intros [= <-]. unfold _source, _target in *.
    split; [split|]; simpl; done.
  - destruct (resolve w sp) as [new|] eqn:Hnew;
      destruct (_target (conn w)) as [old|] eqn:Hold; try done; intros H.
    + apply configure_target_inv in H; [done| |done].
      split; unfold _source, _target in *; simpl; done.
    + apply configure_target_inv in H; [done| |done].
      split; unfold _source, _target in *; simpl; try done.
      * intros b Hbb. destruct (Hb b Hbb) as [_ [? ?]]. congruence.
      * intros t Ht. apply Hl in Ht. congruence.
    + injection H as <-. unfold _source, _target in *.
      split; [split|]; simpl; try done. by intros _ _ [? ?].
Qed.

Lemma close_inv (w : world) : inv (conn w) → inv (conn (close w)).
Proof.
  intros [[Hs Hb Hl Hc] He]. unfold _source, _target in *.
  split; [split|]; simpl; done.
Qed.

Lemma step_inv (fuel : nat) (e : event) (w w' : world) :
  inv (conn w) → step fuel e w = Ok w' → inv (conn w').
Proof.
  intros Hinv. destruct e as [u|u|sp|sp|p|p|o n v|]; simpl; intros H.
  - eauto using register_inv.
  - injection H as <-. by apply unregister_inv.
  - eauto using source_specifier_changed_inv.
  - eauto using target_specifier_changed_inv.
  - apply assert_bind_Ok in H as [_ [= <-]].
    destruct Hinv as [[Hs Hb Hl Hc] He]. unfold _source, _target in *.
    split; [split|]; simpl; done.
  - apply assert_bind_Ok in H as [_ [= <-]].
    destruct Hinv as [[Hs Hb Hl Hc] He]. unfold _source, _target in *.
    split; [split|]; simpl; done.
  - apply setattr_conn in H. by rewrite H.
  - injection H as <-. by apply close_inv.
Qed.

Lemma run_inv (fuel : nat) (es : list event) :
  ∀ w w', inv (conn w) → run fuel es w = Ok w' → inv (conn w').
Proof.
  induction es as [|e es IH]; simpl; intros w w' Hinv H.
  - by injection H as <-.
  - apply bind_Ok in H as (w1 & H1 & H). eauto using step_inv.
Qed.

Lemma configure_binding_total (fuel : nat) (w : world) (s t : nat) (sp tp : string) :
  _closed (conn w) = false → suppress (conn w) = false →
  binding (conn w) = None →
  _source (conn w) = Some s → _target (conn w) = Some t →
  source_property (conn w) = Some sp → target_property (conn w) = Some tp →
  declared w s sp → declared w t tp →
  ∃ w', configure_binding (S fuel) w = Ok w' ∧
        conn w' = set_binding (Some {| b_source := s; b_property := sp |}) (conn w).
Proof.
  intros Hcl Hs Hb Hsrc Ht Hsp Htp Hds Hdt.
  assert (∃ w', configure_binding (S fuel) w = Ok w') as [w' H].
  { unfold configure_binding. rewrite Hsrc, Ht, Hb, Hsp.
    rewrite bool_decide_eq_true_2 by done. cbn [assert]. rewrite bind_ret.
    set (w1 := with_conn _ w).
    destruct (getattr_declared w1 s sp Hds) as [x Hx]. rewrite Hx, bind_ret.
    apply set_target_from_source_total; [|by eexists].
    split; [done|]. intros b [= <-]. split; [done|]. by exists t, tp. }
  exists w'. split; [done|].
  destruct (configure_binding_spec _ _ _ Hs H)
    as [(s' & sp' & Hs' & _ & Hsp' & _ & _ & Hw')|[[Hn|Hn] _]]; congruence.
Qed.

(** A registration that resolves the source of a connection whose target
    is resolved creates the binding. *)
Lemma register_source (fuel : nat) (w : world) (u t : nat) (sp tp : string) :
  inv (conn w) → _closed (conn w) = false →
  _source (conn w) = None → item_specifier (source_reference (conn w)) = Some u →
  _target (conn w) = Some t →
  source_property (conn w) = Some sp → target_property (conn w) = Some tp →
  declared w u sp → declared w t tp →
  ∃ w', register (S fuel) u w = Ok w' ∧
        _source (conn w') = Some u ∧ _target (conn w') = Some t ∧
        binding (conn w') = Some {| b_source := u; b_property := sp |}.
Proof.
  intros [[Hs Hb Hl Hc] He] Hcl Hsrc Hspec Ht Hsp Htp Hds Hdt.
  unfold register. cbn [conn with_registered]. rewrite Hcl.
  unfold _source, _target in *.
  assert (resolves u (source_reference (conn w)) = true) as ->.
  { unfold resolves. by rewrite Hsrc, Hspec, !bool_decide_eq_true_2. }
  edestruct (configure_binding_total fuel) as (w1 & H1 & Hc1); cycle 9.
  { rewrite H1, bind_ret.
    assert (resolves u (target_reference (conn w1)) = false) as ->.
    { unfold resolves. rewrite Hc1. simpl. rewrite Ht.
      by rewrite bool_decide_eq_false_2. }
    exists w1. rewrite Hc1. simpl. done. }
  all: unfold _source, _target; simpl; try done.
  destruct (binding (conn w)) as [b|] eqn:Hbb; [|done].
  destruct (Hb b eq_refl) as [? _]. congruence.
Qed.

(** A registration that resolves the target of a connection whose source
    is resolved installs the target listener and creates the binding. *)
Lemma register_target (fuel : nat) (w : world) (u s : nat) (sp tp : string) :
  inv (conn w) → _closed (conn w) = false →
  _target (conn w) = None → item_specifier (target_reference (conn w)) = Some u →
  _source (conn w) = Some s →
  source_property (conn w) = Some sp → target_property (conn w) = Some tp →
  declared w s sp → declared w u tp →
  ∃ w', register (S fuel) u w = Ok w' ∧
        _source (conn w') = Some s ∧ _target (conn w') = Some u ∧
        binding (conn w') = Some {| b_source := s; b_property := sp |} ∧
        target_property_changed_listener (conn w') = Some u.
Proof.
  intros [[Hs Hb Hl Hc] He] Hcl Ht Hspec Hsrc Hsp Htp Hds Hdt.
  unfold register. cbn [conn with_registered]. rewrite Hcl.
  unfold _source, _target in *.
  assert (resolves u (source_reference (conn w)) = false) as ->.
  { unfold resolves. by rewrite Hsrc, bool_decide_eq_false_2. }
  rewrite bind_ret. cbn [conn with_registered].
  assert (resolves u (target_reference (conn w)) = true) as ->.
  { unfold resolves. by rewrite Ht, Hspec, !bool_decide_eq_true_2. }
  assert (binding (conn w) = None) as Hbn.
  { destruct (binding (conn w)) as [b|] eqn:Hbb; [|done].
    destruct (Hb b eq_refl) as [_ [? ?]]. congruence. }
  assert (target_property_changed_listener (conn w) = None) as Hln.
  { destruct (target_property_changed_listener (conn w)) as [l|] eqn:Hll; [|done].
    specialize (Hl l eq_refl). congruence. }
  unfold configure_target. cbn [conn with_conn with_registered].
  cbn [target_property_changed_listener set_target_reference].
  rewrite Hln, bool_decide_eq_true_2 by done. cbn [assert]. rewrite bind_ret.
  cbn [_target target_reference set_target_reference set_item item].
  edestruct (configure_binding_total fuel) as (w1 & H1 & Hc1); cycle 9.
  { rewrite H1. exists w1. rewrite Hc1. simpl. done. }
  all: unfold _source, _target; simpl; try done.
Qed.

End PropertyConnectionFacts.

(** ** Claims about PropertyConnection *)

Module PropertyConnectionClaims.
Import PropertyConnection PropertyConnectionFacts.

Lemma reachable_inv fuel h reg src sp tgt tp es w :
  init fuel h reg src sp tgt tp ≫= run fuel es = Ok w → inv (conn w).
Proof.
  intros H. apply bind_Ok in H as (w0 & H0 & H).
  eauto using run_inv, init_inv.
Qed.

Lemma unregister_releases (u : nat) (w : world) :
  inv (conn w) →
  _source (conn w) = Some u ∨ _target (conn w) = Some u →
  binding (conn (unregister u w)) = None ∧
  target_property_changed_listener (conn (unregister u w)) = None.
Proof.
  intros [[Hs Hb Hl Hc] He] Hu. unfold unregister. cbn [conn with_registered].
  destruct (_closed (conn w)) eqn:Hcl; [by apply Hc|].
  unfold _source, _target, unresolves in *.
  destruct (bool_decide (item (source_reference (conn w)) = Some u)) eqn:Hus; simpl;
    destruct (bool_decide (item (target_reference (conn w)) = Some u)) eqn:Hut;
    simpl; try done.
  apply bool_decide_eq_false in Hus, Hut. by destruct Hu.
Qed.

(** The field [binding] of a PropertyConnection exists only while both
    item references resolve, and in an open connection it exists whenever
    both do. Whatever happened since the construction: unregistering
    either endpoint closes the binding and the target listener; a
    registration that resolves the missing endpoint creates the binding
    again, and only for the target also its listener; and as long as the
    target is unresolved an assignment to any property is the store
    alone, nothing is forwarded. *)
Theorem binding_lifecycle (fuel : nat) (h : gmap nat (gmap string value))
    (reg : gset nat) (src : option nat) (sp : option string)
    (tgt : option nat) (tp : option string) (es : list event) (w : world) :
  init fuel h reg src sp tgt tp ≫= run fuel es = Ok w →
  (is_Some (binding (conn w)) →
     is_Some (_source (conn w)) ∧ is_Some (_target (conn w))) ∧
  (_closed (conn w) = false →
     is_Some (_source (conn w)) → is_Some (_target (conn w)) →
     is_Some (binding (conn w))) ∧
  (∀ u, _source (conn w) = Some u ∨ _target (conn w) = Some u →
     binding (conn (unregister u w)) = None ∧
     target_property_changed_listener (conn (unregister u w)) = None) ∧
  (∀ f u t p q,
     _closed (conn w) = false →
     _source (conn w) = None →
     item_specifier (source_reference (conn w)) = Some u →
     _target (conn w) = Some t →
     source_property (conn w) = Some p → target_property (conn w) = Some q →
     declared w u p → declared w t q →
     ∃ w', register (S f) u w = Ok w' ∧
           binding (conn w') = Some {| b_source := u; b_property := p |}) ∧
  (∀ f u s p q,
     _closed (conn w) = false →
     _target (conn w) = None →
     item_specifier (target_reference (conn w)) = Some u →
     _source (conn w) = Some s →
     source_property (conn w) = Some p → target_property (conn w) = Some q →
     declared w s p → declared w u q →
     ∃ w', register (S f) u w = Ok w' ∧
           binding (conn w') = Some {| b_source := s; b_property := p |} ∧
           target_property_changed_listener (conn w') = Some u) ∧
  (_target (conn w) = None →
     ∀ f o n v, setattr (S f) w o n v = store w o n v).
Proof.
  intros H. apply reachable_inv in H. pose proof H as [[Hs Hb Hl Hc] He].
  repeat split.
  - destruct H0 as [b Hbb]. destruct (Hb b Hbb) as [-> _]. by eexists.
  - destruct H0 as [b Hbb]. by destruct (Hb b Hbb) as [_ ?].
  - done.
  - by apply unregister_releases.
  - by apply unregister_releases.
  - intros f u t p q ? ? ? ? ? ? ? ?.
    edestruct (register_source f w u t p q) as (w' & Hr & _ & _ & Hbw); eauto.
  - intros f u s p q ? ? ? ? ? ? ? ?.
    edestruct (register_target f w u s p q) as (w' & Hr & _ & _ & Hbw & Hlw); eauto.
  - intros Ht f o n v. apply setattr_dormant.
    + destruct (binding (conn w)) as [b|] eqn:Hbb; [|done].
      destruct (Hb b eq_refl) as [_ [? ?]]. congruence.
    + destruct (target_property_changed_listener (conn w)) as [l|] eqn:Hll; [|done].
      specialize (Hl l eq_refl). congruence.
Qed.

(** The same at a connection built before its target is known. *)
Lemma binding_lifecycle_witness :
  init 2 example_heap ∅ (Some 0) (Some "a") None (Some "b")
    ≫= run 2 [SetTargetSpecifier (Some 1)] = Ok dormant_world ∧
  (∃ w', register 2 1 dormant_world = Ok w' ∧
         binding (conn w') = Some {| b_source := 0; b_property := "a" |} ∧
         target_property_changed_listener (conn w') = Some 1) ∧
  (∀ f o n v, setattr (S f) dormant_world o n v = store dormant_world o n v).
Proof.
  assert (init 2 example_heap ∅ (Some 0) (Some "a") None (Some "b")
            ≫= run 2 [SetTargetSpecifier (Some 1)] = Ok dormant_world) as Hrun
    by (vm_compute; reflexivity).
  destruct (binding_lifecycle 2 example_heap ∅ (Some 0) (Some "a") None (Some "b")
              [SetTargetSpecifier (Some 1)] dormant_world Hrun)
    as (_ & _ & _ & _ & Htarget & Hdormant).
  split; [exact Hrun|]. split.
  - apply (Htarget 1 1 0 "a" "b"); try reflexivity.
    + eexists _, _. split; vm_compute; reflexivity.
    + eexists _, _. split; vm_compute; reflexivity.
  - apply Hdormant. reflexivity.
Defined.

(** C2. In an open connection with its binding in place and both
    endpoints declared, an assignment to either connected property
    returns without a fault after two levels of dispatch at most and
    leaves the connection as it was. When the two connected properties are
    distinct, exactly one assignment is forwarded: to the target property
    when the source was assigned, and to the source property when the
    target was assigned and its listener is in place. While the flag is
    set, both propagation methods return at once and change nothing. *)
Theorem single_flight_propagation (fuel : nat) (w : world) (b : PropertyBinding)
    (t : nat) (tp : string) (v : value) :
  _closed (conn w) = false → suppress (conn w) = false →
  binding (conn w) = Some b →
  _target (conn w) = Some t → target_property (conn w) = Some tp →
  (∀ l, target_property_changed_listener (conn w) = Some l → l = t) →
  declared w (b_source b) (b_property b) → declared w t tp →
  (∃ w', setattr (S (S fuel)) w (b_source b) (b_property b) v = Ok w' ∧
         conn w' = conn w) ∧
  (∃ w', setattr (S (S fuel)) w t tp v = Ok w' ∧ conn w' = conn w) ∧
  ((b_source b, b_property b) ≠ (t, tp) →
   ∃ w', setattr (S (S fuel)) w (b_source b) (b_property b) v = Ok w' ∧
         set_log w' = set_log w ++ [(b_source b, b_property b, v); (t, tp, v)] ∧
         getattr w' (b_source b) (b_property b) = Ok v ∧
         getattr w' t tp = Ok v) ∧
  ((b_source b, b_property b) ≠ (t, tp) →
   target_property_changed_listener (conn w) = Some t →
   ∃ w', setattr (S (S fuel)) w t tp v = Ok w' ∧
         set_log w' = set_log w ++ [(t, tp, v); (b_source b, b_property b, v)] ∧
         getattr w' (b_source b) (b_property b) = Ok v ∧
         getattr w' t tp = Ok v) ∧
  (∀ f w1 x, suppress (conn w1) = true → _closed (conn w1) = false →
     set_source_from_target f w1 x = Ok w1 ∧
     set_target_from_source f w1 x = Ok w1).
Proof.
  intros Hc Hs Hb Ht Htp Hl Hds Hdt.
  assert (propagation_ready w) as Hr.
  { split; [done|]. intros b' Hb'. rewrite Hb in Hb'. injection Hb' as <-.
    split; [done|]. by exists t, tp. }
  split; [|split; [|split; [|split]]].
  - destruct (setattr_total fuel w _ _ v Hr Hds) as [w' H].
    exists w'. split; [done|]. by apply setattr_conn in H.
  - destruct (setattr_total fuel w _ _ v Hr Hdt) as [w' H].
    exists w'. split; [done|]. by apply setattr_conn in H.
  - intros Hne.
    destruct (propagate_forward fuel w b t tp v) as (w1 & w2 & H1 & H2 & H); try done.
    apply store_spec in H1 as (_ & _ & Hl1 & Hg1 & _).
    apply store_spec in H2 as (_ & _ & Hl2 & Hg2 & Hf2 & _).
    eexists. split; [exact H|]. cbn [set_log with_conn]. split; [|split].
    + rewrite Hl2. cbn [set_log with_conn]. rewrite Hl1, <- app_assoc. done.
    + unfold getattr in *. cbn [heap with_conn] in *. by rewrite Hf2.
    + exact Hg2.
  - intros Hne Hlt.
    destruct (propagate_backward fuel w b t tp v) as (w1 & w2 & H1 & H2 & H); try done.
    apply store_spec in H1 as (_ & _ & Hl1 & Hg1 & _).
    apply store_spec in H2 as (_ & _ & Hl2 & Hg2 & Hf2 & _).
    eexists. split; [exact H|]. cbn [set_log with_conn]. split; [|split].
    + rewrite Hl2. cbn [set_log with_conn]. rewrite Hl1, <- app_assoc. done.
    + exact Hg2.
    + unfold getattr in *. cbn [heap with_conn] in *. rewrite Hf2; [done|].
      intros Heq. apply Hne. by injection Heq as -> ->.
  - intros f w1 x Hs1 Hc1.
    unfold set_source_from_target, set_source_from_target_with,
      set_target_from_source, set_target_from_source_with.
    by rewrite Hc1, Hs1.
Qed.

Example init_bound_world :
  init 2 example_heap ∅ (Some 0) (Some "a") (Some 1) (Some "b") = Ok bound_world.
Proof. vm_compute. reflexivity. Qed.

(** When the source is unregistered and registered again the binding
    comes back, the listener on the target does not: [release_binding]
    closed it and only [configure_target] installs it. An assignment to
    the target property is then no longer forwarded to the source. *)
Example source_reregistration_drops_target_listener :
  ∃ w, run 2 [Unregister 0; Register 0] bound_world = Ok w ∧
       binding (conn w) = Some {| b_source := 0; b_property := "a" |} ∧
       target_property_changed_listener (conn w) = None ∧
       setattr 2 w 1 "b" (VInt 9) = store w 1 "b" (VInt 9).
Proof. eexists. split; [vm_compute; reflexivity|]. repeat split. Qed.

(** C1. The code at the failing input: the PropertyConnection between
    property [a] of object [0] and property [b] of object [1]. Once
    built it is bound in both directions: an assignment to [b] reaches
    [a]. Unregistering the source releases the binding and the listener
    on the target. When the source is registered again both references
    resolve and the binding is back, so that an assignment to [a]
    reaches [b]; the listener on the target is not back, and an
    assignment to [b] is the store alone: it no longer reaches [a]. Had
    the target been the endpoint that went and came back, binding and
    listener would both be in place again. *)
Theorem source_reregistration_restores_half_the_binding :
  ∃ w0 w,
    init 2 example_heap ∅ (Some 0) (Some "a") (Some 1) (Some "b") = Ok w0 ∧
    binding (conn w0) = Some {| b_source := 0; b_property := "a" |} ∧
    target_property_changed_listener (conn w0) = Some 1 ∧
    (∃ w', setattr 2 w0 1 "b" (VInt 9) = Ok w' ∧
           getattr w' 0 "a" = Ok (VInt 9)) ∧
    binding (conn (unregister 0 w0)) = None ∧
    target_property_changed_listener (conn (unregister 0 w0)) = None ∧
    register 2 0 (unregister 0 w0) = Ok w ∧
    _closed (conn w) = false ∧
    _source (conn w) = Some 0 ∧
    _target (conn w) = Some 1 ∧
    binding (conn w) = Some {| b_source := 0; b_property := "a" |} ∧
    target_property_changed_listener (conn w) = None ∧
    (∃ w', setattr 2 w 0 "a" (VInt 7) = Ok w' ∧
           getattr w' 1 "b" = Ok (VInt 7)) ∧
    (∃ w', setattr 2 w 1 "b" (VInt 9) = Ok w' ∧
           getattr w' 1 "b" = Ok (VInt 9) ∧
           getattr w' 0 "a" = Ok (VInt 1) ∧
           set_log w' = set_log w ++ [(1, "b", VInt 9)]) ∧
    (∃ w2, register 2 1 (unregister 1 w0) = Ok w2 ∧
           binding (conn w2) = Some {| b_source := 0; b_property := "a" |} ∧
           target_property_changed_listener (conn w2) = Some 1).
Proof.
  exists bound_world. eexists.
  split; [vm_compute; reflexivity|].
  do 2 (split; [reflexivity|]).
  split; [eexists; split; vm_compute; reflexivity|].
  do 2 (split; [reflexivity|]).
  split; [vm_compute; reflexivity|].
  do 5 (split; [reflexivity|]).
  split; [eexists; split; vm_compute; reflexivity|].
  split; [eexists; repeat split; vm_compute; reflexivity|].
  eexists; repeat split; vm_compute; reflexivity.
Qed.

(** A property connected to itself is assigned twice more: once through
    each listener. The dispatch still ends. *)
Example self_connection_forwards_twice :
  ∃ w w', init 2 example_heap ∅ (Some 0) (Some "a") (Some 0) (Some "a") = Ok w ∧
          setattr 2 w 0 "a" (VInt 7) = Ok w' ∧
          set_log w' = set_log w ++ [(0, "a", VInt 7); (0, "a", VInt 7); (0, "a", VInt 7)].
Proof.
  eexists _, _. split; [vm_compute; reflexivity|].
  split; [vm_compute; reflexivity|]. reflexivity.
Qed.

(** C2, at the connection between [a] of object [0] and [b] of object [1]. *)
Lemma single_flight_propagation_witness :
  (∃ w', setattr 2 bound_world 0 "a" (VInt 7) = Ok w' ∧
         set_log w' = set_log bound_world ++ [(0, "a", VInt 7); (1, "b", VInt 7)] ∧
         getattr w' 0 "a" = Ok (VInt 7) ∧ getattr w' 1 "b" = Ok (VInt 7)) ∧
  (∃ w', setattr 2 bound_world 1 "b" (VInt 9) = Ok w' ∧
         set_log w' = set_log bound_world ++ [(1, "b", VInt 9); (0, "a", VInt 9)] ∧
         getattr w' 0 "a" = Ok (VInt 9) ∧ getattr w' 1 "b" = Ok (VInt 9)).
Proof.
  assert (declared bound_world 0 "a") as Hds
    by (eexists _, _; split; vm_compute; reflexivity).
  assert (declared bound_world 1 "b") as Hdt
    by (eexists _, _; split; vm_compute; reflexivity).
  assert (∀ l, target_property_changed_listener (conn bound_world) = Some l → l = 1)
    as Hl by (intros l [= <-]; reflexivity).
  split.
  - destruct (single_flight_propagation 0 bound_world
                {| b_source := 0; b_property := "a" |} 1 "b" (VInt 7)
                eq_refl eq_refl eq_refl eq_refl eq_refl Hl Hds Hdt)
      as (_ & _ & Hfwd & _).
    apply Hfwd. discriminate.
  - destruct (single_flight_propagation 0 bound_world
                {| b_source := 0; b_property := "a" |} 1 "b" (VInt 9)
                eq_refl eq_refl eq_refl eq_refl eq_refl Hl Hds Hdt)
      as (_ & _ & _ & Hbwd & _).
    apply Hbwd; [discriminate|reflexivity].
Defined.

(** On a closed PropertyConnection both propagation methods stop at
    their assertion: the result is the assertion fault, never a silent
    return. *)
Theorem closed_propagation_faults (fuel : nat) (w : world) (v : value) :
  _closed (conn w) = true →
  set_target_from_source fuel w v = Raise AssertionError ∧
  set_source_from_target fuel w v = Raise AssertionError.
Proof.
  intros Hc.
  unfold set_target_from_source, set_target_from_source_with,
    set_source_from_target, set_source_from_target_with.
  by rewrite Hc.
Qed.

(** The same at the connection of the example once it is closed. *)
Lemma closed_propagation_faults_witness :
  set_target_from_source 2 (close bound_world) (VInt 3) = Raise AssertionError ∧
  set_source_from_target 2 (close bound_world) (VInt 3) = Raise AssertionError.
Proof. apply (closed_propagation_faults 2 (close bound_world) (VInt 3)). reflexivity. Defined.

End PropertyConnectionClaims.


(** ** Facts about IntervalListConnection *)

Module IntervalListConnectionFacts.
Import IntervalListConnection.

Lemma same_data_refl (w : world) : same_data w w.
Proof. by unfold same_data. Qed.

Lemma same_data_trans (w1 w2 w3 : world) :
  same_data w1 w2 → same_data w2 w3 → same_data w1 w3.
Proof.
  unfold same_data. intros (?&?&?&?&?&?&?) (?&?&?&?&?&?&?).
  repeat split; congruence.
Qed.

Lemma close_listeners_same_data (hs : list nat) :
  ∀ w, same_data w (foldl (λ w' h, close_listener h w') w hs) ∧
       conn (foldl (λ w' h, close_listener h w') w hs) = conn w.
Proof.
  induction hs as [|h hs IH]; intros w; simpl; [by split; [apply same_data_refl|]|].
  destruct (IH (close_listener h w)) as [Hd Hc]. split; [|by rewrite Hc].
  eapply same_data_trans; [|exact Hd]. by unfold same_data.
Qed.

Lemma detach_same_data (w : world) : same_data w (detach w).
Proof.
  unfold detach.
  destruct (close_listeners_same_data (interval_mutated_listeners (conn w)) w)
    as [(?&?&?&?&?&?&?) Hc].
  unfold same_data. simpl. by rewrite ?Hc.
Qed.

Lemma attach_regions_spec (regions : list nat) :
  ∀ ds w ds' w',
    attach_regions regions ds w = Ok (ds', w') →
    ds' = ds ++ omap (descriptor_of (graphic_objects w)) regions ∧ same_data w w'.
Proof.
  induction regions as [|r regions IH]; intros ds w ds' w' H; simpl in H.
  - injection H as <- <-. simpl. by rewrite app_nil_r; split; [|apply same_data_refl].
  - simpl. unfold descriptor_of at 1.
    destruct (graphic_objects w !! r) as [[iv|]|] eqn:Hr; [| |discriminate].
    + apply IH in H as [-> Hd]. split.
      * simpl. by rewrite <- app_assoc.
      * eapply same_data_trans; [|exact Hd]. by unfold same_data.
    + by apply IH in H.
Qed.

Lemma attach_regions_total (regions : list nat) :
  ∀ ds w, (∀ r, r ∈ regions → is_Some (graphic_objects w !! r)) →
          ∃ res, attach_regions regions ds w = Ok res.
Proof.
  induction regions as [|r regions IH]; intros ds w Hex; simpl; [eauto|].
  destruct (Hex r) as [[iv|] Hr]; [by left| |]; rewrite Hr.
  - apply IH. intros r' Hr'. simpl. apply Hex. by right.
  - apply IH. intros r' Hr'. apply Hex. by right.
Qed.

Lemma same_data_projected (w w' : world) :
  same_data w w' → projected w' = projected w.
Proof.
  intros (Hg & Ho & _ & _ & Hs & _). unfold projected, _source.
  by rewrite Hg, Ho, Hs.
Qed.

(** What [reattach] does: listeners are exchanged, and then the
    projection is assigned to the target if it differs from the current
    value and not otherwise. *)
Lemma reattach_cases (w w' : world) :
  reattach w = Ok w' →
  ∃ w2, same_data w w2 ∧
    ((∃ t current, _target (conn w) = Some t ∧
                   interval_descriptors w !! t = Some current ∧
                   current ≠ projected w ∧ w' = assign t (projected w) w2)
     ∨ (w' = w2 ∧
        ∀ t, _target (conn w) = Some t →
             interval_descriptors w !! t = Some (projected w))).
Proof.
  unfold reattach. intros H. apply bind_Ok in H as ([ds w2] & H1 & H).
  pose proof (detach_same_data w) as Hd.
  assert (ds = projected w ∧ same_data w w2) as [-> Hd2].
  { pose proof Hd as (Hg & Ho & _ & _ & Hs & _).
    unfold projected, _source in *. rewrite Hs in H1.
    destruct (item (source_reference (conn w))) as [d|].
    - rewrite Hg in H1. destruct (graphics w !! d) as [regions|]; [|discriminate].
      apply attach_regions_spec in H1 as [-> Hd2]. rewrite Ho. simpl.
      split; [done|]. by eapply same_data_trans.
    - by injection H1 as <- <-. }
  exists w2. split; [done|].
  pose proof Hd2 as (_ & _ & Hi & _ & _ & Ht & _).
  unfold _target in *. rewrite Ht, Hi in H.
  destruct (item (target_reference (conn w))) as [t|]; [|right; by injection H as <-].
  destruct (interval_descriptors w !! t) as [current|] eqn:Hcur; [|discriminate].
  revert H. case_decide as Hne; intros [= <-].
  - left. exists t, current. done.
  - right. split; [done|]. intros t' [= <-]. by rewrite <- Hne.
Qed.

Lemma reattach_total (w : world) :
  source_graphics_exist w →
  (∀ t, _target (conn w) = Some t → is_Some (interval_descriptors w !! t)) →
  ∃ w', reattach w = Ok w'.
Proof.
  intros Hsrc Htgt. unfold reattach.
  pose proof (detach_same_data w) as (Hg & Ho & Hi & _ & Hs & Ht & _).
  assert (∃ res, match _source (conn (detach w)) with
                 | Some d =>
                     match graphics (detach w) !! d with
                     | Some regions => attach_regions regions [] (detach w)
                     | None => Raise AttributeError
                     end
                 | None => Ok ([], detach w)
                 end = Ok res) as [[ds w2] H1].
  { unfold _source, source_graphics_exist in *. rewrite Hs, Hg.
    destruct (item (source_reference (conn w))) as [d|] eqn:Hd; [|eauto].
    destruct (Hsrc d Hd) as (regions & -> & Hex).
    apply attach_regions_total. by rewrite Ho. }
  rewrite H1, bind_ret.
  assert (same_data (detach w) w2) as (_ & _ & Hi2 & _ & _ & Ht2 & _).
  { revert H1. destruct (_source (conn (detach w))) as [d|].
    - destruct (graphics (detach w) !! d); [|discriminate].
      intros H1. by apply attach_regions_spec in H1 as [_ ?].
    - intros [= <- <-]. apply same_data_refl. }
  unfold _target in *. rewrite Ht2, Ht, Hi2, Hi.
  destruct (item (target_reference (conn w))) as [t|] eqn:Htt; [|eauto].
  destruct (Htgt t eq_refl) as [current ->]. case_decide; eauto.
Qed.

Lemma same_data_unassigned (w w' : world) : same_data w w' → unassigned w w'.
Proof. intros (_ & _ & ? & ? & _). by split. Qed.

Lemma reattach_recomputation (w w' : world) :
  reattach w = Ok w' → recomputation w w'.
Proof.
  intros H. apply reattach_cases in H
    as (w2 & Hd & [(t & current & Ht & Hcur & Hne & ->)|[-> _]]).
  - right. exists t, current, (projected w).
    destruct Hd as (_ & _ & Hi & Ha & _). simpl. by rewrite Hi, Ha.
  - left. by apply same_data_unassigned.
Qed.

Lemma unassigned_rtc (w w' w'' : world) :
  unassigned w w' → rtc recomputation w' w'' → rtc recomputation w w''.
Proof.
  intros [Hi Ha] Hr. destruct Hr as [|w1 w2 w3 Hstep Hr].
  - apply rtc_once. by left.
  - eapply rtc_l; [|exact Hr].
    destruct Hstep as [[Hi' Ha']|(t & cur & ds & Hcur & Hne & Hi' & Ha')].
    + left. split; congruence.
    + right. exists t, cur, ds. rewrite Hi', Ha'. by rewrite Hi, Ha in *.
Qed.

Lemma fire_recomputation (callback : world → result world) (hs : list nat) :
  (∀ w w', callback w = Ok w' → recomputation w w') →
  ∀ w w', fire hs callback w = Ok w' → rtc recomputation w w'.
Proof.
  intros Hcb. induction hs as [|h hs IH]; intros w w' H; simpl in H.
  - injection H as <-. apply rtc_refl.
  - apply bind_Ok in H as (w1 & H1 & H). apply IH in H.
    destruct (is_open h w).
    + eapply rtc_l; [by apply Hcb|done].
    + by injection H1 as <-.
Qed.

Lemma item_inserted_recomputation (key : string) (w w' : world) :
  item_inserted key w = Ok w' → recomputation w w'.
Proof.
  unfold item_inserted. destruct (_ && _).
  - apply reattach_recomputation.
  - intros [= <-]. by left.
Qed.

Lemma item_removed_recomputation (key : string) (w w' : world) :
  item_removed key w = Ok w' → recomputation w w'.
Proof.
  unfold item_removed. destruct (_ && _).
  - apply reattach_recomputation.
  - intros [= <-]. by left.
Qed.

Lemma source_registered_recomputation (w w' : world) :
  source_registered w = Ok w' → rtc recomputation w w'.
Proof.
  unfold source_registered. intros H. apply reattach_recomputation in H.
  eapply unassigned_rtc; [|by apply rtc_once].
  by destruct (_source (conn w)).
Qed.

Lemma register_recomputation (u : nat) (w w' : world) :
  register u w = Ok w' → rtc recomputation w w'.
Proof.
  unfold register. destruct (_closed (conn w)); [intros [= <-]; apply rtc_refl|].
  intros H. apply bind_Ok in H as (w1 & H1 & H).
  assert (rtc recomputation w w1) as Hr1.
  { revert H1. destruct (resolves u (source_reference (conn w))).
    - intros H1. apply source_registered_recomputation in H1.
      eapply unassigned_rtc; [|exact H1]. done.
    - intros [= <-]. apply rtc_refl. }
  etrans; [exact Hr1|].
  revert H. destruct (resolves u (target_reference (conn w1))).
  - intros H. apply reattach_recomputation in H.
    eapply unassigned_rtc; [|by apply rtc_once]. done.
  - intros [= <-]. apply rtc_refl.
Qed.

Lemma unregistered_unassigned (w : world) : unassigned w (unregistered w).
Proof.
  unfold unregistered.
  destruct (item_inserted_event_listener (conn w)); simpl;
    destruct (item_removed_event_listener (conn w)); by split.
Qed.

Lemma unassigned_trans (w1 w2 w3 : world) :
  unassigned w1 w2 → unassigned w2 w3 → unassigned w1 w3.
Proof. intros [? ?] [? ?]. split; congruence. Qed.

Lemma unregister_unassigned (u : nat) (w : world) : unassigned w (unregister u w).
Proof.
  unfold unregister. destruct (_closed (conn w)); [done|]. cbv zeta.
  destruct (unresolves u (source_reference (conn w)));
    match goal with
    | |- context [if unresolves u (target_reference (conn ?x)) then _ else _] =>
        destruct (unresolves u (target_reference (conn x)))
    end;
    repeat (first [ done
                  | eapply unassigned_trans; [|apply unregistered_unassigned] ]).
Qed.

(** Every event moves the descriptors of the line profiles through
    recomputations only. *)
Lemma step_recomputation (e : event) (w w' : world) :
  step e w = Ok w' → rtc recomputation w w'.
Proof.
  destruct e as [d index region|d region|region iv|u|u|]; simpl.
  - unfold insert_graphic. destruct (graphics w !! d); [|discriminate].
    intros H. apply (fire_recomputation _ _ (item_inserted_recomputation _)) in H.
    eapply unassigned_rtc; [|exact H]. done.
  - unfold remove_graphic. destruct (graphics w !! d); [|discriminate].
    case_decide; [|discriminate].
    intros Hf. apply (fire_recomputation _ _ (item_removed_recomputation _)) in Hf.
    eapply unassigned_rtc; [|exact Hf]. done.
  - unfold set_interval. destruct (graphic_objects w !! region) as [[?|]|]; try discriminate.
    intros H. apply (fire_recomputation _ _ reattach_recomputation) in H.
    eapply unassigned_rtc; [|exact H]. done.
  - apply register_recomputation.
  - intros [= <-]. apply rtc_once. left. apply unregister_unassigned.
  - intros [= <-]. apply rtc_once. by left.
Qed.

End IntervalListConnectionFacts.

(** ** Claims about IntervalListConnection *)

Module IntervalListConnectionClaims.
Import IntervalListConnection IntervalListConnectionFacts.

(** C6. With the target resolved and the graphics of the source in
    place, [reattach] returns; afterwards the target holds the projection
    of the source. It assigns the projection exactly when it differs from
    the value the target held: once, and logged as one change; when the
    two are equal the descriptors and the log of assignments are
    untouched. The item-inserted and item-removed callbacks for the key
    [graphics] are this recomputation, like the listener on every
    interval graphic; and whatever the event, each assignment it causes
    replaces a value by a different one. *)
Theorem recomputation_assigns_only_on_change (w : world) (t : nat)
    (current : list interval_descriptor) :
  _target (conn w) = Some t →
  interval_descriptors w !! t = Some current →
  source_graphics_exist w →
  (∃ w', reattach w = Ok w' ∧
         interval_descriptors w' !! t = Some (projected w) ∧
         (current = projected w → unassigned w w') ∧
         (current ≠ projected w →
            assigned w' = assigned w ++ [(t, projected w)])) ∧
  item_inserted "graphics" w = reattach w ∧
  item_removed "graphics" w = reattach w ∧
  (∀ e w', step e w = Ok w' → rtc recomputation w w').
Proof.
  intros Ht Hcur Hsrc. split; [|split; [|split]].
  - destruct (reattach_total w Hsrc) as [w' H].
    { intros t' Ht'. rewrite Ht in Ht'. injection Ht' as <-. by eexists. }
    exists w'. split; [done|].
    apply reattach_cases in H
      as (w2 & Hd & [(t' & current' & Ht' & Hcur' & Hne & ->)|[-> Heq]]).
    + rewrite Ht in Ht'. injection Ht' as <-.
      rewrite Hcur in Hcur'. injection Hcur' as <-.
      destruct Hd as (_ & _ & Hi & Ha & _). simpl.
      split; [by rewrite lookup_insert_eq|]. split; [done|].
      intros _. by rewrite Ha.
    + specialize (Heq t Ht). rewrite Hcur in Heq. injection Heq as Heq.
      pose proof (same_data_unassigned _ _ Hd) as [Hi Ha].
      split; [by rewrite Hi, Hcur, Heq|]. split; [done|]. done.
  - unfold item_inserted. rewrite Ht.
    by rewrite !bool_decide_eq_true_2 by (done || by eexists).
  - unfold item_removed. rewrite Ht.
    by rewrite !bool_decide_eq_true_2 by (done || by eexists).
  - intros e w'. apply step_recomputation.
Qed.

Example init_attached_world :
  init example_graphics example_objects example_descriptors (Some 0) (Some 1)
    = Ok attached_world.
Proof. vm_compute. reflexivity. Qed.

(** C6, at the example: the target already holds the projection, so a
    recomputation assigns nothing. *)
Lemma recomputation_assigns_only_on_change_witness :
  ∃ w', reattach attached_world = Ok w' ∧
        interval_descriptors w' !! 1 = Some (projected attached_world) ∧
        unassigned attached_world w'.
Proof.
  assert (source_graphics_exist attached_world) as Hsrc.
  { intros d [= <-]. exists [10; 11]. split; [reflexivity|].
    intros r Hr. apply elem_of_cons in Hr as [->|Hr]; [by eexists|].
    apply elem_of_cons in Hr as [->|Hr]; [by eexists|].
    by apply elem_of_nil in Hr. }
  destruct (recomputation_assigns_only_on_change attached_world 1
              [ {| d_interval := (1, 2)%Z; d_color := "#F00" |} ]
              eq_refl eq_refl Hsrc)
    as ((w' & Hre & Hlk & Heq & _) & _).
  exists w'. split; [exact Hre|]. split; [exact Hlk|].
  apply Heq. reflexivity.
Defined.

(** The recomputation does assign when a tracked interval changes, and
    does not when the interval is set to the value it has. *)
Example set_interval_assigns_on_change :
  (∃ w', set_interval 10 (3, 4)%Z attached_world = Ok w' ∧
         assigned w' = assigned attached_world
                         ++ [ (1, [ {| d_interval := (3, 4)%Z; d_color := "#F00" |} ]) ]) ∧
  (∃ w', set_interval 10 (1, 2)%Z attached_world = Ok w' ∧
         assigned w' = assigned attached_world).
Proof. split; eexists; (split; [vm_compute; reflexivity|reflexivity]). Qed.

(** [unregistered], the only callback that closes listeners, leaves the
    list of interval listeners as it is. *)
Lemma unregistered_keeps_interval_listeners (w : world) :
  interval_mutated_listeners (conn (unregistered w))
    = interval_mutated_listeners (conn w).
Proof.
  unfold unregistered.
  destruct (item_inserted_event_listener (conn w)); simpl;
    destruct (item_removed_event_listener (conn w)); reflexivity.
Qed.

(** C5. The code at the failing input: an IntervalListConnection between
    display item [0], which holds one interval graphic, and line profile
    [1] is closed. The listener on the interval graphic and the two
    listeners on the display item are still held by the connection and
    still open; they stay so if the unregistered callback runs as well;
    and a later change of the interval still reaches the line
    profile. *)
Theorem close_keeps_interval_listeners :
  ∃ w, init example_graphics example_objects example_descriptors (Some 0) (Some 1) = Ok w ∧
       _closed (conn (close w)) = true ∧
       interval_mutated_listeners (conn (close w)) = [3] ∧
       is_open 3 (close w) = true ∧
       item_inserted_event_listener (conn (close w)) = Some 0 ∧
       is_open 0 (close w) = true ∧
       item_removed_event_listener (conn (close w)) = Some 1 ∧
       is_open 1 (close w) = true ∧
       interval_mutated_listeners (conn (unregistered (close w))) = [3] ∧
       is_open 3 (unregistered (close w)) = true ∧
       ∃ w', set_interval 10 (3, 4)%Z (close w) = Ok w' ∧
             interval_descriptors w' !! 1
               = Some [ {| d_interval := (3, 4)%Z; d_color := "#F00" |} ].
Proof.
  exists attached_world. split; [apply init_attached_world|].
  repeat (split; [vm_compute; reflexivity|]).
  eexists. split; vm_compute; reflexivity.
Qed.

(** [close] and the closures of [__init__]: none of them reads
    [_closed]. *)
Lemma close_listeners_closed (hs : list nat) (w : world) :
  foldl (λ w' h, close_listener h w') (close w) hs
    = close (foldl (λ w' h, close_listener h w') w hs).
Proof. revert w. induction hs as [|h hs IH]; intros w; [done|]. simpl. by rewrite <- IH. Qed.

Lemma detach_closed (w : world) : detach (close w) = close (detach w).
Proof. unfold detach. cbn [conn close with_conn interval_mutated_listeners set_closed]. by rewrite close_listeners_closed. Qed.

Lemma attach_regions_closed (regions : list nat) (ds : list interval_descriptor)
    (w : world) :
  attach_regions regions ds (close w)
    = '(ds', w') ← attach_regions regions ds w; Ok (ds', close w').
Proof.
  revert ds w. induction regions as [|r regions IH]; intros ds w; [done|].
  simpl. destruct (graphic_objects w !! r) as [[iv|]|]; [|by apply IH|done].
  rewrite <- IH. done.
Qed.

Lemma reattach_closed (w : world) :
  reattach (close w) = w' ← reattach w; Ok (close w').
Proof.
  unfold reattach. rewrite detach_closed.
  set (w1 := detach w).
  change (_source (conn (close w1))) with (_source (conn w1)).
  change (graphics (close w1)) with (graphics w1).
  assert (∀ ds w2,
    match _target (conn (close w2)) with
    | Some t =>
        match interval_descriptors (close w2) !! t with
        | Some current =>
            if decide (current ≠ ds) then Ok (assign t ds (close w2))
            else Ok (close w2)
        | None => Raise AttributeError
        end
    | None => Ok (close w2)
    end
    = (match _target (conn w2) with
       | Some t =>
           match interval_descriptors w2 !! t with
           | Some current =>
               if decide (current ≠ ds) then Ok (assign t ds w2) else Ok w2
           | None => Raise AttributeError
           end
       | None => Ok w2
       end) ≫= λ w', Ok (close w')) as Hend.
  { intros ds w2.
    change (_target (conn (close w2))) with (_target (conn w2)).
    change (interval_descriptors (close w2)) with (interval_descriptors w2).
    destruct (_target (conn w2)) as [t|]; [|done].
    destruct (interval_descriptors w2 !! t) as [current|]; [|done].
    by case_decide. }
  destruct (_source (conn w1)) as [d|].
  - destruct (graphics w1 !! d) as [regions|]; [|done].
    rewrite attach_regions_closed.
    destruct (attach_regions regions [] w1) as [[ds w2]|f]; [|done].
    apply Hend.
  - apply Hend.
Qed.

Lemma attach_regions_fault (regions : list nat) (ds : list interval_descriptor)
    (w : world) (f : fault) :
  attach_regions regions ds w = Raise f → f = AttributeError.
Proof.
  revert ds w. induction regions as [|r regions IH]; intros ds w; [done|].
  simpl. destruct (graphic_objects w !! r) as [[iv|]|]; [apply IH|apply IH|congruence].
Qed.

Lemma reattach_fault (w : world) (f : fault) :
  reattach w = Raise f → f = AttributeError.
Proof.
  unfold reattach. generalize (detach w). clear w. intros w1.
  destruct (_source (conn w1)) as [d|].
  - destruct (graphics w1 !! d) as [regions|]; [|simpl; congruence].
    destruct (attach_regions regions [] w1) as [[ds w2]|f'] eqn:E.
    + simpl. destruct (_target (conn w2)) as [t|]; [|done].
      destruct (interval_descriptors w2 !! t) as [current|]; [|congruence].
      by case_decide.
    + simpl. apply attach_regions_fault in E. congruence.
  - simpl. destruct (_target (conn w1)) as [t|]; [|done].
    destruct (interval_descriptors w1 !! t) as [current|]; [|congruence].
    by case_decide.
Qed.

(** C9. [reattach], by which an IntervalListConnection sets its target
    from its source, never looks at [_closed]: on a closed connection
    it does what it does on an open one, and the fault it can end in is
    never the assertion fault. So do the item-inserted and item-removed
    callbacks. The code at the failing input: the IntervalListConnection
    between display item [0] and line profile [1] is closed; a change of
    the interval of graphic [10] then returns without a fault and the
    descriptors of the line profile have been rewritten, and so does
    the insertion of the interval graphic [12] into the display
    item. *)
Theorem closed_interval_list_connection_propagates :
  (∀ w, reattach (close w) = w' ← reattach w; Ok (close w')) ∧
  (∀ w, reattach (close w) ≠ Raise AssertionError) ∧
  (∀ w, item_inserted "graphics" (close w) ≠ Raise AssertionError) ∧
  (∀ w, item_removed "graphics" (close w) ≠ Raise AssertionError) ∧
  ∃ w, init example_graphics example_objects example_descriptors (Some 0) (Some 1)
         = Ok w ∧
       interval_descriptors w !! 1
         = Some [ {| d_interval := (1, 2)%Z; d_color := "#F00" |} ] ∧
       _closed (conn (close w)) = true ∧
       (∃ w', set_interval 10 (3, 4)%Z (close w) = Ok w' ∧
              _closed (conn w') = true ∧
              interval_descriptors w' !! 1
                = Some [ {| d_interval := (3, 4)%Z; d_color := "#F00" |} ] ∧
              assigned w' = assigned w
                ++ [ (1, [ {| d_interval := (3, 4)%Z; d_color := "#F00" |} ]) ]) ∧
       (∃ w', insert_graphic 0 2 12 (close w) = Ok w' ∧
              _closed (conn w') = true ∧
              interval_descriptors w' !! 1
                = Some [ {| d_interval := (1, 2)%Z; d_color := "#F00" |};
                         {| d_interval := (5, 6)%Z; d_color := "#F00" |} ]).
Proof.
  split; [apply reattach_closed|].
  split; [intros w H; by apply reattach_fault in H|].
  split.
  { intros w H. unfold item_inserted in H. case_match; [|done].
    by apply reattach_fault in H. }
  split.
  { intros w H. unfold item_removed in H. case_match; [|done].
    by apply reattach_fault in H. }
  exists attached_world. split; [vm_compute; reflexivity|].
  do 2 (split; [reflexivity|]).
  split; eexists; repeat split; vm_compute; reflexivity.
Qed.

End IntervalListConnectionClaims.

(** ** Claims about clone and the factory *)

Module ConnectionClaims.
Import Connection.















(** C10. The factory looks the stored discriminator up in its
    dictionary: it answers with a PropertyConnection built without
    arguments for [property-connection], with an IntervalListConnection
    built without arguments for [interval-list-connection], and with
    [None] for every other string; it never faults. The two objects are
    those the constructors leave when called without arguments. *)
Theorem connection_factory_by_type (lookup_id : string → string) :
  connection_factory lookup_id =
    (if decide (lookup_id "type" = "property-connection")
     then Some (PropertyConnectionObject
                  (PropertyConnection.new_connection None None None None))
     else if decide (lookup_id "type" = "interval-list-connection")
     then Some (IntervalListConnectionObject
                  (IntervalListConnection.new_connection None None))
     else None) ∧
  (∀ fuel h reg,
     PropertyConnection.init fuel h reg None None None None
       = Ok {| PropertyConnection.heap := h;
               PropertyConnection.registered := reg;
               PropertyConnection.conn :=
                 PropertyConnection.new_connection None None None None;
               PropertyConnection.set_log := [] |}) ∧
  (∀ gs objs descs,
     IntervalListConnection.init gs objs descs None None
       = Ok {| IntervalListConnection.graphics := gs;
               IntervalListConnection.graphic_objects := objs;
               IntervalListConnection.interval_descriptors := descs;
               IntervalListConnection.assigned := [];
               IntervalListConnection.listeners := [];
               IntervalListConnection.next_handle := 0;
               IntervalListConnection.conn :=
                 IntervalListConnection.new_connection None None |}).
Proof.
  split; [|split; reflexivity].
  unfold connection_factory, build_map.
  case_decide as H1; [by rewrite H1|].
  case_decide as H2; [by rewrite H2|].
  rewrite lookup_insert_ne by done. by rewrite lookup_singleton_ne.
Qed.

(** The factory on three records. *)
Example connection_factory_examples :
  connection_factory (λ _, "property-connection")
    = Some (PropertyConnectionObject
              (PropertyConnection.new_connection None None None None)) ∧
  connection_factory (λ _, "interval-list-connection")
    = Some (IntervalListConnectionObject
              (IntervalListConnection.new_connection None None)) ∧
  connection_factory (λ _, "data-item") = None ∧
  connection_factory (λ _, "") = None.
Proof. repeat split. Qed.

End ConnectionClaims.


(** ** Facts about the schema model *)

Module SchemaFacts.
Import Schema.







Lemma holds_ext (ctx ctx' : context) :
  (∀ p name, field_lookup ctx' p name = field_lookup ctx p name) →
  ∀ p name c, holds ctx' p name c ↔ holds ctx p name c.
Proof. intros H p name c. unfold holds. by rewrite H. Qed.

(** *** Ownership of holding relations *)





(** *** Lists *)







(** *** The operations keep the invariant *)

















(** *** Events *)

Lemma insert_item_events (o : nat) (key : string) (index v : nat)
    (ctx ctx' : context) :
  _insert_item o key index v ctx = Ok ctx' →
  events ctx' = events ctx ++ [item_inserted o key v index].
Proof.
  unfold _insert_item. intros H. apply bind_Ok in H as (fv & _ & H).
  destruct fv as [v0|k old|[|] l]; try discriminate.
  - apply bind_Ok in H as ([] & _ & H). by injection H as <-.
  - destruct (entities ctx !! v); [|discriminate]. by injection H as <-.
Qed.

Lemma append_item_events (o : nat) (key : string) (v : nat) (ctx ctx' : context) :
  _append_item o key v ctx = Ok ctx' →
  ∃ index, events ctx' = events ctx ++ [item_inserted o key v index].
Proof.
  unfold _append_item. intros H. apply bind_Ok in H as (fv & _ & H).
  destruct fv; try discriminate. eexists. by eapply insert_item_events.
Qed.

Lemma remove_item_events (o : nat) (key : string) (v : nat) (ctx ctx' : context) :
  _remove_item o key v ctx = Ok ctx' →
  ∃ index, events ctx' = events ctx ++ [item_removed o key v index].
Proof.
  unfold _remove_item. intros H. apply bind_Ok in H as (fv & _ & H).
  destruct fv as [v0|k old|k l]; try discriminate.
  destruct (list_index v l) as [index|]; [|discriminate].
  exists index. injection H as <-. by destruct k.
Qed.

Lemma counts_after_inserted (ctx ctx' : context) (o : nat) (key : string)
    (v index : nat) :
  events ctx' = events ctx ++ [item_inserted o key v index] →
  inserted_count ctx' o = S (inserted_count ctx o) ∧
  removed_count ctx' o = removed_count ctx o.
Proof.
  intros H. unfold inserted_count, removed_count. rewrite H, !filter_app, !length_app.
  rewrite filter_cons_True by (simpl; by rewrite bool_decide_eq_true_2).
  rewrite filter_cons_False by done. simpl. lia.
Qed.

Lemma counts_after_removed (ctx ctx' : context) (o : nat) (key : string)
    (v index : nat) :
  events ctx' = events ctx ++ [item_removed o key v index] →
  inserted_count ctx' o = inserted_count ctx o ∧
  removed_count ctx' o = S (removed_count ctx o).
Proof.
  intros H. unfold inserted_count, removed_count. rewrite H, !filter_app, !length_app.
  rewrite filter_cons_False by done.
  rewrite filter_cons_True by (simpl; by rewrite bool_decide_eq_true_2).
  simpl. lia.
Qed.

(** *** What each operation does to containers *)






End SchemaFacts.

(** ** Claims about the schema model *)

Module SchemaClaims.
Import Schema SchemaFacts.

(** C7. Whatever the array holds, components or references, a call of
    [_insert_item] or [_append_item] that returns has fired item-inserted
    once and nothing else, and a call of [_remove_item] that returns has
    fired item-removed once and nothing else: the counters of the entity
    move by (1, 0) and by (0, 1). In the scenario of the test the
    counters read (2, 0) after two component appends, (2, 1) after one
    removal, (4, 1) after two reference appends and (4, 2) after the
    removal of a reference. *)
Theorem array_events_fire_once (o : nat) (key : string) (index v : nat)
    (ctx ctx' : context) :
  (_insert_item o key index v ctx = Ok ctx' →
     events ctx' = events ctx ++ [item_inserted o key v index] ∧
     inserted_count ctx' o = S (inserted_count ctx o) ∧
     removed_count ctx' o = removed_count ctx o) ∧
  (_append_item o key v ctx = Ok ctx' →
     (∃ i, events ctx' = events ctx ++ [item_inserted o key v i]) ∧
     inserted_count ctx' o = S (inserted_count ctx o) ∧
     removed_count ctx' o = removed_count ctx o) ∧
  (_remove_item o key v ctx = Ok ctx' →
     (∃ i, events ctx' = events ctx ++ [item_removed o key v i]) ∧
     inserted_count ctx' o = inserted_count ctx o ∧
     removed_count ctx' o = S (removed_count ctx o)) ∧
  (∃ c1 c2 c3 c4,
     run events_test_1 SimpleEntityContext = Ok c1 ∧
     (inserted_count c1 0, removed_count c1 0) = (2, 0) ∧
     run events_test_2 c1 = Ok c2 ∧
     (inserted_count c2 0, removed_count c2 0) = (2, 1) ∧
     run events_test_3 c2 = Ok c3 ∧
     (inserted_count c3 0, removed_count c3 0) = (4, 1) ∧
     run events_test_4 c3 = Ok c4 ∧
     (inserted_count c4 0, removed_count c4 0) = (4, 2)).
Proof.
  split; [|split; [|split]].
  - intros H. apply insert_item_events in H. split; [done|].
    by eapply counts_after_inserted.
  - intros H. apply append_item_events in H as [i H]. split; [by exists i|].
    by eapply counts_after_inserted.
  - intros H. apply remove_item_events in H as [i H]. split; [by exists i|].
    by eapply counts_after_removed.
  - eexists _, _, _, _.
    repeat (split; [vm_compute; reflexivity|]). vm_compute. reflexivity.
Qed.

(** C7, at the first append of the test. *)
Lemma array_events_fire_once_witness :
  ∃ ctx', _append_item 0 "c_items" 1
            (create "item" ItemModel (create "c" ContainerModel SimpleEntityContext))
          = Ok ctx' ∧
          inserted_count ctx' 0 = 1 ∧ removed_count ctx' 0 = 0.
Proof.
  assert (∃ ctx', _append_item 0 "c_items" 1
            (create "item" ItemModel (create "c" ContainerModel SimpleEntityContext))
          = Ok ctx') as [ctx' H] by (eexists; vm_compute; reflexivity).
  exists ctx'. split; [exact H|].
  destruct (array_events_fire_once 0 "c_items" 0 1
              (create "item" ItemModel (create "c" ContainerModel SimpleEntityContext)) ctx')
    as (_ & Happend & _).
  destruct (Happend H) as (_ & Hi & Hr).
  rewrite Hi, Hr. split; vm_compute; reflexivity.
Defined.




End SchemaClaims.

(** ** Facts about records *)

Module SchemaRecordsFacts.
Import Schema SchemaRecords.

Lemma lookup_key_written (k : string) (f : field) (fs : list (string * field)) :
  NoDup fs.*1 → (k, f) ∈ fs →
  lookup_key k (map (λ nf, (nf.1, write_field nf.2)) fs) = Some (write_field f).
Proof.
  induction fs as [|[k' f'] fs IH]; simpl; intros Hnd Hin.
  - by apply elem_of_nil in Hin.
  - apply NoDup_cons in Hnd as [Hk' Hnd]. apply elem_of_cons in Hin as [[= <- <-]|Hin].
    + by rewrite decide_True.
    + rewrite decide_False; [by apply IH|].
      intros ->. apply Hk'. apply list_elem_of_fmap. by exists (k, f).
Qed.

Lemma lookup_key_header (k : string) (t : string) (u m : nat) (kvs : list (string * json)) :
  ¬ reserved k →
  lookup_key k (("type", JStr t) :: ("uuid", JUuid u) :: ("modified", JTime m) :: kvs)
    = lookup_key k kvs.
Proof.
  intros Hr. unfold reserved in Hr. simpl.
  repeat (rewrite decide_False; [|intros <-; apply Hr; auto]). done.
Qed.

Lemma mapM_read_specifier (ts : list (nat * bool)) :
  mapM read_specifier (map (λ t, JUuid t.1) ts) = Some (map (λ t, (t.1, false)) ts).
Proof.
  induction ts as [|t ts IH]; simpl; [done|]. by rewrite IH.
Qed.

Section RoundTrip.

Variable schema : gmap string (list (string * field_type)).
Hypothesis schema_wf : schema_ok schema.
Variable rec : json → option entity.
Variable bound : nat.
Hypothesis rec_ok : ∀ e, depth e ≤ bound → conforms schema e →
  rec (write_to_dict e) = Some (unresolved e).

Lemma mapM_rec_written (es : list entity) :
  Forall (conforms schema) es →
  foldr (λ e d, max (depth e) d) 0 es ≤ bound →
  mapM rec (map write_to_dict es) = Some (map unresolved es).
Proof.
  induction es as [|e es IH]; simpl; intros Hc Hd; [done|].
  apply Forall_cons in Hc as [He Hes].
  rewrite rec_ok by (done || lia). simpl. rewrite IH by (done || lia). done.
Qed.

Lemma read_field_written (ft : field_type) (f : field) :
  field_conforms schema ft f → field_depth f ≤ bound →
  read_field rec ft (Some (write_field f)) = Some (unresolved_field f).
Proof.
  intros Hc Hd. destruct Hc as [v|t r| |e He|es Hes|ts]; simpl in *.
  - done.
  - by destruct t.
  - done.
  - pose proof (rec_ok e Hd He) as Hr. destruct e as [t u m fs]. simpl in *.
    by rewrite Hr.
  - by rewrite mapM_rec_written.
  - by rewrite mapM_read_specifier.
Qed.

Lemma read_fields_written (kvs : list (string * json)) (fs : list (string * field))
    (fts : list (string * field_type)) :
  Forall2 (λ nf nt, nf.1 = nt.1 ∧ field_conforms schema nt.2 nf.2) fs fts →
  (∀ k f, (k, f) ∈ fs → lookup_key k kvs = Some (write_field f)) →
  foldr (λ nf d, max (field_depth nf.2) d) 0 fs ≤ bound →
  mapM (λ nt : string * field_type,
          f ← read_field rec nt.2 (lookup_key nt.1 kvs); Some (nt.1, f)) fts
    = Some (map (λ nf, (nf.1, unresolved_field nf.2)) fs).
Proof.
  induction 1 as [|[k f] [k' ft] fs fts [Hk Hc] _ IH]; simpl; intros Hl Hd; [done|].
  simpl in *. subst k'.
  rewrite (Hl k f) by (by left). rewrite read_field_written by (done || lia).
  simpl. rewrite IH; [done| |lia]. intros k0 f0 Hin. apply Hl. by right.
Qed.

End RoundTrip.

Lemma conforms_names schema (fs : list (string * field)) (fts : list (string * field_type)) :
  Forall2 (λ nf nt, nf.1 = nt.1 ∧ field_conforms schema nt.2 nf.2) fs fts →
  fs.*1 = fts.*1.
Proof.
  induction 1 as [|nf nt fs fts [Hk _] _ IH]; [done|].
  rewrite !fmap_cons. by f_equal.
Qed.

(** Reading back what was written, with fuel for the depth of the tree. *)
Lemma read_written (schema : gmap string (list (string * field_type))) (fuel : nat) :
  schema_ok schema →
  ∀ e, depth e ≤ fuel → conforms schema e →
       read_from_dict schema fuel (write_to_dict e) = Some (unresolved e).
Proof.
  intros Hok. induction fuel as [|fuel IH]; intros e Hd Hc.
  - destruct e. simpl in Hd. lia.
  - destruct Hc as [t u m fs fts Ht Hfs]. simpl in Hd.
    destruct (Hok t fts Ht) as [Hnd Hres].
    pose proof (conforms_names _ _ _ Hfs) as Hnames.
    cbn [write_to_dict].
    set (kvs := ("type", JStr t) :: ("uuid", JUuid u) :: ("modified", JTime m)
                  :: map (λ nf, (nf.1, write_field nf.2)) fs).
    assert (lookup_key "type" kvs = Some (JStr t)) as Hkt by done.
    assert (lookup_key "uuid" kvs = Some (JUuid u)) as Hku by done.
    assert (lookup_key "modified" kvs = Some (JTime m)) as Hkm by done.
    cbn [read_from_dict]. rewrite Hkt, Hku, Hkm, Ht. cbn [mbind option_bind].
    rewrite (read_fields_written schema (read_from_dict schema fuel) fuel IH kvs fs fts);
      [done|done| |lia].
    intros k f Hin. subst kvs. rewrite lookup_key_header.
    + apply lookup_key_written; [by rewrite Hnames|done].
    + apply Hres. rewrite <- Hnames. apply list_elem_of_fmap. by exists (k, f).
Qed.

Lemma write_unresolved_field (n : nat) (f : field) :
  (∀ e, depth e ≤ n → write_to_dict (unresolved e) = write_to_dict e) →
  field_depth f ≤ n → write_field (unresolved_field f) = write_field f.
Proof.
  intros IH Hd. destruct f as [v|tg r|[e|]|es|ts]; simpl in *.
  - done.
  - by destruct tg.
  - by apply IH.
  - done.
  - f_equal. induction es as [|e es IHes]; simpl in *; [done|].
    rewrite IH by lia. rewrite IHes by lia. done.
  - f_equal. induction ts as [|t ts IHts]; simpl; [done|]. by rewrite IHts.
Qed.

(** Forgetting which references are resolved does not show in the
    record. *)
Lemma write_unresolved_bounded (n : nat) :
  ∀ e, depth e ≤ n → write_to_dict (unresolved e) = write_to_dict e.
Proof.
  induction n as [|n IH]; intros [t u m fs] Hd; simpl in Hd; [lia|].
  simpl. do 4 f_equal.
  assert (foldr (λ nf d, max (field_depth nf.2) d) 0 fs ≤ n) as Hfs by lia.
  clear Hd. induction fs as [|[k f] fs IHfs]; simpl in *; [done|].
  rewrite (write_unresolved_field n) by (done || lia).
  rewrite IHfs by lia. done.
Qed.

Lemma write_unresolved (e : entity) : write_to_dict (unresolved e) = write_to_dict e.
Proof. by apply (write_unresolved_bounded (depth e)). Qed.

Lemma read_requires_uuid (schema : gmap string (list (string * field_type)))
    (fuel : nat) (kvs : list (string * json)) :
  lookup_key "uuid" kvs = None → read_from_dict schema fuel (JDict kvs) = None.
Proof.
  intros H. destruct fuel; simpl; [done|]. rewrite H.
  by destruct (lookup_key "type" kvs) as [[]|].
Qed.

End SchemaRecordsFacts.

(** ** Claims about records *)

Module SchemaRecordsClaims.
Import Schema SchemaRecords SchemaRecordsFacts.

(** C3. For every entity that conforms to the schema, reading the record
    that [write_to_dict] produced returns, given fuel for the nesting of
    its components, an entity with the same uuid, type and time, the same
    scalar fields, and the same tree of components: it is the entity
    written with every reference unresolved, and it writes to the very
    same record. *)
Theorem write_read_round_trip (schema : gmap string (list (string * field_type)))
    (e : entity) (fuel : nat) :
  schema_ok schema → conforms schema e → depth e ≤ fuel →
  ∃ e', read_from_dict schema fuel (write_to_dict e) = Some e' ∧
        e' = unresolved e ∧
        uuid e' = uuid e ∧ type_of e' = type_of e ∧ modified e' = modified e ∧
        (∀ name v, (name, scalar_field v) ∈ fields e' ↔ (name, scalar_field v) ∈ fields e) ∧
        write_to_dict e' = write_to_dict e.
Proof.
  intros Hok Hc Hd. exists (unresolved e).
  split; [by apply read_written|]. split; [done|].
  destruct e as [t u m fs]. simpl. repeat split; try done.
  - intros Hin. apply list_elem_of_fmap in Hin as ([k f] & Heq & Hin).
    simpl in Heq. injection Heq as -> Hf.
    destruct f as [v'|?|[?|]|?|?]; simpl in Hf; try discriminate.
    by injection Hf as ->.
  - intros Hin. apply list_elem_of_fmap. by exists (name, scalar_field v).
  - apply (write_unresolved (Entity t u m fs)).
Qed.

Lemma example_schema_ok : schema_ok example_schema.
Proof.
  intros t fts H. unfold example_schema in H.
  apply lookup_insert_Some in H as [[<- <-]|[_ H]].
  - split; [by apply (bool_decide_unpack _)|].
    intros k Hk [-> | [-> | ->]]; cbn in Hk;
      repeat (apply elem_of_cons in Hk as [Hk|Hk]; [discriminate|]);
      by apply elem_of_nil in Hk.
  - apply lookup_singleton_Some in H as [<- <-].
    split; [by apply (bool_decide_unpack _)|].
    intros k Hk [-> | [-> | ->]]; cbn in Hk;
      repeat (apply elem_of_cons in Hk as [Hk|Hk]; [discriminate|]);
      by apply elem_of_nil in Hk.
Qed.

Lemma example_entity_conforms : conforms example_schema example_entity.
Proof.
  assert (∀ u m v, conforms example_schema
                     (Entity "item" u m [ ("flag", scalar_field v) ])) as Hitem.
  { intros u m v. econstructor; [reflexivity|].
    repeat constructor. }
  econstructor; [reflexivity|].
  repeat (apply Forall2_cons_2; [split; [reflexivity|]|]); [| | | |apply Forall2_nil_2].
  - constructor. apply Forall_cons_2; [apply Hitem|apply Forall_nil_2].
  - constructor.
  - constructor. apply Hitem.
  - constructor.
Qed.

(** C3, at the example: the record is read back with two levels of
    fuel, and both references come back unresolved. *)
Lemma write_read_round_trip_witness :
  ∃ e', read_from_dict example_schema 2 (write_to_dict example_entity) = Some e' ∧
        uuid e' = 0 ∧
        write_to_dict e' = write_to_dict example_entity ∧
        (("r_item", reference_field (Some 3) false) ∈ fields e').
Proof.
  destruct (write_read_round_trip example_schema example_entity 2
              example_schema_ok example_entity_conforms)
    as (e' & Hread & -> & Hu & _ & _ & _ & Hw); [vm_compute; lia|].
  eexists. split; [exact Hread|]. split; [exact Hu|]. split; [exact Hw|].
  vm_compute. do 3 right. left.
Defined.

(** A record without a uuid is a read failure. *)
Example read_without_uuid_fails :
  read_from_dict example_schema 2 (JDict [ ("type", JStr "item"); ("modified", JTime 1) ])
    = None.
Proof. by apply read_requires_uuid. Qed.

End SchemaRecordsClaims.

(** ** More about PropertyConnection *)

Module PropertyConnectionExtras.
Import PropertyConnection PropertyConnectionFacts.

Lemma bind_keeps_assertions {A B} (m : result A) (k : A → result B) :
  m ≠ Raise AssertionError → (∀ a, m = Ok a → k a ≠ Raise AssertionError) →
  m ≫= k ≠ Raise AssertionError.
Proof. destruct m as [a|f]; intros H1 H2; [by apply H2 | intros [= E]; apply H1; by rewrite E]. Qed.

Lemma store_keeps_assertions (w : world) (o : nat) (n : string) (v : value) :
  store w o n v ≠ Raise AssertionError.
Proof. unfold store. by repeat case_match. Qed.

Lemma getattr_keeps_assertions (w : world) (o : nat) (n : string) :
  getattr w o n ≠ Raise AssertionError.
Proof. unfold getattr. by repeat case_match. Qed.

Section Assertions.

Variable rec : world → nat → string → value → result world.
Hypothesis rec_keeps : ∀ w o n v,
  _closed (conn w) = false → rec w o n v ≠ Raise AssertionError.

Lemma set_target_from_source_with_keeps (w : world) (v : value) :
  _closed (conn w) = false →
  set_target_from_source_with rec w v ≠ Raise AssertionError.
Proof.
  intros Hc. unfold set_target_from_source_with. rewrite Hc. cbn [negb assert].
  rewrite bind_ret. destruct (suppress (conn w)); [done|].
  repeat case_match; try done.
  apply bind_keeps_assertions; [by apply rec_keeps|done].
Qed.

Lemma set_source_from_target_with_keeps (w : world) (v : value) :
  _closed (conn w) = false →
  set_source_from_target_with rec w v ≠ Raise AssertionError.
Proof.
  intros Hc. unfold set_source_from_target_with. rewrite Hc. cbn [negb assert].
  rewrite bind_ret. destruct (suppress (conn w)); [done|].
  apply bind_keeps_assertions; [|done].
  case_match; [by apply rec_keeps|done].
Qed.

End Assertions.

Lemma setattr_keeps_assertions (fuel : nat) :
  ∀ w o n v,
    (_closed (conn w) = true →
       binding (conn w) = None ∧ target_property_changed_listener (conn w) = None) →
    setattr fuel w o n v ≠ Raise AssertionError.
Proof.
  induction fuel as [|fuel IH]; intros w o n v Hcl; [cbn; congruence|].
  assert (∀ w o n v, _closed (conn w) = false →
                     setattr fuel w o n v ≠ Raise AssertionError) as Hrec.
  { intros w0 o0 n0 v0 Hc0. apply IH. congruence. }
  rewrite setattr_S.
  apply bind_keeps_assertions; [apply store_keeps_assertions|].
  intros w1 H1. apply store_spec in H1 as (Hc1 & _).
  apply bind_keeps_assertions.
  - case_decide as Hl; [|done]. unfold target_property_changed.
    case_decide; [|done].
    apply bind_keeps_assertions; [apply getattr_keeps_assertions|].
    intros x _. apply set_source_from_target_with_keeps; [done|].
    rewrite Hc1. destruct (_closed (conn w)); [|done].
    destruct Hcl as [_ Hn]; [done|]. congruence.
  - intros w2 H2. destruct (binding (conn w1)) as [b|] eqn:Hb; [|done].
    destruct (decide (b_source b = o)); [|done]. unfold binding_property_changed.
    destruct (decide (n = b_property b)); [|done].
    apply bind_keeps_assertions; [apply getattr_keeps_assertions|].
    intros x _. apply set_target_from_source_with_keeps; [done|].
    assert (conn w2 = conn w1) as ->.
    { revert H2. case_decide; [|by intros [= <-]].
      intros H2. apply target_property_changed_frame in H2 as [? _]; [done|].
      apply setattr_frame. }
    rewrite Hc1. destruct (_closed (conn w)); [|done].
    destruct Hcl as [Hn _]; [done|]. congruence.
Qed.

Lemma configure_binding_keeps_assertions (fuel : nat) (w : world) :
  _closed (conn w) = false →
  (is_Some (_source (conn w)) → is_Some (_target (conn w)) → binding (conn w) = None) →
  configure_binding fuel w ≠ Raise AssertionError.
Proof.
  intros Hc Hb. unfold configure_binding.
  destruct (_source (conn w)) as [s|] eqn:Hs; [|done].
  destruct (_target (conn w)) as [t|] eqn:Ht; [|done].
  rewrite Hb by (by eexists). rewrite bool_decide_eq_true_2 by done.
  cbn [assert]. rewrite bind_ret.
  destruct (source_property (conn w)) as [sp|]; [|done].
  apply bind_keeps_assertions; [apply getattr_keeps_assertions|].
  intros x _. apply set_target_from_source_with_keeps; [|done].
  intros w0 o n v Hc0. apply setattr_keeps_assertions. congruence.
Qed.

Lemma configure_target_keeps_assertions (fuel : nat) (w : world) :
  _closed (conn w) = false →
  target_property_changed_listener (conn w) = None → binding (conn w) = None →
  configure_target fuel w ≠ Raise AssertionError.
Proof.
  intros Hc Hl Hb. unfold configure_target.
  rewrite Hl, bool_decide_eq_true_2 by done. cbn [assert]. rewrite bind_ret.
  apply configure_binding_keeps_assertions; by destruct (_target (conn w)).
Qed.

Lemma inv_unbound_without_source (c : connection) :
  inv c → _source c = None → binding c = None.
Proof.
  intros [[_ Hb _ _] _] Hn. destruct (binding c) as [b|] eqn:Hbb; [|done].
  destruct (Hb b eq_refl) as [? _]. congruence.
Qed.

Lemma inv_unbound_without_target (c : connection) :
  inv c → _target c = None →
  binding c = None ∧ target_property_changed_listener c = None.
Proof.
  intros [[_ Hb Hl _] _] Hn. split.
  - destruct (binding c) as [b|] eqn:Hbb; [|done].
    destruct (Hb b eq_refl) as [_ [? ?]]. congruence.
  - destruct (target_property_changed_listener c) as [l|] eqn:Hll; [|done].
    specialize (Hl l eq_refl). congruence.
Qed.

Lemma register_keeps_assertions (fuel u : nat) (w : world) :
  inv (conn w) → register fuel u w ≠ Raise AssertionError.
Proof.
  intros Hinv. pose proof Hinv as [[Hs _ _ _] _].
  unfold register. cbn [conn with_registered].
  destruct (_closed (conn w)) eqn:Hcl; [done|].
  apply bind_keeps_assertions.
  - destruct (resolves u (source_reference (conn w))) eqn:Hr; [|done].
    apply andb_true_iff in Hr as [Hn _]. apply bool_decide_eq_true in Hn.
    apply configure_binding_keeps_assertions; [done|].
    intros _ _. cbn. by apply inv_unbound_without_source.
  - intros w1 H1.
    destruct (resolves u (target_reference (conn w1))) eqn:Hr; [|done].
    apply andb_true_iff in Hr as [Hn _]. apply bool_decide_eq_true in Hn.
    assert (inv (conn w1) ∧ _closed (conn w1) = false) as [Hinv1 Hcl1].
    { revert H1. destruct (resolves u (source_reference (conn w))) eqn:Hr; intros H1.
      - apply andb_true_iff in Hr as [Hn' _]. apply bool_decide_eq_true in Hn'.
        split.
        + apply configure_binding_inv in H1; [done|].
          destruct Hinv as [[? Hb Hl Hc] ?].
          split; unfold _source, _target in *; simpl; try done; try congruence.
          intros b Hbb. destruct (Hb b Hbb) as [? _]. congruence.
        + apply configure_binding_closed in H1; [|done]. by rewrite H1.
      - injection H1 as <-. done. }
    destruct (inv_unbound_without_target _ Hinv1 Hn) as [Hb1 Hl1].
    by apply configure_target_keeps_assertions.
Qed.

Lemma source_specifier_changed_keeps_assertions (fuel : nat) (s : option nat) (w : world) :
  inv (conn w) → _closed (conn w) = false →
  source_specifier_changed fuel s w ≠ Raise AssertionError.
Proof.
  intros Hinv Hcl. unfold source_specifier_changed. rewrite Hcl.
  cbn [negb assert]. rewrite bind_ret. case_decide as Hon; [done|].
  destruct (resolve w s) as [new|]; [|by destruct (_source (conn w))].
  destruct (_source (conn w)) as [old|] eqn:Hold;
    (apply configure_binding_keeps_assertions; [done|]); intros _ _; cbn; [done|].
  by apply inv_unbound_without_source.
Qed.

Lemma target_specifier_changed_keeps_assertions (fuel : nat) (s : option nat) (w : world) :
  inv (conn w) → _closed (conn w) = false →
  target_specifier_changed fuel s w ≠ Raise AssertionError.
Proof.
  intros Hinv Hcl. unfold target_specifier_changed. rewrite Hcl.
  cbn [negb assert]. rewrite bind_ret. case_decide as Hon; [done|].
  destruct (resolve w s) as [new|]; [|by destruct (_target (conn w))].
  destruct (_target (conn w)) as [old|] eqn:Hold;
    apply configure_target_keeps_assertions; try done; cbn;
    by apply inv_unbound_without_target.
Qed.

(** X1. No run from a construction ever trips one of the four [assert]
    statements of the class in a registration or in an assignment,
    whatever the fuel; while the connection is open no event at all
    does. *)
Theorem reachable_events_keep_assertions (fuel : nat)
    (h : gmap nat (gmap string value)) (reg : gset nat)
    (src : option nat) (sp : option string) (tgt : option nat) (tp : option string)
    (es : list event) (w : world) :
  init fuel h reg src sp tgt tp ≫= run fuel es = Ok w →
  (∀ f u, register f u w ≠ Raise AssertionError) ∧
  (∀ f o n v, setattr f w o n v ≠ Raise AssertionError) ∧
  (_closed (conn w) = false → ∀ f e, step f e w ≠ Raise AssertionError).
Proof.
  intros H. apply bind_Ok in H as (w0 & H0 & H).
  assert (inv (conn w)) as Hinv by eauto using run_inv, init_inv.
  assert (∀ f o n v, setattr f w o n v ≠ Raise AssertionError) as Hset.
  { intros f o n v. apply setattr_keeps_assertions.
    by destruct Hinv as [[_ _ _ Hc] _]. }
  split; [|split].
  - intros f u. by apply register_keeps_assertions.
  - exact Hset.
  - intros Hcl f [u|u|s|s|p|p|o n v|]; simpl; try rewrite Hcl; try done.
    + by apply register_keeps_assertions.
    + by apply source_specifier_changed_keeps_assertions.
    + by apply target_specifier_changed_keeps_assertions.
Qed.

Lemma reachable_events_keep_assertions_witness :
  init 2 example_heap ∅ (Some 0) (Some "a") None (Some "b")
    ≫= run 2 [SetTargetSpecifier (Some 1)] = Ok dormant_world ∧
  register 2 1 dormant_world ≠ Raise AssertionError ∧
  step 2 (SetTargetSpecifier (Some 0)) dormant_world ≠ Raise AssertionError.
Proof.
  assert (init 2 example_heap ∅ (Some 0) (Some "a") None (Some "b")
            ≫= run 2 [SetTargetSpecifier (Some 1)] = Ok dormant_world) as Hrun
    by (vm_compute; reflexivity).
  destruct (reachable_events_keep_assertions 2 example_heap ∅ (Some 0) (Some "a")
              None (Some "b") [SetTargetSpecifier (Some 1)] dormant_world Hrun)
    as (Hreg & _ & Hstep).
  split; [exact Hrun|]. split; [apply Hreg|]. apply Hstep. reflexivity.
Defined.

(** X2. Closing a connection stops the propagation in both directions:
    whatever it was bound to, an assignment to a declared property
    afterwards is that one store and nothing else, and the connection
    stays closed, without binding and without listener. *)
Theorem closed_connection_propagates_nothing (fuel : nat) (w : world)
    (o : nat) (n : string) (v : value) :
  declared w o n →
  ∃ w', setattr (S fuel) (close w) o n v = Ok w' ∧
        conn w' = conn (close w) ∧
        binding (conn w') = None ∧
        target_property_changed_listener (conn w') = None ∧
        set_log w' = set_log w ++ [(o, n, v)] ∧
        getattr w' o n = Ok v ∧
        ∀ o' p, (o', p) ≠ (o, n) → getattr w' o' p = getattr w o' p.
Proof.
  intros Hd. assert (declared (close w) o n) as Hd' by exact Hd.
  destruct (store_total _ _ _ v Hd') as [w' H]. exists w'.
  rewrite setattr_dormant by done. split; [done|].
  apply store_spec in H as (Hc & _ & Hl & Hg & Ho & _).
  rewrite Hc. repeat split; try done.
Qed.

Lemma closed_connection_propagates_nothing_witness :
  declared bound_world 0 "a" ∧
  ∃ w', setattr 2 (close bound_world) 0 "a" (VInt 7) = Ok w' ∧
        set_log w' = set_log bound_world ++ [(0, "a", VInt 7)] ∧
        getattr w' 1 "b" = Ok (VInt 1).
Proof.
  assert (declared bound_world 0 "a") as Hd
    by (eexists _, _; split; vm_compute; reflexivity).
  split; [exact Hd|].
  destruct (closed_connection_propagates_nothing 1 bound_world 0 "a" (VInt 7) Hd)
    as (w' & H & _ & _ & _ & Hl & _ & Ho).
  exists w'. split; [exact H|]. split; [exact Hl|].
  rewrite Ho by discriminate. vm_compute. reflexivity.
Defined.

(** X3. A connection constructed with both objects and both property
    names is bound at once: the target listener and the binding are in
    place, the flag is clear, and the construction has made one
    assignment, which copies the value of the source property to the
    target property. *)
Theorem construction_copies_source_to_target (fuel : nat)
    (h : gmap nat (gmap string value)) (reg : gset nat)
    (s t : nat) (sp tp : string) (ps pt : gmap string value) (v x : value) :
  sp ≠ "" → tp ≠ "" →
  h !! s = Some ps → ps !! sp = Some v →
  h !! t = Some pt → pt !! tp = Some x →
  ∃ w, init (S fuel) h reg (Some s) (Some sp) (Some t) (Some tp) = Ok w ∧
       conn w = {| _closed := false;
                   source_property := Some sp;
                   target_property := Some tp;
                   binding := Some {| b_source := s; b_property := sp |};
                   target_property_changed_listener := Some t;
                   source_reference := {| item_specifier := Some s; item := Some s |};
                   target_reference := {| item_specifier := Some t; item := Some t |};
                   suppress := false |} ∧
       heap w = <[t := <[tp := v]> pt]> h ∧
       registered w = reg ∧
       set_log w = [(t, tp, v)] ∧
       getattr w t tp = Ok v.
Proof.
  intros Hsp Htp Hs Hps Ht Hpt.
  assert (∀ p : string, p ≠ "" → truthy (Some p) = true) as Htruthy.
  { intros p Hp. simpl. apply negb_true_iff. by apply String.eqb_neq. }
  unfold init, new_connection. rewrite !Htruthy by done.
  cbn [conn _target target_reference item].
  unfold configure_target. cbn [conn target_property_changed_listener].
  rewrite bool_decide_eq_true_2 by done. cbn [assert]. rewrite bind_ret.
  cbn [_target conn target_reference item with_conn].
  unfold configure_binding.
  cbn [_source _target conn source_reference target_reference item with_conn
       set_listener binding source_property].
  rewrite bool_decide_eq_true_2 by done. cbn [assert]. rewrite bind_ret.
  unfold getattr at 1. cbn [heap with_conn]. rewrite Hs, Hps, bind_ret.
  unfold set_target_from_source, set_target_from_source_with.
  cbn [conn with_conn set_binding set_listener set_suppress _closed suppress negb assert
       _target target_reference item target_property].
  rewrite bind_ret, setattr_suppressed by done.
  unfold store. cbn [heap with_conn]. rewrite Ht, Hpt, bind_ret.
  eexists. split; [reflexivity|]. cbn.
  repeat split. unfold getattr. cbn. by rewrite !lookup_insert_eq.
Qed.

Lemma construction_copies_source_to_target_witness :
  ∃ w, init 1 example_heap ∅ (Some 0) (Some "a") (Some 1) (Some "b") = Ok w ∧
       set_log w = [(1, "b", VInt 1)] ∧ getattr w 1 "b" = Ok (VInt 1).
Proof.
  destruct (construction_copies_source_to_target 0 example_heap ∅ 0 1 "a" "b"
              {[ "a" := VInt 1 ]} {[ "b" := VInt 2 ]} (VInt 1) (VInt 2))
    as (w & H & _ & _ & _ & Hl & Hg); try (vm_compute; reflexivity);
    try discriminate.
  exists w. split; [exact H|]. split; [exact Hl|exact Hg].
Defined.

(** X4. A construction with both objects but no target property name,
    or the empty one, raises TypeError: the binding is configured at
    once and its first update assigns the attribute named [None]. *)
Theorem construction_without_target_property_faults (fuel : nat)
    (h : gmap nat (gmap string value)) (reg : gset nat)
    (s t : nat) (sp : string) (tp : option string)
    (ps : gmap string value) (v : value) :
  sp ≠ "" → truthy tp = false →
  h !! s = Some ps → ps !! sp = Some v →
  init fuel h reg (Some s) (Some sp) (Some t) tp = Raise TypeError.
Proof.
  intros Hsp Htp Hs Hps.
  assert (truthy (Some sp) = true) as Htruthy.
  { simpl. apply negb_true_iff. by apply String.eqb_neq. }
  unfold init, new_connection. rewrite Htruthy, Htp.
  cbn [conn _target target_reference item].
  unfold configure_target. cbn [conn target_property_changed_listener].
  rewrite bool_decide_eq_true_2 by done. cbn [assert]. rewrite bind_ret.
  cbn [_target conn target_reference item with_conn].
  unfold configure_binding.
  cbn [_source _target conn source_reference target_reference item with_conn
       set_listener binding source_property].
  rewrite bool_decide_eq_true_2 by done. cbn [assert]. rewrite bind_ret.
  unfold getattr at 1. cbn [heap with_conn]. rewrite Hs, Hps, bind_ret.
  reflexivity.
Qed.

Lemma construction_without_target_property_faults_witness :
  init 2 example_heap ∅ (Some 0) (Some "a") (Some 1) None = Raise TypeError ∧
  init 2 example_heap ∅ (Some 0) (Some "a") (Some 1) (Some "") = Raise TypeError.
Proof.
  split.
  - apply (construction_without_target_property_faults 2 example_heap ∅ 0 1 "a" None
             {[ "a" := VInt 1 ]} (VInt 1));
      try (vm_compute; reflexivity); discriminate.
  - apply (construction_without_target_property_faults 2 example_heap ∅ 0 1 "a" (Some "")
             {[ "a" := VInt 1 ]} (VInt 1));
      try (vm_compute; reflexivity); discriminate.
Defined.

(** X5. When the source of a bound connection is unregistered and
    registered again, the binding comes back but the listener on the
    target does not: [release_binding] closed both, and the callback of
    the source reference is [configure_binding] alone. From then on an
    assignment to the target property is no longer carried to the
    source. *)
Theorem source_reregistration_loses_target_listener (fuel : nat) (w : world)
    (s t : nat) (sp tp : string) :
  _closed (conn w) = false → suppress (conn w) = false →
  source_reference (conn w) = {| item_specifier := Some s; item := Some s |} →
  _target (conn w) = Some t → s ≠ t →
  source_property (conn w) = Some sp → target_property (conn w) = Some tp →
  declared w s sp → declared w t tp →
  ∃ w', register (S fuel) s (unregister s w) = Ok w' ∧
        binding (conn w') = Some {| b_source := s; b_property := sp |} ∧
        target_property_changed_listener (conn w') = None ∧
        ∀ f n v, setattr (S f) w' t n v = store w' t n v.
Proof.
  intros Hcl Hsu Hsrc Ht Hne Hsp Htp Hds Hdt.
  unfold _target in Ht.
  set (w1 := unregister s w).
  assert (conn w1 = set_source_reference {| item_specifier := Some s; item := None |}
                      (set_listener None (set_binding None (conn w)))) as Hc1.
  { unfold w1, unregister. cbn [conn with_registered]. rewrite Hcl.
    unfold unresolves. rewrite Hsrc. cbn [item].
    rewrite (bool_decide_eq_true_2 (Some s = Some s)) by done.
    cbn [release_binding with_conn with_registered conn set_source_reference
         set_binding set_listener target_reference set_item item item_specifier].
    rewrite Ht. rewrite bool_decide_eq_false_2 by congruence.
    cbn. by rewrite Hsrc. }
  assert (∀ o p, declared w o p → declared w1 o p) as Hd1.
  { intros o p Hd. unfold w1, unregister. cbn [conn with_registered]. rewrite Hcl.
    by repeat case_match. }
  unfold register. cbn [conn with_registered]. rewrite Hc1.
  cbn [_closed set_source_reference set_listener set_binding source_reference].
  rewrite Hcl.
  assert (resolves s {| item_specifier := Some s; item := None |} = true) as ->
    by (unfold resolves; cbn; by rewrite !bool_decide_eq_true_2).
  edestruct (configure_binding_total fuel) as (w' & H & Hc'); cycle 9.
  { rewrite H, bind_ret.
    assert (resolves s (target_reference (conn w')) = false) as ->.
    { unfold resolves. rewrite Hc'. cbn. rewrite Hc1. cbn. rewrite Ht.
      by rewrite bool_decide_eq_false_2. }
    exists w'. split; [done|].
    assert (binding (conn w') = Some {| b_source := s; b_property := sp |}) as Hb'
      by (rewrite Hc'; reflexivity).
    assert (target_property_changed_listener (conn w') = None) as Hl'
      by (rewrite Hc'; cbn; rewrite Hc1; reflexivity).
    split; [done|]. split; [done|].
    intros f n v. rewrite setattr_S.
    destruct (store w' t n v) as [w2|e] eqn:Hst; [|done].
    apply store_spec in Hst as (Hc2 & _).
    rewrite bind_ret, Hc2, Hl', Hb'.
    rewrite decide_False by done. rewrite bind_ret. cbn [b_source].
    by rewrite decide_False. }
  all: cbn; rewrite ?Hc1; cbn; try done.
  - by apply Hd1 in Hds.
  - by apply Hd1 in Hdt.
Qed.

Lemma source_reregistration_loses_target_listener_witness :
  ∃ w', register 2 0 (unregister 0 bound_world) = Ok w' ∧
        binding (conn w') = Some {| b_source := 0; b_property := "a" |} ∧
        target_property_changed_listener (conn w') = None ∧
        setattr 2 w' 1 "b" (VInt 9) = store w' 1 "b" (VInt 9).
Proof.
  destruct (source_reregistration_loses_target_listener 1 bound_world 0 1 "a" "b")
    as (w' & H & Hb & Hl & Hset); try (vm_compute; reflexivity); try discriminate.
  - eexists _, _; split; vm_compute; reflexivity.
  - eexists _, _; split; vm_compute; reflexivity.
  - exists w'. split; [exact H|]. split; [exact Hb|]. split; [exact Hl|]. apply Hset.
Defined.

(** X13. The registration that resolves the missing endpoint of an open
    connection brings the target up to date at once: it makes exactly
    one assignment, which copies the current value of the source
    property to the target property. This holds when the target was
    the missing endpoint, and when the source was. *)
Theorem registration_copies_source_value (fuel : nat) (w : world)
    (u o : nat) (sp tp : string) (v : value) :
  _closed (conn w) = false → suppress (conn w) = false →
  binding (conn w) = None →
  source_property (conn w) = Some sp → target_property (conn w) = Some tp →
  (target_reference (conn w) = {| item_specifier := Some u; item := None |} →
   target_property_changed_listener (conn w) = None →
   _source (conn w) = Some o →
   getattr w o sp = Ok v → declared w u tp →
   ∃ w', register (S fuel) u w = Ok w' ∧
         set_log w' = set_log w ++ [(u, tp, v)] ∧
         getattr w' u tp = Ok v ∧
         binding (conn w') = Some {| b_source := o; b_property := sp |} ∧
         target_property_changed_listener (conn w') = Some u) ∧
  (source_reference (conn w) = {| item_specifier := Some u; item := None |} →
   _target (conn w) = Some o →
   getattr w u sp = Ok v → declared w o tp →
   ∃ w', register (S fuel) u w = Ok w' ∧
         set_log w' = set_log w ++ [(o, tp, v)] ∧
         getattr w' o tp = Ok v ∧
         binding (conn w') = Some {| b_source := u; b_property := sp |}).
Proof.
  intros Hcl Hsu Hb Hsp Htp.
  assert (∀ w0 s t,
            _closed (conn w0) = false → suppress (conn w0) = false →
            binding (conn w0) = None →
            source_property (conn w0) = Some sp → target_property (conn w0) = Some tp →
            _source (conn w0) = Some s → _target (conn w0) = Some t →
            getattr w0 s sp = Ok v → declared w0 t tp →
            ∃ w', configure_binding (S fuel) w0 = Ok w' ∧
                  set_log w' = set_log w0 ++ [(t, tp, v)] ∧
                  getattr w' t tp = Ok v ∧
                  conn w' = set_binding (Some {| b_source := s; b_property := sp |})
                              (conn w0)) as Hconf.
  { intros w0 s t Hcl0 Hsu0 Hb0 Hsp0 Htp0 Hs0 Ht0 Hg0 Hd0.
    unfold configure_binding. rewrite Hs0, Ht0, Hb0, Hsp0.
    rewrite bool_decide_eq_true_2 by done. cbn [assert]. rewrite bind_ret.
    set (w1 := with_conn _ w0).
    assert (getattr w1 s sp = Ok v) as -> by exact Hg0.
    rewrite bind_ret. unfold set_target_from_source, set_target_from_source_with.
    assert (conn w1 = set_binding (Some {| b_source := s; b_property := sp |}) (conn w0))
      as Hc1 by reflexivity.
    rewrite Hc1. cbn [_closed set_binding suppress]. rewrite Hcl0, Hsu0.
    cbn [negb assert]. rewrite bind_ret.
    set (w2 := with_conn (set_suppress true) w1).
    assert (_target (conn w2) = Some t) as -> by exact Ht0.
    assert (target_property (conn w2) = Some tp) as -> by exact Htp0.
    rewrite setattr_suppressed by (unfold w2, w1; cbn; done).
    assert (declared w2 t tp) as Hd2 by exact Hd0.
    destruct (store_total w2 t tp v Hd2) as [w3 H3]. rewrite H3, bind_ret.
    apply store_spec in H3 as (Hc3 & _ & Hl3 & Hg3 & _).
    eexists. split; [reflexivity|]. split; [exact Hl3|]. split; [exact Hg3|].
    cbn [conn with_conn]. rewrite Hc3. unfold w2, w1. cbn [conn with_conn].
    rewrite <- Hsu0. by destruct (conn w0). }
  split.
  - intros Htr Hl Hs Hg Hd.
    unfold register. cbn [conn with_registered]. rewrite Hcl.
    assert (resolves u (source_reference (conn w)) = false) as ->.
    { unfold resolves. unfold _source in Hs. by rewrite Hs, bool_decide_eq_false_2. }
    rewrite bind_ret. cbn [conn with_registered]. rewrite Htr.
    assert (resolves u {| item_specifier := Some u; item := None |} = true) as ->
      by (unfold resolves; cbn; by rewrite !bool_decide_eq_true_2).
    unfold configure_target. cbn [conn with_conn with_registered].
    cbn [target_property_changed_listener set_target_reference].
    rewrite Hl, bool_decide_eq_true_2 by done. cbn [assert]. rewrite bind_ret.
    cbn [_target target_reference set_target_reference set_item item].
    edestruct (Hconf) as (w' & H & Hlog & Hget & Hc'); cycle 9.
    { rewrite H. exists w'. split; [done|]. split; [exact Hlog|]. split; [exact Hget|].
      rewrite Hc'. done. }
    all: cbn; try done.
  - intros Hsr Ht Hg Hd.
    unfold register. cbn [conn with_registered]. rewrite Hcl, Hsr.
    assert (resolves u {| item_specifier := Some u; item := None |} = true) as ->
      by (unfold resolves; cbn; by rewrite !bool_decide_eq_true_2).
    edestruct (Hconf) as (w' & H & Hlog & Hget & Hc'); cycle 9.
    { rewrite H, bind_ret.
      assert (resolves u (target_reference (conn w')) = false) as ->.
      { unfold resolves. rewrite Hc'. cbn. unfold _target in Ht. rewrite Ht.
        by rewrite bool_decide_eq_false_2. }
      exists w'. split; [done|]. split; [exact Hlog|]. split; [exact Hget|].
      rewrite Hc'. done. }
    all: cbn; try done.
Qed.

Lemma registration_copies_source_value_witness :
  ∃ w', register 1 1 dormant_world = Ok w' ∧
        set_log w' = [(1, "b", VInt 1)] ∧
        getattr w' 1 "b" = Ok (VInt 1).
Proof.
  destruct (registration_copies_source_value 0 dormant_world 1 0 "a" "b" (VInt 1))
    as [Htarget _]; try reflexivity.
  destruct Htarget as (w' & H & Hl & Hg & _); try reflexivity.
  - eexists _, _. split; vm_compute; reflexivity.
  - exists w'. split; [exact H|]. split; [exact Hl|exact Hg].
Defined.

(** X14. The two property names are read at different times. The
    binding takes the source property name when it is created: after
    [source_property] is assigned another name the binding still
    forwards the old property and ignores the new one. The target
    property name is read at every propagation: after [target_property]
    is assigned, the next change of the source goes to the new target
    property. *)
Theorem source_property_is_captured_target_property_is_live (fuel : nat) (w : world)
    (b : PropertyBinding) (t : nat) (tp p q : string) (v : value) :
  _closed (conn w) = false → suppress (conn w) = false →
  binding (conn w) = Some b →
  _target (conn w) = Some t → target_property (conn w) = Some tp →
  (∀ l, target_property_changed_listener (conn w) = Some l → l = t) →
  declared w (b_source b) (b_property b) → declared w t tp →
  (b_source b, b_property b) ≠ (t, tp) →
  p ≠ b_property b → (b_source b, p) ≠ (t, tp) →
  declared w t q → (b_source b, b_property b) ≠ (t, q) →
  (∃ w1 w2, step fuel (SetSourceProperty (Some p)) w = Ok w1 ∧
            source_property (conn w1) = Some p ∧
            binding (conn w1) = Some b ∧
            setattr (S (S fuel)) w1 (b_source b) (b_property b) v = Ok w2 ∧
            set_log w2 = set_log w ++ [(b_source b, b_property b, v); (t, tp, v)] ∧
            ∀ x, setattr (S fuel) w1 (b_source b) p x = store w1 (b_source b) p x) ∧
  (∃ w1 w2, step fuel (SetTargetProperty (Some q)) w = Ok w1 ∧
            setattr (S (S fuel)) w1 (b_source b) (b_property b) v = Ok w2 ∧
            set_log w2 = set_log w ++ [(b_source b, b_property b, v); (t, q, v)] ∧
            getattr w2 t q = Ok v).
Proof.
  intros Hcl Hsu Hb Ht Htp Hl Hds Hdt Hne Hp Hpt Hdq Hneq. split.
  - set (w1 := with_conn (set_source_property (Some p)) w).
    destruct (propagate_forward fuel w1 b t tp v) as (x1 & x2 & H1 & H2 & H);
      try done.
    exists w1, (with_conn (set_suppress false) x2).
    split; [by simpl; rewrite Hcl|]. split; [done|]. split; [done|].
    split; [exact H|]. split.
    + apply store_spec in H1 as (_ & _ & Hl1 & _).
      apply store_spec in H2 as (_ & _ & Hl2 & _).
      cbn. rewrite Hl2. cbn. rewrite Hl1. cbn. by rewrite <- app_assoc.
    + intros x. rewrite setattr_S.
      destruct (store w1 (b_source b) p x) as [w2|e] eqn:Hst; [|done].
      apply store_spec in Hst as (Hc2 & _). rewrite bind_ret, Hc2.
      assert (binding (conn w1) = Some b) as -> by exact Hb.
      assert ((if decide (target_property_changed_listener (conn w1) = Some (b_source b))
               then target_property_changed (setattr fuel) w2 (b_source b) p
               else Ok w2) = Ok w2) as ->.
      { case_decide as Hl'; [|done]. apply Hl in Hl'.
        unfold target_property_changed. rewrite Hc2.
        assert (target_property (conn w1) = Some tp) as -> by exact Htp.
        case_decide as Hq; [|done]. injection Hq as ->. by rewrite Hl' in Hpt. }
      rewrite bind_ret, decide_True by done.
      unfold binding_property_changed. by rewrite decide_False.
  - set (w1 := with_conn (set_target_property (Some q)) w).
    destruct (propagate_forward fuel w1 b t q v) as (x1 & x2 & H1 & H2 & H);
      try done.
    exists w1, (with_conn (set_suppress false) x2).
    split; [by simpl; rewrite Hcl|]. split; [exact H|].
    apply store_spec in H1 as (_ & _ & Hl1 & _).
    apply store_spec in H2 as (_ & _ & Hl2 & Hg2 & _).
    split; [|exact Hg2].
    cbn. rewrite Hl2. cbn. rewrite Hl1. cbn. by rewrite <- app_assoc.
Qed.
Lemma source_property_is_captured_target_property_is_live_witness :
  ∃ w1 w2,
    step 0 (SetTargetProperty (Some "d"))
      {| heap := {[ 0 := {[ "a" := VInt 1; "c" := VInt 0 ]};
                    1 := {[ "b" := VInt 1; "d" := VInt 0 ]} ]};
         registered := ∅; conn := conn bound_world; set_log := [] |} = Ok w1 ∧
    setattr 2 w1 0 "a" (VInt 5) = Ok w2 ∧
    set_log w2 = [(0, "a", VInt 5); (1, "d", VInt 5)] ∧
    getattr w2 1 "d" = Ok (VInt 5).
Proof.
  destruct (source_property_is_captured_target_property_is_live 0
              {| heap := {[ 0 := {[ "a" := VInt 1; "c" := VInt 0 ]};
                            1 := {[ "b" := VInt 1; "d" := VInt 0 ]} ]};
                 registered := ∅; conn := conn bound_world; set_log := [] |}
              {| b_source := 0; b_property := "a" |} 1 "b" "c" "d" (VInt 5))
    as [_ (w1 & w2 & H1 & H2 & Hl & Hg)];
    try reflexivity; try discriminate.
  - intros l [= <-]. reflexivity.
  - eexists _, _. split; vm_compute; reflexivity.
  - eexists _, _. split; vm_compute; reflexivity.
  - eexists _, _. split; vm_compute; reflexivity.
  - exists w1, w2. split; [exact H1|]. split; [exact H2|]. split; [exact Hl|exact Hg].
Defined.
(** X17. A connection from a property to itself does not loop: an
    assignment to the property returns after two levels of dispatch,
    the value has been stored three times (the assignment, the copy
    made by the target listener under the flag, and the copy made by
    the binding under the flag), and the connection is as it was. *)
Theorem self_connection_terminates (fuel : nat) (w : world) (t : nat) (tp : string)
    (v : value) :
  _closed (conn w) = false → suppress (conn w) = false →
  binding (conn w) = Some {| b_source := t; b_property := tp |} →
  target_property_changed_listener (conn w) = Some t →
  _target (conn w) = Some t → target_property (conn w) = Some tp →
  declared w t tp →
  ∃ w', setattr (S (S fuel)) w t tp v = Ok w' ∧
        conn w' = conn w ∧
        set_log w' = set_log w ++ [(t, tp, v); (t, tp, v); (t, tp, v)] ∧
        getattr w' t tp = Ok v.
Proof.
  intros Hcl Hsu Hb Hl Ht Htp Hd.
  destruct (store_total w t tp v Hd) as [w1 H1].
  pose proof (store_spec _ _ _ _ _ H1) as (Hc1 & _ & Hl1 & Hg1 & _ & Hd1).
  assert (declared (with_conn (set_suppress true) w1) t tp) as Hd1'
    by (apply Hd1 in Hd; exact Hd).
  destruct (store_total _ _ _ v Hd1') as [w2 H2].
  pose proof (store_spec _ _ _ _ _ H2) as (Hc2 & _ & Hl2 & Hg2 & _ & Hd2).
  remember (with_conn (set_suppress false) w2) as w2' eqn:Hw2'.
  assert (conn w2' = conn w) as Hc2'.
  { rewrite Hw2'. cbn [conn with_conn]. rewrite Hc2. cbn [conn with_conn].
    rewrite Hc1. by apply suppress_restore. }
  assert (getattr w2' t tp = Ok v) as Hg2' by (by rewrite Hw2').
  assert (declared w2 t tp → declared w2' t tp) as Hd2w by (by rewrite Hw2').
  assert (declared (with_conn (set_suppress true) w2') t tp) as Hd2'
    by (apply Hd2, Hd2w in Hd1'; exact Hd1').
  destruct (store_total _ _ _ v Hd2') as [w3 H3].
  pose proof (store_spec _ _ _ _ _ H3) as (Hc3 & _ & Hl3 & Hg3 & _).
  exists (with_conn (set_suppress false) w3).
  assert (setattr (S (S fuel)) w t tp v = Ok (with_conn (set_suppress false) w3)) as Hrun.
  { rewrite setattr_S, H1, bind_ret, Hc1, Hb, Hl, decide_True by done.
    unfold target_property_changed. rewrite Hc1, Htp, decide_True by done.
    rewrite Hg1, bind_ret. unfold set_source_from_target_with.
    rewrite Hc1, Hcl, Hsu. cbn [negb assert]. rewrite bind_ret.
    replace (binding (conn (with_conn (set_suppress true) w1)))
      with (Some {| b_source := t; b_property := tp |})
      by (cbn; rewrite Hc1; done).
    cbn [b_source b_property].
    rewrite setattr_suppressed by (cbn; rewrite ?Hc1; done).
    rewrite H2, !bind_ret, <- Hw2'.
    cbn [b_source]. rewrite decide_True by done.
    unfold binding_property_changed. cbn [b_source b_property].
    rewrite decide_True by done.
    rewrite Hg2'.
    rewrite bind_ret. unfold set_target_from_source_with.
    rewrite Hc2', Hcl, Hsu. cbn [negb assert]. rewrite bind_ret.
    replace (_target (conn (with_conn (set_suppress true) w2'))) with (Some t)
      by (cbn; rewrite Hc2'; done).
    replace (target_property (conn (with_conn (set_suppress true) w2'))) with (Some tp)
      by (cbn; rewrite Hc2'; done).
    rewrite setattr_suppressed by (cbn; rewrite ?Hc2'; done).
    by rewrite H3. }
  split; [exact Hrun|]. split; [|split].
  - cbn [conn with_conn]. rewrite Hc3. cbn [conn with_conn]. rewrite Hc2'.
    by apply suppress_restore.
  - cbn. rewrite Hl3. cbn. rewrite Hw2'. cbn. rewrite Hl2. cbn. rewrite Hl1.
    by rewrite <- !app_assoc.
  - exact Hg3.
Qed.

Lemma self_connection_terminates_witness :
  ∃ w w', init 2 example_heap ∅ (Some 0) (Some "a") (Some 0) (Some "a") = Ok w ∧
          setattr 2 w 0 "a" (VInt 7) = Ok w' ∧
          getattr w' 0 "a" = Ok (VInt 7).
Proof.
  assert (∃ w, init 2 example_heap ∅ (Some 0) (Some "a") (Some 0) (Some "a") = Ok w ∧
               _closed (conn w) = false ∧ suppress (conn w) = false ∧
               binding (conn w) = Some {| b_source := 0; b_property := "a" |} ∧
               target_property_changed_listener (conn w) = Some 0 ∧
               _target (conn w) = Some 0 ∧ target_property (conn w) = Some "a" ∧
               heap w !! 0 = Some {[ "a" := VInt 1 ]})
    as (w & H & Hcl & Hsu & Hb & Hl & Ht & Htp & Hh)
    by (eexists; repeat split; vm_compute; reflexivity).
  destruct (self_connection_terminates 0 w 0 "a" (VInt 7) Hcl Hsu Hb Hl Ht Htp)
    as (w' & H' & _ & _ & Hg).
  - eexists _, _. split; [exact Hh|]. vm_compute. reflexivity.
  - by exists w, w'.
Defined.

End PropertyConnectionExtras.

(** ** More about IntervalListConnection *)

Module IntervalListConnectionExtras.
Import IntervalListConnection IntervalListConnectionFacts IntervalListeners.

Lemma close_listeners_listeners (hs : list nat) :
  ∀ w, listeners (foldl (λ w' h, close_listener h w') w hs)
         = filter (λ hl, hl.1 ∉ hs) (listeners w) ∧
       next_handle (foldl (λ w' h, close_listener h w') w hs) = next_handle w.
Proof.
  induction hs as [|h hs IH]; intros w; simpl.
  - split; [|done]. symmetry.
    induction (listeners w) as [|x l IHl]; [done|].
    rewrite filter_cons_True; [by f_equal|]. apply not_elem_of_nil.
  - destruct (IH (close_listener h w)) as [-> ->]. split; [|done]. simpl.
    rewrite list_filter_filter. apply list_filter_iff.
    intros x. rewrite not_elem_of_cons. tauto.
Qed.

Lemma detach_listeners (w : world) :
  listeners (detach w)
    = filter (λ hl, hl.1 ∉ interval_mutated_listeners (conn w)) (listeners w) ∧
  next_handle (detach w) = next_handle w ∧
  conn (detach w) = set_interval_mutated_listeners [] (conn w).
Proof.
  unfold detach. simpl.
  destruct (close_listeners_listeners (interval_mutated_listeners (conn w)) w) as [-> ->].
  destruct (close_listeners_same_data (interval_mutated_listeners (conn w)) w) as [_ ->].
  done.
Qed.

Lemma attach_regions_listeners (regions : list nat) :
  ∀ ds w ds' w',
    attach_regions regions ds w = Ok (ds', w') →
    ∃ new : list (nat * nat),
      listeners w' = listeners w ++ ((λ hr, (hr.1, PropertyChanged hr.2)) <$> new) ∧
      interval_mutated_listeners (conn w')
        = interval_mutated_listeners (conn w) ++ new.*1 ∧
      new.*2 = filter (λ r, is_Some (descriptor_of (graphic_objects w) r)) regions ∧
      item_inserted_event_listener (conn w') = item_inserted_event_listener (conn w) ∧
      item_removed_event_listener (conn w') = item_removed_event_listener (conn w).
Proof.
  induction regions as [|r regions IH]; intros ds w ds' w' H; simpl in H.
  - injection H as <- <-. exists []. simpl. by rewrite !app_nil_r.
  - destruct (graphic_objects w !! r) as [[iv|]|] eqn:Hr; [| |discriminate].
    + apply IH in H as (new & Hl & Hi & Hn & Hii & Hir).
      exists ((next_handle w, r) :: new). simpl in *.
      rewrite Hl, Hi, <- !app_assoc. simpl. split; [done|]. split; [done|].
      split; [|done].
      rewrite filter_cons_True; [by f_equal|].
      unfold descriptor_of. rewrite Hr. by eexists.
    + apply IH in H as (new & Hl & Hi & Hn & Hii & Hir). exists new.
      split; [done|]. split; [done|]. split; [|done].
      rewrite filter_cons_False; [done|].
      unfold descriptor_of. rewrite Hr. by intros [? ?].
Qed.

Lemma attach_regions_exist (regions : list nat) :
  ∀ ds w res,
    attach_regions regions ds w = Ok res →
    ∀ r, r ∈ regions → is_Some (graphic_objects w !! r).
Proof.
  induction regions as [|r regions IH]; intros ds w res H r' Hr'; simpl in H.
  - by apply elem_of_nil in Hr'.
  - destruct (graphic_objects w !! r) as [[iv|]|] eqn:Hr; [| |discriminate];
      apply elem_of_cons in Hr' as [->|Hr']; try (by rewrite Hr; eexists);
      eapply IH in H; try exact Hr'; exact H.
Qed.

(** The listeners after [reattach]: those that were held are closed, and
    one new listener per interval graphic of the source is open and
    held. *)
Lemma reattach_listeners (w w' : world) :
  reattach w = Ok w' →
  ∃ new : list (nat * nat),
    listeners w'
      = filter (λ hl, hl.1 ∉ interval_mutated_listeners (conn w)) (listeners w)
          ++ ((λ hr, (hr.1, PropertyChanged hr.2)) <$> new) ∧
    interval_mutated_listeners (conn w') = new.*1 ∧
    new.*2 = interval_regions w ∧
    item_inserted_event_listener (conn w') = item_inserted_event_listener (conn w) ∧
    item_removed_event_listener (conn w') = item_removed_event_listener (conn w).
Proof.
  unfold reattach. intros H. apply bind_Ok in H as ([ds w2] & H1 & H).
  destruct (detach_listeners w) as (Hl & _ & Hc).
  pose proof (detach_same_data w) as (Hg & Ho & _ & _ & Hs & _).
  assert (∃ new : list (nat * nat),
            listeners w2 = listeners (detach w)
                             ++ ((λ hr, (hr.1, PropertyChanged hr.2)) <$> new) ∧
            interval_mutated_listeners (conn w2) = new.*1 ∧
            new.*2 = interval_regions w ∧
            item_inserted_event_listener (conn w2)
              = item_inserted_event_listener (conn w) ∧
            item_removed_event_listener (conn w2)
              = item_removed_event_listener (conn w)) as (new & Hl2 & Hi2 & Hn & Hii & Hir).
  { unfold interval_regions, _source in *. rewrite Hs in H1.
    destruct (item (source_reference (conn w))) as [d|].
    - rewrite Hg in H1. destruct (graphics w !! d) as [regions|]; [|discriminate].
      apply attach_regions_listeners in H1 as (new & ? & Hi & ? & Hii & Hir).
      exists new. rewrite Hc in Hi, Hii, Hir. rewrite <- Ho. done.
    - injection H1 as <- <-. exists []. rewrite Hc. simpl. by rewrite app_nil_r. }
  exists new. rewrite <- Hl.
  destruct (_target (conn w2)) as [t|]; [|by injection H as <-].
  destruct (interval_descriptors w2 !! t) as [current|]; [|discriminate].
  revert H. case_decide; by intros [= <-].
Qed.

Lemma elem_of_tracked (w : world) (h region : nat) :
  (h, region) ∈ tracked w ↔ (h, PropertyChanged region) ∈ listeners w.
Proof.
  unfold tracked. rewrite list_elem_of_omap. split.
  - intros ([h' l] & Hin & Heq). simpl in Heq.
    destruct l; try discriminate. by injection Heq as -> ->.
  - intros Hin. by exists (h, PropertyChanged region).
Qed.

Lemma held_spec (w : world) :
  held w ↔ ∀ h region, (h, PropertyChanged region) ∈ listeners w →
                       h ∈ interval_mutated_listeners (conn w).
Proof.
  unfold held. rewrite Forall_forall. split.
  - intros H h r Hin. by apply (H (h, r)), elem_of_tracked.
  - intros H [h r] Hin. by apply (H h r), elem_of_tracked.
Qed.

Lemma omap_tracked_new (new : list (nat * nat)) :
  omap (λ hl : nat * listener,
          match hl.2 with
          | PropertyChanged region => Some (hl.1, region)
          | _ => None
          end) ((λ hr, (hr.1, PropertyChanged hr.2)) <$> new) = new.
Proof. induction new as [|[h r] new IH]; [done|]. csimpl. by rewrite IH. Qed.

Lemma held_detach_untracked (w : world) : held w → tracked (detach w) = [].
Proof.
  intros Hh. destruct (tracked (detach w)) as [|[h r] l] eqn:Ht; [done|].
  assert ((h, r) ∈ tracked (detach w)) as Hin by (rewrite Ht; left).
  apply elem_of_tracked in Hin. destruct (detach_listeners w) as (Hl & _).
  rewrite Hl in Hin. apply list_elem_of_filter in Hin as [Hn Hin].
  destruct Hn. by eapply (proj1 (held_spec w) Hh).
Qed.

Lemma held_mono (w w' : world) :
  (∀ x, x ∈ listeners w' → x ∈ listeners w) →
  interval_mutated_listeners (conn w') = interval_mutated_listeners (conn w) →
  held w → held w'.
Proof.
  intros Hl Hi Hh. apply held_spec. intros h r Hin. rewrite Hi.
  eapply (proj1 (held_spec w) Hh), Hl, Hin.
Qed.

Lemma reattach_tracked (w w' : world) :
  held w → reattach w = Ok w' →
  (tracked w').*1 = interval_mutated_listeners (conn w') ∧
  (tracked w').*2 = interval_regions w ∧
  held w'.
Proof.
  intros Hh H. apply reattach_listeners in H as (new & Hl & Hi & Hn & _).
  assert (tracked w' = new) as Ht.
  { unfold tracked. rewrite Hl, omap_app, omap_tracked_new.
    destruct (detach_listeners w) as (<- & _).
    fold (tracked (detach w)). by rewrite held_detach_untracked. }
  rewrite Ht. split; [done|]. split; [done|].
  apply held_spec. intros h r Hin. apply elem_of_tracked in Hin. rewrite Ht in Hin.
  rewrite Hi. apply list_elem_of_fmap. by exists (h, r).
Qed.

Lemma reattach_held (w w' : world) : held w → reattach w = Ok w' → held w'.
Proof. intros Hh H. by apply (reattach_tracked w w') in H as (_ & _ & ?). Qed.

Lemma fire_held (callback : world → result world) (hs : list nat) :
  (∀ w w', held w → callback w = Ok w' → held w') →
  ∀ w w', held w → fire hs callback w = Ok w' → held w'.
Proof.
  intros Hcb. induction hs as [|h hs IH]; intros w w' Hh H; simpl in H.
  - by injection H as <-.
  - apply bind_Ok in H as (w1 & H1 & H). eapply IH; [|exact H].
    destruct (is_open h w); [by eapply Hcb|by injection H1 as <-].
Qed.

Lemma item_inserted_held (key : string) (w w' : world) :
  held w → item_inserted key w = Ok w' → held w'.
Proof.
  unfold item_inserted. destruct (_ && _); [apply reattach_held|by intros ? [= <-]].
Qed.

Lemma item_removed_held (key : string) (w w' : world) :
  held w → item_removed key w = Ok w' → held w'.
Proof.
  unfold item_removed. destruct (_ && _); [apply reattach_held|by intros ? [= <-]].
Qed.

Lemma source_registered_held (w w' : world) :
  held w → source_registered w = Ok w' → held w'.
Proof.
  unfold source_registered. intros Hh. apply reattach_held.
  destruct (_source (conn w)) as [d|]; [|done].
  apply held_spec. intros h r Hin. simpl in *.
  rewrite <- app_assoc in Hin.
  apply elem_of_app in Hin as [Hin|Hin]; [by eapply (proj1 (held_spec w) Hh)|].
  apply elem_of_cons in Hin as [[=]|Hin].
  apply elem_of_cons in Hin as [[=]|Hin]. by apply elem_of_nil in Hin.
Qed.

Lemma unregistered_listeners (w : world) :
  listeners (unregistered w)
    = filter (λ hl, Some hl.1 ≠ item_inserted_event_listener (conn w)
                    ∧ Some hl.1 ≠ item_removed_event_listener (conn w)) (listeners w) ∧
  conn (unregistered w) = set_item_listeners None None (conn w).
Proof.
  assert (∀ l : list (nat * listener), filter (λ _, True) l = l) as Hall.
  { induction l as [|x l IHl]; [done|]. rewrite filter_cons_True; [by f_equal|done]. }
  unfold unregistered.
  destruct (item_inserted_event_listener (conn w)) as [hi|] eqn:Hi; simpl;
    destruct (item_removed_event_listener (conn w)) as [hr|] eqn:Hr; simpl;
    (split; [|done]); rewrite ?list_filter_filter;
    try (apply list_filter_iff; intros x; intuition congruence).
  rewrite <- (Hall (listeners w)) at 1. apply list_filter_iff. intuition congruence.
Qed.

Lemma unregistered_held (w : world) : held w → held (unregistered w).
Proof.
  destruct (unregistered_listeners w) as [Hl Hc].
  apply held_mono; [|by rewrite Hc].
  intros x. rewrite Hl, list_elem_of_filter. tauto.
Qed.

Lemma register_held (u : nat) (w w' : world) :
  held w → register u w = Ok w' → held w'.
Proof.
  unfold register. intros Hh. destruct (_closed (conn w)); [by intros [= <-]|].
  intros H. apply bind_Ok in H as (w1 & H1 & H).
  assert (held w1) as Hh1.
  { revert H1. destruct (resolves u (source_reference (conn w))).
    - by apply source_registered_held.
    - by intros [= <-]. }
  revert H. destruct (resolves u (target_reference (conn w1))).
  - by apply reattach_held.
  - by intros [= <-].
Qed.

Lemma unregister_held (u : nat) (w : world) : held w → held (unregister u w).
Proof.
  unfold unregister. intros Hh. destruct (_closed (conn w)); [done|]. cbv zeta.
  assert (∀ x f, held x →
            interval_mutated_listeners (f (conn x)) = interval_mutated_listeners (conn x) →
            held (unregistered (with_conn f x))) as Hstep.
  { intros x f Hx Hf. apply unregistered_held. by eapply held_mono; [| |exact Hx]. }
  destruct (unresolves u (source_reference (conn w)));
    match goal with
    | |- context [if unresolves u (target_reference (conn ?x)) then _ else _] =>
        destruct (unresolves u (target_reference (conn x)))
    end; repeat (first [done | apply Hstep]).
Qed.

Lemma step_held (e : event) (w w' : world) : held w → step e w = Ok w' → held w'.
Proof.
  intros Hh. destruct e as [d index region|d region|region iv|u|u|]; simpl.
  - unfold insert_graphic. destruct (graphics w !! d); [|discriminate].
    apply (fire_held _ _ (item_inserted_held _)). done.
  - unfold remove_graphic. destruct (graphics w !! d); [|discriminate].
    case_decide; [|discriminate].
    apply (fire_held _ _ (item_removed_held _)). done.
  - unfold set_interval.
    destruct (graphic_objects w !! region) as [[?|]|]; try discriminate.
    apply (fire_held _ _ reattach_held). done.
  - by apply register_held.
  - intros [= <-]. by apply unregister_held.
  - by intros [= <-].
Qed.

Lemma run_held (es : list event) :
  ∀ w w', held w → run es w = Ok w' → held w'.
Proof.
  induction es as [|e es IH]; intros w w' Hh H; simpl in H.
  - by injection H as <-.
  - apply bind_Ok in H as (w1 & H1 & H). eauto using step_held.
Qed.

Lemma init_held gs objs descs d t w : init gs objs descs d t = Ok w → held w.
Proof.
  unfold init. intros H. apply bind_Ok in H as (w1 & H1 & H).
  assert (held w1) as Hh1.
  { revert H1. destruct d as [d|].
    - apply source_registered_held. apply Forall_nil_2.
    - intros [= <-]. apply Forall_nil_2. }
  revert H. destruct t as [t|]; [by apply reattach_held|by intros [= <-]].
Qed.

Lemma reattach_display (w w' : world) :
  reattach w = Ok w' →
  graphics w' = graphics w ∧ graphic_objects w' = graphic_objects w ∧
  source_reference (conn w') = source_reference (conn w) ∧
  target_reference (conn w') = target_reference (conn w) ∧
  ∀ t, _target (conn w) ≠ Some t →
       interval_descriptors w' !! t = interval_descriptors w !! t.
Proof.
  intros H. apply reattach_cases in H
    as (w2 & (Hg & Ho & Hi & _ & Hs & Ht & _) & [(t & cur & Htt & _ & _ & ->)|[-> _]]).
  - simpl. repeat split; try done. intros t' Hne.
    rewrite lookup_insert_ne by congruence. by rewrite Hi.
  - repeat split; try done. intros t' _. by rewrite Hi.
Qed.

Lemma reattach_source_graphics_exist (w w' : world) :
  reattach w = Ok w' → source_graphics_exist w.
Proof.
  unfold reattach. intros H. apply bind_Ok in H as (res & H1 & _).
  pose proof (detach_same_data w) as (Hg & Ho & _ & _ & Hs & _).
  intros d Hd. unfold _source in *. rewrite Hs, Hd, Hg in H1.
  destruct (graphics w !! d) as [regions|]; [|discriminate].
  exists regions. split; [done|]. rewrite <- Ho. by eapply attach_regions_exist.
Qed.

(** A second [reattach] right after a first one returns and assigns
    nothing. *)
Lemma reattach_again (w w' : world) :
  reattach w = Ok w' →
  (∀ t, _target (conn w) = Some t →
        interval_descriptors w' !! t = Some (projected w)) ∧
  projected w' = projected w ∧
  ∃ w'', reattach w' = Ok w'' ∧ unassigned w' w''.
Proof.
  intros H. pose proof (reattach_source_graphics_exist _ _ H) as Hex.
  pose proof (reattach_display _ _ H) as (Hg & Ho & Hs & Ht & _).
  assert (∀ t, _target (conn w) = Some t →
               interval_descriptors w' !! t = Some (projected w)) as Hheld.
  { apply reattach_cases in H
      as (w2 & (_ & _ & Hi & _) & [(t & cur & Htt & _ & _ & ->)|[-> Hcur]]).
    - intros t' Ht'. simpl. assert (t' = t) as -> by congruence.
      by rewrite lookup_insert_eq.
    - intros t' Ht'. rewrite Hi. by apply Hcur. }
  assert (projected w' = projected w) as Hp.
  { unfold projected, _source. by rewrite Hs, Hg, Ho. }
  split; [done|]. split; [done|].
  destruct (reattach_total w') as [w'' H''].
  { intros d Hd. unfold _source in *. rewrite Hs in Hd.
    destruct (Hex d Hd) as (regions & Hr & Hall). exists regions.
    rewrite Hg, Ho. done. }
  { intros t Htt. unfold _target in *. rewrite Ht in Htt.
    rewrite (Hheld t Htt). by eexists. }
  exists w''. split; [done|].
  apply reattach_cases in H''
    as (w2 & Hd & [(t & cur & Htt & Hcur & Hne & ->)|[-> _]]).
  - unfold _target in *. rewrite Ht in Htt.
    rewrite (Hheld t Htt) in Hcur. injection Hcur as <-. by rewrite Hp in Hne.
  - by apply same_data_unassigned.
Qed.

(** X6. [detach] closes the listeners the connection holds on interval
    graphics and no other: a listener is open afterwards exactly when it
    was open and not held. The connection then holds none, and nothing
    else has changed. *)
Theorem detach_closes_the_held_listeners (w : world) :
  (∀ h l, (h, l) ∈ listeners (detach w) ↔
          (h, l) ∈ listeners w ∧ h ∉ interval_mutated_listeners (conn w)) ∧
  (∀ h, h ∈ interval_mutated_listeners (conn w) → is_open h (detach w) = false) ∧
  interval_mutated_listeners (conn (detach w)) = [] ∧
  item_inserted_event_listener (conn (detach w)) = item_inserted_event_listener (conn w) ∧
  item_removed_event_listener (conn (detach w)) = item_removed_event_listener (conn w) ∧
  next_handle (detach w) = next_handle w ∧
  same_data w (detach w).
Proof.
  destruct (detach_listeners w) as (Hl & Hn & Hc).
  split; [|split].
  - intros h l. rewrite Hl, list_elem_of_filter. simpl. tauto.
  - intros h Hh. unfold is_open. apply bool_decide_eq_false_2.
    intros Hin. apply list_elem_of_fmap in Hin as ([h' l] & -> & Hin).
    rewrite Hl in Hin. apply list_elem_of_filter in Hin as [Hn' _]. by destruct Hn'.
  - rewrite Hc. split; [done|]. split; [done|]. split; [done|]. split; [done|].
    apply detach_same_data.
Qed.

(** X7. After a [reattach] that starts with every listener on a graphic
    held, the open listeners on graphics are exactly those the
    connection holds, one for each interval graphic of the source, in
    display order, and none on any other graphic. *)
Theorem reattach_tracks_each_interval_once (w w' : world) :
  held w → reattach w = Ok w' →
  (tracked w').*1 = interval_mutated_listeners (conn w') ∧
  (tracked w').*2 = interval_regions w ∧
  length (interval_mutated_listeners (conn w')) = length (projected w) ∧
  held w'.
Proof.
  intros Hh H. destruct (reattach_tracked w w' Hh H) as (H1 & H2 & H3).
  split; [done|]. split; [done|]. split; [|done].
  rewrite <- H1, length_fmap, <- (length_fmap snd), H2.
  unfold interval_regions, projected.
  destruct (_source (conn w)) as [d|]; [|done].
  destruct (graphics w !! d) as [regions|]; [|done].
  induction regions as [|r regions IH]; [done|]. rewrite filter_cons. csimpl.
  destruct (descriptor_of (graphic_objects w) r) as [x|].
  - rewrite decide_True by (by eexists). simpl. by rewrite IH.
  - rewrite decide_False by (by intros [? ?]). done.
Qed.

Lemma reattach_tracks_each_interval_once_witness :
  held attached_world ∧
  ∃ w', reattach attached_world = Ok w' ∧
        (tracked w').*2 = [10] ∧
        length (interval_mutated_listeners (conn w')) = 1.
Proof.
  assert (held attached_world) as Hh by (repeat constructor).
  assert (∃ w', reattach attached_world = Ok w') as [w' H]
    by (eexists; vm_compute; reflexivity).
  split; [exact Hh|]. exists w'. split; [exact H|].
  destruct (reattach_tracks_each_interval_once attached_world w' Hh H)
    as (_ & -> & -> & _).
  split; vm_compute; reflexivity.
Defined.

(** X8. No listener on a graphic leaks: in every world reached from a
    construction by insertions and removals of graphics, changes of
    intervals, registrations, unregistrations and [close], every open
    listener on a graphic is held by the connection, so that the next
    [detach] leaves none open. *)
Theorem reachable_listeners_are_held (gs : gmap nat (list nat))
    (objs : gmap nat graphic) (descs : gmap nat (list interval_descriptor))
    (d t : option nat) (es : list event) (w : world) :
  init gs objs descs d t ≫= run es = Ok w →
  (∀ h region, (h, PropertyChanged region) ∈ listeners w →
               h ∈ interval_mutated_listeners (conn w)) ∧
  tracked (detach w) = [].
Proof.
  intros H. apply bind_Ok in H as (w0 & H0 & H).
  assert (held w) as Hh by eauto using run_held, init_held.
  split; [by apply held_spec|by apply held_detach_untracked].
Qed.

Lemma reachable_listeners_are_held_witness :
  ∃ w, init example_graphics example_objects example_descriptors (Some 0) (Some 1)
         ≫= run [SetInterval 10 (3, 4)%Z; InsertGraphic 0 0 12; Unregister 1] = Ok w ∧
       tracked (detach w) = [].
Proof.
  assert (∃ w, init example_graphics example_objects example_descriptors (Some 0) (Some 1)
                 ≫= run [SetInterval 10 (3, 4)%Z; InsertGraphic 0 0 12; Unregister 1]
               = Ok w) as [w H] by (eexists; vm_compute; reflexivity).
  exists w. split; [exact H|].
  by destruct (reachable_listeners_are_held _ _ _ _ _ _ _ H).
Defined.

(** X9. A [reattach] that follows a [reattach] returns and assigns
    nothing: the first one has left the target holding the projection
    of the source, and the projection has not changed. *)
Theorem reattach_twice_assigns_once (w w' : world) :
  reattach w = Ok w' →
  ∃ w'', reattach w' = Ok w'' ∧
         interval_descriptors w'' = interval_descriptors w' ∧
         assigned w'' = assigned w' ∧
         projected w'' = projected w ∧
         ∀ t, _target (conn w) = Some t →
              interval_descriptors w'' !! t = Some (projected w).
Proof.
  intros H. destruct (reattach_again w w' H) as (Hheld & Hp & w'' & H'' & Hi & Ha).
  exists w''. split; [done|]. split; [done|]. split; [done|].
  destruct (reattach_again w' w'' H'') as (_ & Hp' & _).
  split; [congruence|]. intros t Ht. rewrite Hi. by apply Hheld.
Qed.

Lemma reattach_twice_assigns_once_witness :
  ∃ w' w'', reattach (assign 1 [] attached_world) = Ok w' ∧
            reattach w' = Ok w'' ∧ assigned w'' = assigned w'.
Proof.
  assert (∃ w', reattach (assign 1 [] attached_world) = Ok w') as [w' H]
    by (eexists; vm_compute; reflexivity).
  destruct (reattach_twice_assigns_once _ _ H) as (w'' & H'' & _ & Ha & _).
  by exists w', w''.
Defined.

(** X10. The connection is one way, and narrow: none of its callbacks
    changes the graphics of a display or a graphic, and none writes the
    descriptors of a line profile other than its target. *)
Theorem connection_is_one_way (w w' : world) (key : string) :
  reattach w = Ok w' ∨ item_inserted key w = Ok w' ∨ item_removed key w = Ok w' ∨
  source_registered w = Ok w' ∨ target_registered w = Ok w' ∨ unregistered w = w' →
  graphics w' = graphics w ∧ graphic_objects w' = graphic_objects w ∧
  ∀ t, _target (conn w) ≠ Some t →
       interval_descriptors w' !! t = interval_descriptors w !! t.
Proof.
  assert (∀ x x', reattach x = Ok x' →
            graphics x' = graphics x ∧ graphic_objects x' = graphic_objects x ∧
            ∀ t, _target (conn x) ≠ Some t →
                 interval_descriptors x' !! t = interval_descriptors x !! t) as Hre.
  { intros x x' H. by apply reattach_display in H as (? & ? & _ & _ & ?). }
  intros [H|[H|[H|[H|[H|H]]]]].
  - by apply Hre.
  - unfold item_inserted in H. destruct (_ && _); [by apply Hre|by injection H as <-].
  - unfold item_removed in H. destruct (_ && _); [by apply Hre|by injection H as <-].
  - unfold source_registered in H. apply Hre in H.
    by destruct (_source (conn w)).
  - by apply Hre.
  - subst w'. destruct (unregistered_unassigned w) as [Hi _].
    unfold unregistered.
    destruct (item_inserted_event_listener (conn w)); simpl;
      destruct (item_removed_event_listener (conn w)); done.
Qed.

Lemma connection_is_one_way_witness :
  ∃ w', item_inserted "graphics" (assign 1 [] attached_world) = Ok w' ∧
        graphics w' = example_graphics ∧ graphic_objects w' = example_objects.
Proof.
  assert (∃ w', item_inserted "graphics" (assign 1 [] attached_world) = Ok w')
    as [w' H] by (eexists; vm_compute; reflexivity).
  exists w'. split; [exact H|].
  destruct (connection_is_one_way (assign 1 [] attached_world) w' "graphics")
    as (Hg & Ho & _); [by right; left|].
  by rewrite Hg, Ho.
Defined.

(** X11. A construction with a display item and a line profile runs the
    recomputation twice and assigns at most once: the line profile ends
    with one descriptor per interval graphic of the display, in display
    order; the assignment is logged once when that list differs from
    what the line profile held, and not at all otherwise; one listener
    is left open on each interval graphic. *)
Theorem construction_assigns_at_most_once (gs : gmap nat (list nat))
    (objs : gmap nat graphic) (descs : gmap nat (list interval_descriptor))
    (d t : nat) (regions : list nat) (current : list interval_descriptor) :
  gs !! d = Some regions →
  (∀ r, r ∈ regions → is_Some (objs !! r)) →
  descs !! t = Some current →
  ∃ w, init gs objs descs (Some d) (Some t) = Ok w ∧
       graphics w = gs ∧ graphic_objects w = objs ∧
       interval_descriptors w = <[t := omap (descriptor_of objs) regions]> descs ∧
       assigned w = (if decide (current = omap (descriptor_of objs) regions)
                     then [] else [(t, omap (descriptor_of objs) regions)]) ∧
       (tracked w).*2 = filter (λ r, is_Some (descriptor_of objs r)) regions ∧
       (tracked w).*1 = interval_mutated_listeners (conn w).
Proof.
  intros Hd Hex Ht. unfold init, source_registered.
  cbn [_source conn new_connection source_reference item listen next_handle].
  match goal with
  | |- context [reattach ?x] => set (w0 := x)
  end.
  assert (projected w0 = omap (descriptor_of objs) regions) as Hp0
    by (unfold projected; cbn; by rewrite Hd).
  destruct (reattach_total w0) as [w1 H1].
  { intros d' [= <-]. exists regions. split; [exact Hd|exact Hex]. }
  { intros t' [= <-]. cbn. rewrite Ht. by eexists. }
  rewrite H1, bind_ret. unfold target_registered.
  destruct (reattach_again w0 w1 H1) as (Hheld & Hp1 & w2 & H2 & Hi2 & Ha2).
  exists w2. split; [exact H2|].
  pose proof (reattach_display _ _ H1) as (Hg1 & Ho1 & Hs1 & _).
  pose proof (reattach_display _ _ H2) as (Hg2 & Ho2 & _).
  assert (held w1) as Hh1.
  { eapply reattach_held; [|exact H1]. apply held_spec. intros h r Hin. cbn in Hin.
    apply elem_of_cons in Hin as [[=]|Hin].
    apply elem_of_cons in Hin as [[=]|Hin]. by apply elem_of_nil in Hin. }
  destruct (reattach_tracked w1 w2 Hh1 H2) as (Htr1 & Htr2 & _).
  split; [by rewrite Hg2, Hg1|]. split; [by rewrite Ho2, Ho1|].
  rewrite Hi2, Ha2. split; [|split; [|split]].
  - apply reattach_cases in H1
      as (w' & (_ & _ & Hi & _) & [(t' & cur & [= <-] & Hcur & Hne & ->)|[-> Hcur]]).
    + simpl. by rewrite Hi, Hp0.
    + rewrite Hi. cbn. symmetry. apply insert_id.
      rewrite <- Hp0. by apply (Hcur t).
  - apply reattach_cases in H1
      as (w' & (_ & _ & _ & Ha & _) & [(t' & cur & [= <-] & Hcur & Hne & ->)|[-> Hcur]]).
    + simpl. rewrite Ha. cbn in Hcur. rewrite Ht in Hcur. injection Hcur as <-.
      rewrite Hp0 in *. by rewrite decide_False.
    + rewrite Ha. specialize (Hcur t eq_refl). rewrite Hp0 in Hcur.
      change (interval_descriptors w0) with descs in Hcur.
      rewrite Ht in Hcur. injection Hcur as ->. by rewrite decide_True.
  - rewrite Htr2. unfold interval_regions, _source. rewrite Hs1, Hg1, Ho1. cbn.
    by rewrite Hd.
  - done.
Qed.

Lemma construction_assigns_at_most_once_witness :
  ∃ w, init example_graphics example_objects example_descriptors (Some 0) (Some 1) = Ok w ∧
       interval_descriptors w !! 1
         = Some [ {| d_interval := (1, 2)%Z; d_color := "#F00" |} ] ∧
       length (assigned w) = 1 ∧
       (tracked w).*2 = [10].
Proof.
  destruct (construction_assigns_at_most_once example_graphics example_objects
              example_descriptors 0 1 [10; 11] [])
    as (w & H & _ & _ & Hi & Ha & Ht & _).
  - vm_compute. reflexivity.
  - intros r Hr. apply elem_of_cons in Hr as [->|Hr]; [by eexists|].
    apply elem_of_cons in Hr as [->|Hr]; [by eexists|]. by apply elem_of_nil in Hr.
  - vm_compute. reflexivity.
  - exists w. split; [exact H|]. rewrite Hi, Ha, Ht.
    split; [|split]; vm_compute; reflexivity.
Defined.

(** X12. [unregistered] closes the two listeners on the display item
    and nothing else: every other listener stays open, among them the
    listeners on the interval graphics, which the connection goes on
    holding. *)
Theorem unregistered_closes_the_item_listeners (w : world) :
  (∀ h l, (h, l) ∈ listeners (unregistered w) ↔
          (h, l) ∈ listeners w ∧
          Some h ≠ item_inserted_event_listener (conn w) ∧
          Some h ≠ item_removed_event_listener (conn w)) ∧
  item_inserted_event_listener (conn (unregistered w)) = None ∧
  item_removed_event_listener (conn (unregistered w)) = None ∧
  interval_mutated_listeners (conn (unregistered w))
    = interval_mutated_listeners (conn w) ∧
  (∀ h, h ∈ interval_mutated_listeners (conn w) →
        Some h ≠ item_inserted_event_listener (conn w) →
        Some h ≠ item_removed_event_listener (conn w) →
        is_open h (unregistered w) = is_open h w) ∧
  same_data w (unregistered w).
Proof.
  destruct (unregistered_listeners w) as [Hl Hc].
  split; [|split; [|split; [|split; [|split]]]]; try (by rewrite Hc).
  - intros h l. rewrite Hl, list_elem_of_filter. simpl. tauto.
  - intros h _ Hi Hr. unfold is_open. apply bool_decide_ext.
    rewrite Hl. split; intros Hin;
      apply list_elem_of_fmap in Hin as ([h' l] & -> & Hin);
      apply list_elem_of_fmap; exists (h', l); (split; [done|]).
    + by apply list_elem_of_filter in Hin as [_ ?].
    + by apply list_elem_of_filter.
  - unfold same_data. rewrite Hc. unfold unregistered.
    destruct (item_inserted_event_listener (conn w)); simpl;
      destruct (item_removed_event_listener (conn w)); done.
Qed.

Lemma attach_regions_handles (regions : list nat) :
  ∀ ds w res,
    attach_regions regions ds w = Ok res →
    next_handle w ≤ next_handle res.2 ∧
    (∀ h, h ∈ interval_mutated_listeners (conn res.2) →
          h ∈ interval_mutated_listeners (conn w) ∨
          next_handle w ≤ h < next_handle res.2) ∧
    (∀ x, x ∈ listeners res.2 →
          x ∈ listeners w ∨ next_handle w ≤ x.1 < next_handle res.2).
Proof.
  induction regions as [|r regions IH]; intros ds w res H; simpl in H.
  - injection H as <-. simpl. auto.
  - destruct (graphic_objects w !! r) as [[iv|]|] eqn:Hr; [| |discriminate].
    + apply IH in H as (Hn & Hh & Hl). simpl in *. split; [lia|]. split.
      * intros h Hin. destruct (Hh h Hin) as [Hin'|?]; [|right; lia].
        apply elem_of_app in Hin' as [?|Hin']; [by left|].
        apply list_elem_of_singleton in Hin' as ->. right. lia.
      * intros x Hin. destruct (Hl x Hin) as [Hin'|?]; [|right; lia].
        apply elem_of_app in Hin' as [?|Hin']; [by left|].
        apply list_elem_of_singleton in Hin' as ->. right. simpl. lia.
    + by apply IH in H.
Qed.

Lemma reattach_handles (w w' : world) :
  reattach w = Ok w' →
  next_handle w ≤ next_handle w' ∧
  (∀ h, h ∈ interval_mutated_listeners (conn w') →
        next_handle w ≤ h < next_handle w') ∧
  (∀ x, x ∈ listeners w' →
        (x ∈ listeners w ∧ x.1 ∉ interval_mutated_listeners (conn w)) ∨
        next_handle w ≤ x.1 < next_handle w').
Proof.
  unfold reattach. intros H. apply bind_Ok in H as ([ds w2] & H1 & H).
  destruct (detach_listeners w) as (Hl & Hn & Hc).
  assert (next_handle w ≤ next_handle w2 ∧
          (∀ h, h ∈ interval_mutated_listeners (conn w2) →
                next_handle w ≤ h < next_handle w2) ∧
          (∀ x, x ∈ listeners w2 →
                (x ∈ listeners w ∧ x.1 ∉ interval_mutated_listeners (conn w)) ∨
                next_handle w ≤ x.1 < next_handle w2)) as Hw2.
  { assert (∀ x, x ∈ listeners (detach w) →
                 x ∈ listeners w ∧ x.1 ∉ interval_mutated_listeners (conn w)) as Hd.
    { intros x. rewrite Hl, list_elem_of_filter. tauto. }
    destruct (_source (conn (detach w))) as [d|].
    - destruct (graphics (detach w) !! d) as [regions|]; [|discriminate].
      apply attach_regions_handles in H1 as (Hn2 & Hh2 & Hl2).
      cbn [snd] in Hn2, Hh2, Hl2. rewrite Hn in *. split; [done|]. split.
      + intros h Hin. destruct (Hh2 h Hin) as [Hin'|?]; [|done].
        rewrite Hc in Hin'. by apply elem_of_nil in Hin'.
      + intros x Hin. destruct (Hl2 x Hin) as [Hin'|?]; [left; by apply Hd|by right].
    - injection H1 as <- <-. rewrite Hn, Hc. split; [done|]. split.
      + intros h Hin. by apply elem_of_nil in Hin.
      + intros x Hin. left. by apply Hd. }
  destruct (_target (conn w2)) as [t|]; [|by injection H as <-].
  destruct (interval_descriptors w2 !! t) as [current|]; [|discriminate].
  revert H. case_decide; by intros [= <-].
Qed.

Lemma projected_ext (w w' : world) :
  _source (conn w') = _source (conn w) →
  (∀ d, _source (conn w) = Some d → graphics w' !! d = graphics w !! d) →
  (∀ d regions r, _source (conn w) = Some d → graphics w !! d = Some regions →
                  r ∈ regions → graphic_objects w' !! r = graphic_objects w !! r) →
  projected w' = projected w ∧ interval_regions w' = interval_regions w.
Proof.
  intros Hs Hg Ho. unfold projected, interval_regions. rewrite Hs.
  destruct (_source (conn w)) as [d|] eqn:Hd; [|done].
  rewrite (Hg d eq_refl). destruct (graphics w !! d) as [regions|] eqn:Hr; [|done].
  assert (∀ r, r ∈ regions → graphic_objects w' !! r = graphic_objects w !! r) as Ho'
    by (intros r Hin; by apply (Ho d regions)).
  clear Ho Hr.
  induction regions as [|r regions IH]; [done|].
  destruct IH as [IH1 IH2]; [intros r' Hin; apply Ho'; by right|].
  assert (descriptor_of (graphic_objects w') r = descriptor_of (graphic_objects w) r)
    as Hdr.
  { unfold descriptor_of. rewrite (Ho' r); [done|by left]. }
  split.
  - csimpl. by rewrite Hdr, IH1.
  - rewrite !filter_cons, Hdr, IH2. done.
Qed.

Lemma reattach_anchored (d t : nat) (w w' : world) :
  anchored d t w → reattach w = Ok w' →
  anchored d t w' ∧ covered w' ∧ mirrored w'.
Proof.
  intros (Hs & Ht & (hi & Hi & Hin) & (hr & Hr & Hrn) & Hb) H.
  pose proof (reattach_display _ _ H) as (Hg' & Ho' & Hs' & Ht' & _).
  pose proof (reattach_handles _ _ H) as (Hn & Hh & Hl).
  pose proof (reattach_again _ _ H) as (Hm & Hp & _).
  pose proof (reattach_listeners _ _ H) as (new & Hl' & Hi' & Hn' & _).
  assert (∀ x, x ∈ listeners w → x.1 ∉ interval_mutated_listeners (conn w) →
               x ∈ listeners w' ∧ x.1 ∉ interval_mutated_listeners (conn w')) as Hkeep.
  { intros x Hx Hnx. split.
    - rewrite Hl'. apply elem_of_app. left. by apply list_elem_of_filter.
    - intros Hx'. apply Hh in Hx'. apply Hb in Hx. lia. }
  split; [|split].
  - unfold anchored, _source, _target in *. rewrite Hs', Ht'.
    split; [done|]. split; [done|]. split; [|split].
    + exists hi. by apply (Hkeep (hi, ItemInserted d)).
    + exists hr. by apply (Hkeep (hr, ItemRemoved d)).
    + intros x Hx. destruct (Hl x Hx) as [[Hx' _]|?]; [apply Hb in Hx'|]; lia.
  - intros r Hr'.
    assert (interval_regions w' = interval_regions w) as Heq.
    { unfold interval_regions, _source. by rewrite Hs', Hg', Ho'. }
    rewrite Heq, <- Hn' in Hr'. apply list_elem_of_fmap in Hr' as ([h r'] & -> & Hr').
    exists h. rewrite Hl'. apply elem_of_app. right.
    apply list_elem_of_fmap. by exists (h, r').
  - intros t' Ht''. rewrite Hp. apply Hm. unfold _target in *. by rewrite <- Ht'.
Qed.

Lemma fire_anchored (callback : world → result world) (d t : nat) (hs : list nat) :
  (∀ w w', anchored d t w → callback w = Ok w' →
           anchored d t w' ∧ covered w' ∧ mirrored w') →
  ∀ w w', anchored d t w → fire hs callback w = Ok w' →
    anchored d t w' ∧
    ((covered w ∧ mirrored w) ∨ (∃ h, h ∈ hs ∧ is_open h w = true) →
     covered w' ∧ mirrored w').
Proof.
  intros Hcb. induction hs as [|h hs IH]; intros w w' Ha H; simpl in H.
  - injection H as <-. split; [done|]. intros [?|(h & Hh & _)]; [done|].
    by apply elem_of_nil in Hh.
  - apply bind_Ok in H as (w1 & H1 & H).
    destruct (is_open h w) eqn:Hopen.
    + destruct (Hcb _ _ Ha H1) as (Ha1 & Hc1 & Hm1).
      destruct (IH _ _ Ha1 H) as [Ha' Hh']. split; [done|]. intros _. apply Hh'. by left.
    + injection H1 as <-. destruct (IH _ _ Ha H) as [Ha' Hh']. split; [done|].
      intros [?|(h' & Hin & Ho)]; apply Hh'; [by left|right].
      apply elem_of_cons in Hin as [->|Hin]; [congruence|]. by exists h'.
Qed.

Lemma attached_open (l : listener) (h : nat) (w : world) :
  (h, l) ∈ listeners w → h ∈ attached l w ∧ is_open h w = true.
Proof.
  intros Hin. split.
  - unfold attached. apply list_elem_of_fmap. exists (h, l). split; [done|].
    by apply list_elem_of_filter.
  - unfold is_open. apply bool_decide_eq_true_2.
    apply list_elem_of_fmap. by exists (h, l).
Qed.

Lemma step_anchored (d t : nat) (e : event) (w w' : world) :
  graphics_event e = true →
  anchored d t w → covered w → mirrored w → step e w = Ok w' →
  anchored d t w' ∧ covered w' ∧ mirrored w'.
Proof.
  intros He Ha Hc Hm.
  pose proof Ha as (Hs & Ht & (hi & Hi & _) & (hr & Hr & _) & _).
  assert (∀ key x x', anchored d t x →
            (if bool_decide (key = "graphics") && bool_decide (is_Some (_target (conn x)))
             then reattach x else Ok x) = Ok x' →
            key = "graphics" → anchored d t x' ∧ covered x' ∧ mirrored x') as Hitem.
  { intros key x x' Hx H ->. pose proof Hx as (Hsx & Htx & Hrest).
    rewrite bool_decide_eq_true_2 in H by done.
    rewrite bool_decide_eq_true_2 in H by (by rewrite Htx; eexists).
    cbn [andb] in H. by eapply reattach_anchored. }
  assert (∀ x, _source (conn x) = _source (conn w) → _target (conn x) = _target (conn w) →
               listeners x = listeners w → interval_descriptors x = interval_descriptors w →
               projected x = projected w ∧ interval_regions x = interval_regions w →
               covered x ∧ mirrored x) as Hsame.
  { intros x Hsx Htx Hlx Hix [Hpx Hrx]. split.
    - intros r. rewrite Hrx, Hlx. apply Hc.
    - intros t'. rewrite Htx, Hix, Hpx. apply Hm. }
  destruct e as [d' index region|d' region|region iv| | |]; try discriminate; simpl.
  - unfold insert_graphic. destruct (graphics w !! d') as [regions|] eqn:Hd'; [|discriminate].
    intros H. apply (fire_anchored _ d t) in H as [Ha' Hh'];
      [|by intros x x' Hx Hxx; eapply (Hitem "graphics")|exact Ha].
    split; [done|]. apply Hh'.
    destruct (decide (d' = d)) as [->|Hne].
    + right. exists hi. by apply (attached_open (ItemInserted d)).
    + left. apply Hsame; try done. apply projected_ext; try done.
      intros d0 Hd0. simpl. rewrite lookup_insert_ne; [done|]. congruence.
  - unfold remove_graphic. destruct (graphics w !! d') as [regions|] eqn:Hd'; [|discriminate].
    case_decide; [|discriminate].
    intros H'. apply (fire_anchored _ d t) in H' as [Ha' Hh'];
      [|by intros x x' Hx Hxx; eapply (Hitem "graphics")|exact Ha].
    split; [done|]. apply Hh'.
    destruct (decide (d' = d)) as [->|Hne].
    + right. exists hr. by apply (attached_open (ItemRemoved d)).
    + left. apply Hsame; try done. apply projected_ext; try done.
      intros d0 Hd0. simpl. rewrite lookup_insert_ne; [done|]. congruence.
  - unfold set_interval.
    destruct (graphic_objects w !! region) as [[old|]|] eqn:Hreg; try discriminate.
    intros H. apply (fire_anchored _ d t) in H as [Ha' Hh'];
      [|by intros x x' Hx Hxx; eapply reattach_anchored|exact Ha].
    split; [done|]. apply Hh'.
    destruct (graphics w !! d) as [regions|] eqn:Hd.
    + destruct (decide (region ∈ regions)) as [Hin|Hnin].
      * right. destruct (Hc region) as [h Hh].
        { unfold interval_regions. rewrite Hs, Hd. apply list_elem_of_filter.
          split; [|done]. unfold descriptor_of. rewrite Hreg. by eexists. }
        exists h. by apply (attached_open (PropertyChanged region)).
      * left. apply Hsame; try done. apply projected_ext; try done.
        intros d0 regions0 r Hd0 Hr0 Hrin. simpl.
        rewrite lookup_insert_ne; [done|]. intros <-.
        rewrite Hs in Hd0. injection Hd0 as <-. rewrite Hd in Hr0. by injection Hr0 as <-.
    + left. apply Hsame; try done. apply projected_ext; try done.
      intros d0 regions0 r Hd0 Hr0. rewrite Hs in Hd0. injection Hd0 as <-. congruence.
Qed.

Lemma run_anchored (d t : nat) (es : list event) :
  ∀ w w', forallb graphics_event es = true →
          anchored d t w → covered w → mirrored w → run es w = Ok w' →
          anchored d t w' ∧ covered w' ∧ mirrored w'.
Proof.
  induction es as [|e es IH]; intros w w' Hes Ha Hc Hm H; simpl in *.
  - by injection H as <-.
  - apply andb_true_iff in Hes as [He Hes]. apply bind_Ok in H as (w1 & H1 & H).
    destruct (step_anchored d t e w w1) as (Ha1 & Hc1 & Hm1); try done.
    by eapply IH.
Qed.

Lemma init_anchored gs objs descs (d t : nat) (w : world) :
  init gs objs descs (Some d) (Some t) = Ok w →
  anchored d t w ∧ covered w ∧ mirrored w.
Proof.
  unfold init, source_registered.
  cbn [_source conn new_connection source_reference item listen next_handle].
  intros H. apply bind_Ok in H as (w1 & H1 & H).
  apply (reattach_anchored d t) in H1 as (Ha1 & _).
  - by apply (reattach_anchored d t) in H.
  - split; [done|]. split; [done|]. cbn. split; [|split].
    + exists 0. split; [by left|]. apply not_elem_of_nil.
    + exists 1. split; [right; by left|]. apply not_elem_of_nil.
    + intros x Hx. apply elem_of_cons in Hx as [->|Hx]; [simpl; lia|].
      apply elem_of_cons in Hx as [->|Hx]; [simpl; lia|]. by apply elem_of_nil in Hx.
Qed.

(** X15. The line profile mirrors the display. After a construction
    with both objects, and whatever graphics are then inserted into or
    removed from displays and whatever intervals are changed, the line
    profile holds one descriptor per interval graphic of the source
    display, in display order, and every one of those graphics has an
    open listener. *)
Theorem target_mirrors_source (gs : gmap nat (list nat)) (objs : gmap nat graphic)
    (descs : gmap nat (list interval_descriptor)) (d t : nat)
    (es : list event) (w : world) :
  forallb graphics_event es = true →
  init gs objs descs (Some d) (Some t) ≫= run es = Ok w →
  interval_descriptors w !! t = Some (projected w) ∧
  (∀ r, r ∈ interval_regions w → ∃ h, (h, PropertyChanged r) ∈ listeners w) ∧
  _source (conn w) = Some d ∧ _target (conn w) = Some t.
Proof.
  intros Hes H. apply bind_Ok in H as (w0 & H0 & H).
  apply init_anchored in H0 as (Ha0 & Hc0 & Hm0).
  destruct (run_anchored d t es w0 w) as ((Hs & Ht & _) & Hc & Hm); try done.
  split; [by apply Hm|]. done.
Qed.

Lemma target_mirrors_source_witness :
  ∃ w, init example_graphics example_objects example_descriptors (Some 0) (Some 1)
         ≫= run [InsertGraphic 0 0 12; SetInterval 10 (3, 4)%Z; RemoveGraphic 0 11] = Ok w ∧
       interval_descriptors w !! 1
         = Some [ {| d_interval := (5, 6)%Z; d_color := "#F00" |};
                  {| d_interval := (3, 4)%Z; d_color := "#F00" |} ].
Proof.
  assert (∃ w, init example_graphics example_objects example_descriptors (Some 0) (Some 1)
                 ≫= run [InsertGraphic 0 0 12; SetInterval 10 (3, 4)%Z; RemoveGraphic 0 11]
               = Ok w ∧
               projected w = [ {| d_interval := (5, 6)%Z; d_color := "#F00" |};
                               {| d_interval := (3, 4)%Z; d_color := "#F00" |} ])
    as (w & H & Hp) by (eexists; split; vm_compute; reflexivity).
  exists w. split; [exact H|].
  destruct (target_mirrors_source example_graphics example_objects example_descriptors
              0 1 [InsertGraphic 0 0 12; SetInterval 10 (3, 4)%Z; RemoveGraphic 0 11] w)
    as (Hm & _); [reflexivity|exact H|].
  by rewrite Hm, Hp.
Defined.
Lemma attached_nil (l : listener) (w : world) :
  (∀ h, (h, l) ∉ listeners w) → attached l w = [].
Proof.
  intros Hno. unfold attached.
  destruct (filter (λ hl, hl.2 = l) (listeners w)) as [|[h l'] rest] eqn:Hf; [done|].
  assert ((h, l') ∈ filter (λ hl : nat * listener, hl.2 = l) (listeners w)) as Hin
    by (rewrite Hf; left).
  apply list_elem_of_filter in Hin as [Heq Hin]. simpl in Heq. subst l'.
  by destruct (Hno h).
Qed.

Lemma attached_singleton (l : listener) (w : world) (h h' : nat) :
  attached l w = [h] → (h', l) ∈ listeners w → h' = h.
Proof.
  intros Ha Hin. assert (h' ∈ attached l w) as Hh.
  { unfold attached. apply list_elem_of_fmap. exists (h', l). split; [done|].
    by apply list_elem_of_filter. }
  rewrite Ha in Hh. by apply list_elem_of_singleton in Hh.
Qed.

(** X16. When the line profile of a connection is unregistered and
    registered again, the connection stops following the display:
    [unregistered] has closed the item-inserted and item-removed
    listeners on the display, and the callback of the target reference
    is [reattach] alone. Afterwards an insertion into the display, or a
    removal from it, changes the graphics and nothing else: the line
    profile is not recomputed. *)
Theorem target_reregistration_stops_following (w : world) (d t hi hr : nat) :
  _closed (conn w) = false →
  _source (conn w) = Some d → d ≠ t →
  target_reference (conn w) = {| item_specifier := Some t; item := Some t |} →
  item_inserted_event_listener (conn w) = Some hi →
  item_removed_event_listener (conn w) = Some hr →
  attached (ItemInserted d) w = [hi] → attached (ItemRemoved d) w = [hr] →
  source_graphics_exist w → is_Some (interval_descriptors w !! t) →
  ∃ w', register t (unregister t w) = Ok w' ∧
        _source (conn w') = Some d ∧ _target (conn w') = Some t ∧
        item_inserted_event_listener (conn w') = None ∧
        item_removed_event_listener (conn w') = None ∧
        (∀ index region regions,
           graphics w' !! d = Some regions →
           insert_graphic d index region w'
             = Ok (with_graphics <[d := list_insert_at index region regions]> w')) ∧
        (∀ region regions,
           graphics w' !! d = Some regions → region ∈ regions →
           remove_graphic d region w'
             = Ok (with_graphics <[d := list_remove_first region regions]> w')).
Proof.
  intros Hcl Hs Hne Htr Hi Hr Hai Har Hex Hdesc.
  set (w1 := with_conn (λ c, set_target_reference (set_item None (target_reference c)) c) w).
  assert (unregister t w = unregistered w1) as Hun.
  { unfold unregister. rewrite Hcl. unfold unresolves. unfold _source in Hs.
    rewrite Hs. rewrite (bool_decide_eq_false_2 (Some d = Some t)) by congruence.
    rewrite Htr. cbn [item]. by rewrite bool_decide_eq_true_2. }
  destruct (unregistered_listeners w1) as [Hl2 Hc2].
  set (w2 := unregistered w1) in *.
  assert (conn w2 = set_item_listeners None None
                      (set_target_reference {| item_specifier := Some t; item := None |}
                         (conn w))) as Hc2'.
  { rewrite Hc2. unfold w1. cbn. by rewrite Htr. }
  set (w3 := with_conn (λ c, set_target_reference (set_item (Some t) (target_reference c)) c)
               w2).
  assert (register t w2 = reattach w3) as Hreg.
  { unfold register. rewrite Hc2'. cbn [_closed set_item_listeners set_target_reference].
    rewrite Hcl. cbn [source_reference target_reference set_item_listeners set_target_reference].
    assert (resolves t (source_reference (conn w)) = false) as ->.
    { unfold resolves. unfold _source in Hs. by rewrite Hs, bool_decide_eq_false_2. }
    rewrite bind_ret. rewrite Hc2'.
    cbn [target_reference set_item_listeners set_target_reference].
    assert (resolves t {| item_specifier := Some t; item := None |} = true) as ->
      by (unfold resolves; cbn; by rewrite !bool_decide_eq_true_2).
    done. }
  assert (graphics w2 = graphics w ∧ graphic_objects w2 = graphic_objects w ∧
          interval_descriptors w2 = interval_descriptors w) as (Hg2 & Ho2 & Hd2).
  { unfold w2, unregistered.
    destruct (item_inserted_event_listener (conn w1)); simpl;
      destruct (item_removed_event_listener _); simpl; done. }
  assert (conn w3 = set_item_listeners None None
                      (set_target_reference {| item_specifier := Some t; item := Some t |}
                         (conn w))) as Hc3.
  { unfold w3. cbn [conn with_conn]. rewrite Hc2'. reflexivity. }
  destruct (reattach_total w3) as [w' H'].
  { intros d' Hd'. unfold _source in *. rewrite Hc3 in Hd'. cbn in Hd'.
    destruct (Hex d' Hd') as (regions & Hrg & Hall). exists regions.
    unfold w3. cbn [graphics graphic_objects with_conn]. by rewrite Hg2, Ho2. }
  { intros t' Ht'. unfold _target in Ht'. rewrite Hc3 in Ht'. cbn in Ht'.
    injection Ht' as <-. unfold w3. cbn [interval_descriptors with_conn]. by rewrite Hd2. }
  exists w'. rewrite Hun, Hreg. split; [exact H'|].
  pose proof (reattach_display _ _ H') as (_ & _ & Hs' & Ht' & _).
  pose proof (reattach_listeners _ _ H') as (new & Hl' & _ & _ & Hii & Hir).
  assert (∀ x, x ∈ listeners w' →
               (x ∈ listeners w ∧ Some x.1 ≠ Some hi ∧ Some x.1 ≠ Some hr) ∨
               ∃ r, x.2 = PropertyChanged r) as Hlist.
  { intros x Hx. rewrite Hl' in Hx. apply elem_of_app in Hx as [Hx|Hx].
    - left. apply list_elem_of_filter in Hx as [_ Hx].
      change (listeners w3) with (listeners w2) in Hx. rewrite Hl2 in Hx.
      apply list_elem_of_filter in Hx as [[Hxi Hxr] Hx].
      change (conn w1) with
        (set_target_reference (set_item None (target_reference (conn w))) (conn w))
        in Hxi, Hxr.
      cbn in Hxi, Hxr. rewrite Hi in Hxi. rewrite Hr in Hxr. done.
    - right. apply list_elem_of_fmap in Hx as ([h r] & -> & _). by exists r. }
  assert (attached (ItemInserted d) w' = []) as Hai'.
  { apply attached_nil. intros h Hin.
    destruct (Hlist _ Hin) as [(Hin' & Hx & _)|[r ?]]; [|done].
    apply (attached_singleton _ _ hi) in Hin'; [|done]. simpl in Hx. congruence. }
  assert (attached (ItemRemoved d) w' = []) as Har'.
  { apply attached_nil. intros h Hin.
    destruct (Hlist _ Hin) as [(Hin' & _ & Hx)|[r ?]]; [|done].
    apply (attached_singleton _ _ hr) in Hin'; [|done]. simpl in Hx. congruence. }
  unfold _source, _target. rewrite Hs', Ht', Hii, Hir, Hc3. cbn.
  split; [done|]. split; [done|]. split; [done|]. split; [done|]. split.
  - intros index region regions Hrg. unfold insert_graphic. rewrite Hrg.
    change (attached (ItemInserted d) (with_graphics _ w'))
      with (attached (ItemInserted d) w').
    by rewrite Hai'.
  - intros region regions Hrg Hin. unfold remove_graphic. rewrite Hrg.
    rewrite decide_True by done.
    change (attached (ItemRemoved d) (with_graphics _ w'))
      with (attached (ItemRemoved d) w').
    by rewrite Har'.
Qed.

Lemma target_reregistration_stops_following_witness :
  ∃ w', register 1 (unregister 1 attached_world) = Ok w' ∧
        item_inserted_event_listener (conn w') = None ∧
        insert_graphic 0 0 12 w'
          = Ok (with_graphics <[0 := [12; 10; 11]]> w') ∧
        interval_descriptors w' !! 1
          = Some [ {| d_interval := (1, 2)%Z; d_color := "#F00" |} ].
Proof.
  destruct (target_reregistration_stops_following attached_world 0 1 0 1)
    as (w' & H & _ & _ & Hi & _ & Hins & _); try reflexivity; try discriminate.
  - intros d [= <-]. exists [10; 11]. split; [reflexivity|].
    intros r Hr. apply elem_of_cons in Hr as [->|Hr]; [by eexists|].
    apply elem_of_cons in Hr as [->|Hr]; [by eexists|]. by apply elem_of_nil in Hr.
  - by eexists.
  - exists w'. split; [exact H|]. split; [exact Hi|].
    assert (∃ x, register 1 (unregister 1 attached_world) = Ok x ∧
                 graphics x !! 0 = Some [10; 11] ∧
                 interval_descriptors x !! 1
                   = Some [ {| d_interval := (1, 2)%Z; d_color := "#F00" |} ])
      as (x & Hx & Hg & Hd) by (eexists; split; [|split]; vm_compute; reflexivity).
    rewrite H in Hx. injection Hx as <-.
    split; [exact (Hins 0 12 [10; 11] Hg)|exact Hd].
Defined.

End IntervalListConnectionExtras.
